(** * QTask: a Redis-backed job queue (fazpi-ai/qtask)

    Shallow embedding of [src/consumer.ts], [src/utils/redis-manager.ts]
    and [src/queue.ts], and the properties of the orchestrator that the
    specification states about them.

    Asynchronous methods are embedded as state-passing computations over a
    [World] (the script directory, the Redis server, the connection pool);
    an awaited promise either resolves ([Ok]), rejects ([Throw]) or never
    settles ([Hang]).  Logger calls only write to the console and are left
    out; the random identifiers ([uuidv4]) of queues and consumers are never
    read by the code and are left out as well. *)

From Stdlib Require Import ZArith DecimalString DecimalNat.
From stdpp Require Import gmap strings list fin_maps.

Open Scope string_scope.

(** ** Promises *)

(** The three ways an awaited promise can end. *)
Inductive outcome (A : Type) : Type :=
| Ok (a : A)
| Throw (message : string)
| Hang.
Arguments Ok {A} a.
Arguments Throw {A} message.
Arguments Hang {A}.

(** ** Payloads and their serialisation *)

(** [JSON.stringify] and [JSON.parse] of the platform, over the type of the
    payloads an application hands to the queue. [None] is a thrown
    exception (a circular structure, malformed text). *)
Class JSON (Payload : Type) := {
  JSON_stringify : Payload -> option string;
  JSON_parse : string -> option Payload
}.

(** Payloads that survive the trip through their text. *)
Class JSONRoundTrip (Payload : Type) `{JSON Payload} :=
  parse_stringify :
    forall (p : Payload) (s : string), JSON_stringify p = Some s -> JSON_parse s = Some p.

(** ** interfaces/queue.interface.ts *)

Inductive JobStatus := queued | processing | completed | failed.

Record IJobData (Payload : Type) := mkJob {
  id : N;
  data : Payload;
  groupName : string
}.
Arguments mkJob {Payload} id data groupName.
Arguments id {Payload} _.
Arguments data {Payload} _.
Arguments groupName {Payload} _.

(** What an [ICallback] does with the [done] continuation it receives: it
    calls [done()], calls [done(err)], throws before calling it, or never
    calls it. *)
Inductive Completion :=
| Done
| Failed (message : string)
| Raised (message : string)
| Silent.

Record IAddJobOptions := mkOptions {
  priority : option Z;
  delay : option Z;
  ttl : option Z
}.

Inductive Role := publisher | subscriber.

(** ** consumer.ts *)

Module Consumer.

Inductive Status := SLEEPING | RUNNING.

Section WithPayload.
Context {Payload : Type}.

(** [inflight] and [handled] are ghost fields: the jobs whose callback
    was invoked and has not signalled yet, and every job the callback
    was invoked on, oldest first. *)
Record t := mk {
    status : Status;
    queueName : string;
    callback : IJobData Payload -> Completion;
    inflight : list (IJobData Payload);
    handled : list (IJobData Payload)
  }.

(** [new Consumer(sessionId, queueName, callback, logLevel)] *)
Definition new (queueName : string) (callback : IJobData Payload -> Completion) : t :=
  mk SLEEPING queueName callback [] [].

Definition already_running (queueName : string) : string :=
  "Consumer for queue " ++ queueName ++ " is already running.".

(** [process], up to the point where the callback has been invoked. *)
Definition dispatch (c : t) (job : IJobData Payload) : outcome unit * t :=
  match status c with
  | RUNNING => (Throw (already_running (queueName c)), c)
  | SLEEPING =>
      (Ok tt, mk RUNNING (queueName c) (callback c) [job] (handled c ++ [job]))
  end.

(** [process], from the completion signal on: the promise around the
    callback settles, the error is re-thrown and [finally] puts the
    consumer back to sleep. A signal with no job in flight settles
    nothing. *)
Definition settle (c : t) (signal : Completion) : outcome unit * t :=
  match inflight c with
  | [] => (Ok tt, c)
  | _ :: _ =>
      let asleep := mk SLEEPING (queueName c) (callback c) [] (handled c) in
      match signal with
      | Done => (Ok tt, asleep)
      | Failed e => (Throw e, asleep)
      | Raised e => (Throw e, asleep)
      | Silent => (Hang, c)
      end
  end.

(** [public async process(job: IJobData): Promise<void>] *)
Definition process (c : t) (job : IJobData Payload) : outcome unit * t :=
  match dispatch c job with
  | (Ok _, c1) => settle c1 (callback c job)
  | refused => refused
  end.

(** The consumer as a machine driven by dispatches and completion
    signals that arrive in any order. *)
Inductive Event :=
  | Dispatch (job : IJobData Payload)
  | Signal (signal : Completion).

Definition step (c : t) (e : Event) : t :=
  match e with
  | Dispatch job => snd (dispatch c job)
  | Signal s => snd (settle c s)
  end.

Definition run (c : t) (events : list Event) : t := fold_left step events c.

End WithPayload.
Arguments t Payload : clear implicits.
Arguments Event Payload : clear implicits.

End Consumer.

(** ** The Redis server *)

Module Redis.

(** Text of a Lua script. The four scripts of [src/scripts] are named
    rather than spelled out; [OtherLua] is any other text, the empty
    file included. *)
Inductive Lua :=
  | EnqueueLua
  | DequeueLua
  | GetStatusLua
  | UpdateStatusLua
  | OtherLua (text : string).

(** JavaScript truthiness of a script text: only the empty string is
    falsy. *)
Definition nonempty (src : Lua) : bool :=
  match src with
  | OtherLua "" => false
  | _ => true
  end.

(** [SCRIPT LOAD] answers with the SHA-1 digest of the text; the model
    keeps the digest symbolic and injective. *)
Definition sha1 (src : Lua) : string :=
  match src with
  | EnqueueLua => "sha1:enqueue.lua"
  | DequeueLua => "sha1:dequeue.lua"
  | GetStatusLua => "sha1:get_status.lua"
  | UpdateStatusLua => "sha1:update_status.lua"
  | OtherLua text => "sha1-of:" ++ text
  end.

Inductive Arg := AStr (s : string) | ANum (z : Z).

#[warnings="-register-all"]
Inductive Reply :=
  | RNil
  | RInt (n : N)
  | RBulk (s : string)
  | RMulti (items : list Reply).

(** Every command the orchestrator sends. [PUBLISH] carries the
    notification [{queueName, groupName}] as a pair. *)
Inductive Cmd :=
  | SMEMBERS (key : string)
  | ZCARD (key : string)
  | SREM (key member : string)
  | EVALSHA (sha : string) (keys : list string) (args : list Arg)
  | SCRIPT_LOAD (src : Lua)
  | PUBLISH (channel : string) (message : string * string).

(** A job hash and a member of a group's sorted set. *)
Record JobRec := mkJobRec {
    payload : string;
    group : string;
    expiresAt : option Z;
    jstatus : JobStatus
  }.

Record ZEntry := mkZEntry {
    zpriority : Z;
    notBefore : Z;
    member : N
  }.

Record Store := mkStore {
    sets : gmap string (gset string);
    zsets : gmap string (list ZEntry);
    jobs : gmap N JobRec;
    next_id : N;
    now : Z;
    scripts : gmap string Lua;
    channel : list (string * (string * string))
  }.

Definition empty : Store := mkStore ∅ ∅ ∅ 0%N 0%Z ∅ [].

Definition set_sets (s : Store) (v : gmap string (gset string)) : Store :=
  mkStore v (zsets s) (jobs s) (next_id s) (now s) (scripts s) (channel s).
Definition set_zsets (s : Store) (v : gmap string (list ZEntry)) : Store :=
  mkStore (sets s) v (jobs s) (next_id s) (now s) (scripts s) (channel s).
Definition set_jobs (s : Store) (v : gmap N JobRec) : Store :=
  mkStore (sets s) (zsets s) v (next_id s) (now s) (scripts s) (channel s).
Definition set_next_id (s : Store) (v : N) : Store :=
  mkStore (sets s) (zsets s) (jobs s) v (now s) (scripts s) (channel s).
Definition set_now (s : Store) (v : Z) : Store :=
  mkStore (sets s) (zsets s) (jobs s) (next_id s) v (scripts s) (channel s).
Definition set_scripts (s : Store) (v : gmap string Lua) : Store :=
  mkStore (sets s) (zsets s) (jobs s) (next_id s) (now s) v (channel s).
Definition set_channel (s : Store) (v : list (string * (string * string))) : Store :=
  mkStore (sets s) (zsets s) (jobs s) (next_id s) (now s) (scripts s) v.

Definition members (s : Store) (key : string) : gset string :=
  default ∅ (sets s !! key).
Definition zrange (s : Store) (key : string) : list ZEntry :=
  default [] (zsets s !! key).

(** *** Plain commands *)

Definition smembers (key : string) (s : Store) : list string :=
  elements (members s key).

Definition zcard (key : string) (s : Store) : nat :=
  length (zrange s key).

Definition srem (key member : string) (s : Store) : Store :=
  set_sets s (<[key := members s key ∖ {[member]}]> (sets s)).

Definition sadd (key member : string) (s : Store) : Store :=
  set_sets s (<[key := {[member]} ∪ members s key]> (sets s)).

Definition script_load (src : Lua) (s : Store) : string * Store :=
  (sha1 src, set_scripts s (<[sha1 src := src]> (scripts s))).

Definition publish (chan : string) (message : string * string) (s : Store) : Store :=
  set_channel s (channel s ++ [(chan, message)]).

(** *** The atomic scripts *)

(** Rank of the sorted set: lower priority value first, then earlier
    [notBefore]; a new member goes behind the members of equal rank. *)
Definition ranks_before (a b : ZEntry) : bool :=
  (zpriority a <? zpriority b)%Z
  || ((zpriority a =? zpriority b)%Z && (notBefore a <? notBefore b)%Z).

Fixpoint zadd (e : ZEntry) (l : list ZEntry) : list ZEntry :=
  match l with
  | [] => [e]
  | x :: rest => if ranks_before e x then e :: x :: rest else x :: zadd e rest
  end.

Definition expired (j : JobRec) (t : Z) : bool :=
  match expiresAt j with
  | Some deadline => (deadline <=? t)%Z
  | None => false
  end.

Definition set_status (st : JobStatus) (j : JobRec) : JobRec :=
  mkJobRec (payload j) (group j) (expiresAt j) st.

(** Modelled from the spec: the [enqueue] script, whose Lua source
    ([src/scripts/enqueue.lua]) is missing. One atomic unit: a new
    identity, [notBefore = now + delay], [expiresAt = now + ttl] when
    [ttl > 0], the job placed by rank in the group's collection, and the
    group identifier added to the queue's index. The identifier is the
    group's key, which is what the sweep of [queue.ts] reads back from the
    index and passes to [ZCARD] and to [dequeue]. *)
Definition enqueue (groupsIndexKey groupKey : string) (payload_ groupName_ : string)
    (priority_ delay_ ttl_ : Z) (s : Store) : Reply * Store :=
  let jobId := next_id s in
  let entry := mkZEntry priority_ (now s + delay_) jobId in
  let record :=
    mkJobRec payload_ groupName_
      (if (0 <? ttl_)%Z then Some (now s + ttl_)%Z else None) queued in
  let s1 := set_next_id s (N.succ jobId) in
  let s2 := set_jobs s1 (<[jobId := record]> (jobs s1)) in
  let s3 := set_zsets s2 (<[groupKey := zadd entry (zrange s2 groupKey)]> (zsets s2)) in
  (RInt jobId, sadd groupsIndexKey groupKey s3).

(** Modelled from the spec: the [dequeue] script, whose Lua source
    ([src/scripts/dequeue.lua]) is missing. The best-ranked entry is
    taken when its [notBefore] has come; a job whose [expiresAt] has
    elapsed is discarded as failed and nothing is returned until the next
    sweep; otherwise the job is marked processing and returned as
    [[jobId, payloadJson, groupName]]. *)
Definition dequeue (groupKey : string) (s : Store) : Reply * Store :=
  match zrange s groupKey with
  | [] => (RNil, s)
  | e :: rest =>
      if (now s <? notBefore e)%Z then (RNil, s)
      else
        let s1 := set_zsets s (<[groupKey := rest]> (zsets s)) in
        match jobs s !! member e with
        | None => (RNil, s1)
        | Some j =>
            if expired j (now s)
            then (RNil, set_jobs s1 (<[member e := set_status failed j]> (jobs s1)))
            else (RMulti [RInt (member e); RBulk (payload j); RBulk (group j)],
                  set_jobs s1 (<[member e := set_status processing j]> (jobs s1)))
        end
  end.

Definition status_name (st : JobStatus) : string :=
  match st with
  | queued => "queued"
  | processing => "processing"
  | completed => "completed"
  | failed => "failed"
  end.

Definition status_named (name : string) : option JobStatus :=
  if String.eqb name "queued" then Some queued
  else if String.eqb name "processing" then Some processing
  else if String.eqb name "completed" then Some completed
  else if String.eqb name "failed" then Some failed
  else None.

(** Modelled from the spec: the [get_status] script
    ([src/scripts/get_status.lua] is missing), [get_status(jobId) → status]. *)
Definition get_status (jobId : N) (s : Store) : Reply * Store :=
  match jobs s !! jobId with
  | Some j => (RBulk (status_name (jstatus j)), s)
  | None => (RNil, s)
  end.

(** Modelled from the spec: the [update_status] script
    ([src/scripts/update_status.lua] is missing),
    [update_status(jobId, status) → ack]. *)
Definition update_status (jobId : N) (st : JobStatus) (s : Store) : Reply * Store :=
  match jobs s !! jobId with
  | Some j => (RInt 1, set_jobs s (<[jobId := set_status st j]> (jobs s)))
  | None => (RInt 0, s)
  end.

(** [EVALSHA]: run the cached script with that digest. *)
Definition evalsha (sha : string) (keys : list string) (args : list Arg) (s : Store)
    : outcome Reply * Store :=
  match scripts s !! sha with
  | None => (Throw "NOSCRIPT No matching script. Please use EVAL.", s)
  | Some EnqueueLua =>
      match keys, args with
      | [k1; k2], [AStr p; AStr g; ANum pr; ANum d; ANum t] =>
          let (r, s') := enqueue k1 k2 p g pr d t s in (Ok r, s')
      | _, _ => (Throw "ERR Error running script", s)
      end
  | Some DequeueLua =>
      match keys with
      | [k] => let (r, s') := dequeue k s in (Ok r, s')
      | _ => (Throw "ERR Error running script", s)
      end
  | Some GetStatusLua =>
      match args with
      | [ANum j] => let (r, s') := get_status (Z.to_N j) s in (Ok r, s')
      | _ => (Throw "ERR Error running script", s)
      end
  | Some UpdateStatusLua =>
      match args with
      | [ANum j; AStr name] =>
          match status_named name with
          | Some st => let (r, s') := update_status (Z.to_N j) st s in (Ok r, s')
          | None => (Throw "ERR Error running script", s)
          end
      | _ => (Throw "ERR Error running script", s)
      end
  | Some (OtherLua _) => (Throw "ERR Error running script", s)
  end.

End Redis.

(** ** Asynchronous computations *)

(** A method body: it runs on a state and ends as a promise does. *)
Definition M (S A : Type) : Type := S -> outcome A * S.

Definition ret {S A : Type} (a : A) : M S A := fun s => (Ok a, s).

Definition throw {S A : Type} (message : string) : M S A := fun s => (Throw message, s).

Definition bind {S A B : Type} (m : M S A) (k : A -> M S B) : M S B :=
  fun s =>
    match m s with
    | (Ok a, s') => k a s'
    | (Throw e, s') => (Throw e, s')
    | (Hang, s') => (Hang, s')
    end.

Notation "'let*' x ':=' m 'in' k" := (bind m (fun x => k))
  (at level 10, x name, m at level 100, k at level 200, only parsing).
Notation "'let*' '_' ':=' m 'in' k" := (bind m (fun _ => k))
  (at level 10, m at level 100, k at level 200, only parsing).

(** [try { m } catch (error) { handler }] *)
Definition try_catch {S A : Type} (m : M S A) (handler : string -> M S A) : M S A :=
  fun s =>
    match m s with
    | (Throw e, s') => handler e s'
    | settled => settled
    end.

(** [try { m } finally { cleanup }]: the cleanup runs however [m] settles,
    and not at all while [m] is pending. *)
Definition finally {S A : Type} (m : M S A) (cleanup : M S unit) : M S A :=
  fun s =>
    match m s with
    | (Hang, s') => (Hang, s')
    | (settled, s') =>
        match cleanup s' with
        | (Ok _, s'') => (settled, s'')
        | (Throw e, s'') => (Throw e, s'')
        | (Hang, s'') => (Hang, s'')
        end
    end.

Definition gets {S A : Type} (f : S -> A) : M S A := fun s => (Ok (f s), s).

Definition modify {S : Type} (f : S -> S) : M S unit := fun s => (Ok tt, f s).

(** ** The world outside the orchestrator *)

(** [files] is the scripts directory, [redis] the server, [faults] the
    fate of the coming round trips ([true]: the round trip fails; none left:
    all succeed), [trace] the commands sent so far and [borrowed] the number
    of pooled connections in use. *)
Record World := mkWorld {
  files : gmap string Redis.Lua;
  redis : Redis.Store;
  faults : list bool;
  trace : list Redis.Cmd;
  borrowed : nat
}.

Definition next_fault (w : World) : bool * list bool :=
  match faults w with
  | [] => (false, [])
  | b :: later => (b, later)
  end.

(** One command on a connection. *)
Definition roundtrip {A : Type} (cmd : Redis.Cmd)
    (exec : Redis.Store -> outcome A * Redis.Store) : M World A :=
  fun w =>
    let (broken, later) := next_fault w in
    if broken
    then (Throw "Connection is closed.",
          mkWorld (files w) (redis w) later (trace w ++ [cmd]) (borrowed w))
    else
      let (r, s) := exec (redis w) in
      (r, mkWorld (files w) s later (trace w ++ [cmd]) (borrowed w)).

Module Client.

Definition smembers (key : string) : M World (list string) :=
  roundtrip (Redis.SMEMBERS key) (fun s => (Ok (Redis.smembers key s), s)).

Definition zcard (key : string) : M World nat :=
  roundtrip (Redis.ZCARD key) (fun s => (Ok (Redis.zcard key s), s)).

Definition srem (key member : string) : M World unit :=
  roundtrip (Redis.SREM key member) (fun s => (Ok tt, Redis.srem key member s)).

Definition evalsha (sha : string) (keys : list string) (args : list Redis.Arg)
    : M World Redis.Reply :=
  roundtrip (Redis.EVALSHA sha keys args) (Redis.evalsha sha keys args).

Definition script_load (src : Redis.Lua) : M World string :=
  roundtrip (Redis.SCRIPT_LOAD src)
    (fun s => let (sha, s') := Redis.script_load src s in (Ok sha, s')).

Definition publish (chan : string) (message : string * string) : M World unit :=
  roundtrip (Redis.PUBLISH chan message) (fun s => (Ok tt, Redis.publish chan message s)).

End Client.

(** [fs.readFile(path, 'utf8')] *)
Definition readFile (path : string) : M World Redis.Lua :=
  fun w =>
    match files w !! path with
    | Some src => (Ok src, w)
    | None => (Throw ("ENOENT: no such file or directory, open '" ++ path ++ "'"), w)
    end.

(** The [generic-pool] of connections. [acquire] is the acquisition of a
    connection that the pool can lend at once: it is refused or granted, and
    [borrowed] counts the connections that are out. The pool's ceiling
    ([max: 10]) is not enforced here: on a pool with ten connections out the
    source's [acquire] stays pending until one is released. What is proved
    of a call that settles is stated for a pool with room for the
    connections the call borrows. *)
Module Pool.

Definition acquire : M World unit :=
  fun w =>
    let (broken, later) := next_fault w in
    if broken
    then (Throw "pool is draining and cannot accept work",
          mkWorld (files w) (redis w) later (trace w) (borrowed w))
    else (Ok tt, mkWorld (files w) (redis w) later (trace w) (S (borrowed w))).

Definition release : M World unit :=
  fun w =>
    match borrowed w with
    | O => (Throw "Resource not currently part of this pool", w)
    | S n => (Ok tt, mkWorld (files w) (redis w) (faults w) (trace w) n)
    end.

End Pool.

(** A computation on the world, run from inside an object that has state of
    its own. *)
Definition in_world {S A : Type} (m : M World A) : M (S * World) A :=
  fun st =>
    let (r, w) := m (snd st) in (r, (fst st, w)).

(** ** utils/redis-manager.ts *)

Module RedisManager.

Record t := mk {
  scripts : list string;
  scriptContents : gmap string Redis.Lua;
  scriptShas : gmap string string
}.

(** [new RedisManager({credentials, scripts, logLevel})] *)
Definition new (scripts : list string) : t := mk scripts ∅ ∅.

Definition getScriptSha (m : t) (scriptName : string) : option string :=
  scriptShas m !! scriptName.

Definition register (scriptName sha : string) (src : Redis.Lua) (m : t) : t :=
  mk (scripts m) (<[scriptName := src]> (scriptContents m)) (<[scriptName := sha]> (scriptShas m)).

(** [private async loadLuaScript(scriptName): Promise<string | null>] *)
Definition loadLuaScript (scriptName : string) : M (t * World) (option Redis.Lua) :=
  try_catch
    (let* content := in_world (readFile (scriptName ++ ".lua")) in ret (Some content))
    (fun _ => ret None).

(** The [for (const scriptName of this.scripts)] loop. *)
Fixpoint load_each (names : list string) : M (t * World) unit :=
  match names with
  | [] => ret tt
  | scriptName :: rest =>
      let* scriptContent := loadLuaScript scriptName in
      match scriptContent with
      | Some src =>
          if Redis.nonempty src
          then
            let* sha := in_world (Client.script_load src) in
            let* _ := modify (fun st => (register scriptName sha src (fst st), snd st)) in
            load_each rest
          else load_each rest
      | None => load_each rest
      end
  end.

(** [private async loadAndRegisterLuaScripts(): Promise<void>] *)
Definition loadAndRegisterLuaScripts : M (t * World) unit :=
  let* _ := in_world Pool.acquire in
  finally
    (let* names := gets (fun st => scripts (fst st)) in load_each names)
    (in_world Pool.release).

(** [public async init(): Promise<void>] *)
Definition init : M (t * World) unit :=
  try_catch loadAndRegisterLuaScripts (fun error => throw error).

(** [public async getClient(): Promise<Redis>] *)
Definition getClient : M (t * World) unit :=
  try_catch (in_world Pool.acquire) (fun error => throw error).

(** [public async releaseClient(client: Redis): Promise<void>] *)
Definition releaseClient : M (t * World) unit :=
  try_catch (in_world Pool.release) (fun _ => ret tt).

End RedisManager.

(** ** queue.ts *)

Module Queue.

Section WithPayload.
Context {Payload : Type} `{JSON Payload}.

Record t := mk {
  type : Role;
  subscriberClient : bool;
  publisherClient : bool;
  redisManager : RedisManager.t;
  consumerLimits : gmap string nat;
  consumers : gmap string (Consumer.t Payload);
  activeProcessingInterval : bool
}.

Definition set_manager (q : t) (m : RedisManager.t) : t :=
  mk (type q) (subscriberClient q) (publisherClient q) m (consumerLimits q)
     (consumers q) (activeProcessingInterval q).

Definition set_consumers (q : t) (cs : gmap string (Consumer.t Payload)) : t :=
  mk (type q) (subscriberClient q) (publisherClient q) (redisManager q) (consumerLimits q)
     cs (activeProcessingInterval q).

Definition set_interval (q : t) (on : bool) : t :=
  mk (type q) (subscriberClient q) (publisherClient q) (redisManager q) (consumerLimits q)
     (consumers q) on.

(** [constructor(options: IQueueOptions)]: a subscriber connection,
    subscribed to the notification channel, for a subscriber; a publisher
    connection for a publisher. *)
Definition new (role : Role) (limits : gmap string nat) : t :=
  mk role
     (match role with subscriber => true | publisher => false end)
     (match role with publisher => true | subscriber => false end)
     (RedisManager.new ["dequeue"; "enqueue"; "get_status"; "update_status"])
     limits ∅ false.

(** A method of the manager, run from the queue that owns it. *)
Definition in_manager {A : Type} (m : M (RedisManager.t * World) A) : M (t * World) A :=
  fun st =>
    let (r, st') := m (redisManager (fst st), snd st) in
    (r, (set_manager (fst st) (fst st'), snd st')).

Definition groups_key (queueName : string) : string :=
  "qtask:" ++ queueName ++ ":groups".

Definition group_key (queueName groupName : string) : string :=
  "qtask:" ++ queueName ++ ":group:" ++ groupName.

Definition newjob_channel : string := "qtask:newjob".

(** [await consumer.process(job)] on the consumer registered for
    [queueName]; the consumer object is shared with the [consumers] map and
    is updated in place. *)
Definition consumer_process (queueName : string) (job : IJobData Payload) : M (t * World) unit :=
  fun st =>
    match consumers (fst st) !! queueName with
    | None => (Throw "Cannot read properties of undefined (reading 'process')", st)
    | Some c =>
        let (r, c') := Consumer.process c job in
        (r, (set_consumers (fst st) (<[queueName := c']> (consumers (fst st))), snd st))
    end.

(** The inner [try] of the sweep: parse the job data, build the job and
    hand it to the consumer; whatever is thrown is logged and dropped. *)
Definition deliver (queueName : string) (jobId : N) (jobDataStr groupName : string)
    : M (t * World) unit :=
  try_catch
    (match JSON_parse jobDataStr with
     | None => throw "Unexpected token in JSON"
     | Some jobData => consumer_process queueName (mkJob jobId jobData groupName)
     end)
    (fun _ => ret tt).

(** [const [jobId, jobDataStr, groupName] = result], for a reply that is an
    array. The [dequeue] script answers with this triple or with nil, and
    these are the replies covered; the source would destructure an array of
    another shape as well, which [dequeue] never gives, and such a reply is
    passed over here. *)
Definition as_triple (result : Redis.Reply) : option (N * string * string) :=
  match result with
  | Redis.RMulti (Redis.RInt jobId :: Redis.RBulk jobDataStr :: Redis.RBulk groupName :: _) =>
      Some (jobId, jobDataStr, groupName)
  | _ => None
  end.

(** The [for (const groupKey of groups)] loop of [processQueueTasks], run
    alone: between two of its commands the store sees no command of another
    client and the consumer no other sweep. The source yields at each
    [await]. *)
Fixpoint sweep_groups (scriptSha queueGroupsKey queueName : string) (groups : list string)
    : M (t * World) unit :=
  match groups with
  | [] => ret tt
  | groupKey :: rest =>
      let* jobCount := in_world (Client.zcard groupKey) in
      match jobCount with
      | O =>
          let* _ := in_world (Client.srem queueGroupsKey groupKey) in
          sweep_groups scriptSha queueGroupsKey queueName rest
      | S _ =>
          let* result := in_world (Client.evalsha scriptSha [groupKey] []) in
          match as_triple result with
          | Some (jobId, jobDataStr, groupName) =>
              let* _ := deliver queueName jobId jobDataStr groupName in
              sweep_groups scriptSha queueGroupsKey queueName rest
          | None => sweep_groups scriptSha queueGroupsKey queueName rest
          end
      end
  end.

(** [private async processQueueTasks(queueName, consumer): Promise<void>].
    At each call site [consumer] is [this.consumers.get(queueName)]. *)
Definition processQueueTasks (queueName : string) : M (t * World) unit :=
  let* _ := in_manager RedisManager.getClient in
  finally
    (try_catch
       (let* handle :=
          gets (fun st => RedisManager.getScriptSha (redisManager (fst st)) "dequeue") in
        match handle with
        | None => ret tt
        | Some scriptSha =>
            let* groups := in_world (Client.smembers (groups_key queueName)) in
            match groups with
            | [] => ret tt
            | _ :: _ => sweep_groups scriptSha (groups_key queueName) queueName groups
            end
        end)
       (fun _ => ret tt))
    (in_manager RedisManager.releaseClient).

(** The body of the callback of [setInterval] in [startActiveProcessing]:
    one pass over the queue names in the given order. *)
Fixpoint poll (queueNames : list string) : M (t * World) unit :=
  match queueNames with
  | [] => ret tt
  | queueName :: rest =>
      let* consumer := gets (fun st => consumers (fst st) !! queueName) in
      match Consumer.status <$> consumer with
      | Some Consumer.SLEEPING =>
          let* _ := processQueueTasks queueName in poll rest
      | _ => poll rest
      end
  end.

(** The callback of [setInterval]:
    [for (const [queueName, consumer] of this.consumers.entries())]. The
    source walks the map in the order the consumers were registered;
    [map_to_list] walks the keys in an order of its own. [poll] is the loop
    over any list of names, and what is proved of a tick whatever the order
    is proved of [poll] over every list. *)
Definition tick : M (t * World) unit :=
  let* entries := gets (fun st => map_to_list (consumers (fst st))) in
  poll (fst <$> entries).

(** [private startActiveProcessing(): void] *)
Definition startActiveProcessing : M (t * World) unit :=
  modify (fun st => (set_interval (fst st) true, snd st)).

(** [public init = async (): Promise<void>] *)
Definition init : M (t * World) unit :=
  let* _ := in_manager RedisManager.init in
  let* role := gets (fun st => type (fst st)) in
  match role with
  | subscriber => startActiveProcessing
  | publisher => ret tt
  end.

(** The ['message'] handler installed by [setupSubscriber], run from its
    first statement to its last with no other handler in between: the
    source's handler yields at each [await], and a tick, another
    notification or another client's command may run there. *)
Definition on_message (chan : string) (message : string * string) : M (t * World) unit :=
  if String.eqb chan newjob_channel
  then
    try_catch
      (let* consumer := gets (fun st => consumers (fst st) !! fst message) in
       match Consumer.status <$> consumer with
       | Some Consumer.SLEEPING =>
           let* _ := in_manager RedisManager.getClient in
           finally
             (let* jobCount := in_world (Client.zcard (group_key (fst message) (snd message))) in
              match jobCount with
              | O => ret tt
              | S _ => processQueueTasks (fst message)
              end)
             (in_manager RedisManager.releaseClient)
       | _ => ret tt
       end)
      (fun _ => ret tt)
  else ret tt.

(** A reply read as [string | number | null]. *)
Definition as_job_id (reply : Redis.Reply) : option Redis.Reply :=
  match reply with
  | Redis.RNil => None
  | other => Some other
  end.

(** [public async add(queueName, groupName, data, options = {})] *)
Definition add (queueName groupName : string) (data : Payload) (options : IAddJobOptions)
    : M (t * World) (option Redis.Reply) :=
  let* _ := in_manager RedisManager.getClient in
  finally
    (try_catch
       (let* handle :=
          gets (fun st => RedisManager.getScriptSha (redisManager (fst st)) "enqueue") in
        match handle with
        | None => ret None
        | Some scriptSha =>
            match JSON_stringify data with
            | None => throw "Converting circular structure to JSON"
            | Some text =>
                let* jobId :=
                  in_world
                    (Client.evalsha scriptSha
                       [groups_key queueName; group_key queueName groupName]
                       [Redis.AStr text; Redis.AStr groupName;
                        Redis.ANum (default 0%Z (priority options));
                        Redis.ANum (default 0%Z (delay options));
                        Redis.ANum (default 0%Z (ttl options))]) in
                let* connected := gets (fun st => publisherClient (fst st)) in
                let* _ :=
                  (if connected
                   then in_world (Client.publish newjob_channel (queueName, groupName))
                   else ret tt) in
                ret (as_job_id jobId)
            end
        end)
       (fun _ => ret None))
    (in_manager RedisManager.releaseClient).

(** [public async process(queueName, callback): Promise<void>] *)
Definition process (queueName : string) (callback : IJobData Payload -> Completion)
    : M (t * World) unit :=
  let* role := gets (fun st => type (fst st)) in
  match role with
  | publisher => throw "Only subscriber instances can process jobs"
  | subscriber =>
      let* registered := gets (fun st => consumers (fst st) !! queueName) in
      match registered with
      | Some _ => throw ("A processor for queue '" ++ queueName ++ "' already exists")
      | None =>
          let consumer := Consumer.new queueName callback in
          let* _ :=
            modify (fun st =>
                      (set_consumers (fst st) (<[queueName := consumer]> (consumers (fst st))),
                       snd st)) in
          let* role := gets (fun st => type (fst st)) in
          match role with
          | subscriber => processQueueTasks queueName
          | publisher => ret tt
          end
      end
  end.

End WithPayload.
Arguments t Payload : clear implicits.

End Queue.

(** ** Concrete instances *)

Module Examples.

(** White space as the JSON grammar has it: space, tab, line feed and
    carriage return. [JSON.parse] skips it around a value. *)
Definition is_json_space (c : Ascii.ascii) : bool :=
  match Ascii.nat_of_ascii c with
  | 32 | 9 | 10 | 13 => true
  | _ => false
  end.

Fixpoint trim_start (text : string) : string :=
  match text with
  | String c rest => if is_json_space c then trim_start rest else text
  | EmptyString => EmptyString
  end.

Fixpoint trim_end (text : string) : string :=
  match text with
  | String c rest =>
      match trim_end rest with
      | EmptyString => if is_json_space c then EmptyString else String c EmptyString
      | kept => String c kept
      end
  | EmptyString => EmptyString
  end.

Definition trim (text : string) : string := trim_end (trim_start text).

(** A natural number in plain decimal, as [JSON.stringify] writes it: no
    sign, no fraction, no exponent, no leading zero. The empty text and a
    text with a leading zero are not numbers of the JSON grammar. *)
Definition nat_of_decimal (text : string) : option nat :=
  match NilEmpty.uint_of_string text with
  | Some digits =>
      let n := Nat.of_uint digits in
      if String.eqb (NilEmpty.string_of_uint (Nat.to_uint n)) text then Some n else None
  | None => None
  end.

(** Payloads that are natural numbers, written in decimal as
    [JSON.stringify] writes them and read back as [JSON.parse] reads such a
    text, white space around it allowed. A text that [JSON.parse] would read
    as another value (a number with a sign, a fraction or an exponent, a
    string, an object) is no payload of this type and is read as a failure. *)
#[global] Instance nat_JSON : JSON nat := {|
  JSON_stringify n := Some (NilEmpty.string_of_uint (Nat.to_uint n));
  JSON_parse text := nat_of_decimal (trim text)
|}.

(** Payloads that are numbers as JavaScript has them, of which only the
    naturals and [NaN] are kept, or [null]. The platform serialises [NaN]
    as [null] ([JSON.stringify(NaN)] is the text [null]), and [null] is what
    [JSON.parse] reads back from it. *)
Inductive Js := JsNull | JsNum (n : nat) | JsNaN.

#[global] Instance Js_JSON : JSON Js := {|
  JSON_stringify v :=
    Some (match v with
          | JsNull | JsNaN => "null"
          | JsNum n => NilEmpty.string_of_uint (Nat.to_uint n)
          end);
  JSON_parse text :=
    if String.eqb (trim text) "null" then Some JsNull
    else JsNum <$> nat_of_decimal (trim text)
|}.

(** The scripts directory of the package. *)
Definition scripts_dir : gmap string Redis.Lua :=
  <["dequeue.lua" := Redis.DequeueLua]>
    (<["enqueue.lua" := Redis.EnqueueLua]>
       (<["get_status.lua" := Redis.GetStatusLua]>
          (<["update_status.lua" := Redis.UpdateStatusLua]> ∅))).

(** A fresh server and a healthy network. *)
Definition fresh : World := mkWorld scripts_dir Redis.empty [] [] 0.

Definition no_options : IAddJobOptions := mkOptions None None None.

Definition with_faults (w : World) (fs : list bool) : World :=
  mkWorld (files w) (redis w) fs (trace w) (borrowed w).



(** An orchestrator of either role, initialised on a world. *)
Definition started (role : Role) (w : World) : Queue.t nat * World :=
  snd (Queue.init (Queue.new role ∅, w)).

(** The same orchestrator with a consumer already registered for [queueName]. *)
Definition listening (st : Queue.t nat * World) (queueName : string)
    (callback : IJobData nat -> Completion) : Queue.t nat * World :=
  (Queue.set_consumers (fst st)
     (<[queueName := Consumer.new queueName callback]> (Queue.consumers (fst st))),
   snd st).

(** [n] jobs admitted one after the other to one group. *)
Fixpoint add_many (n : nat) (queueName groupName : string) (st : Queue.t nat * World)
    : Queue.t nat * World :=
  match n with
  | O => st
  | S k => add_many k queueName groupName (snd (Queue.add queueName groupName n no_options st))
  end.

(** An initialised publisher on the fresh world, evaluated. *)
Definition publisher_q : Queue.t nat := Eval vm_compute in fst (started publisher fresh).
Definition publisher_w : World := Eval vm_compute in snd (started publisher fresh).

(** The queue [Q] with ten jobs pending in group [G1] and one in [G2], as
    the publisher above leaves it, and a subscriber whose consumer for [Q]
    reports success; evaluated. *)
Definition two_groups : Queue.t nat * World :=
  let st := add_many 10 "Q" "G1" (publisher_q, publisher_w) in
  let st := snd (Queue.add "Q" "G2" 99 no_options st) in
  listening (started subscriber (snd st)) "Q" (fun _ => Done).

Definition two_groups_q : Queue.t nat := Eval vm_compute in fst two_groups.
Definition two_groups_w : World := Eval vm_compute in snd two_groups.

(** The same queue with a consumer that reports a failure; evaluated. *)
Definition two_groups_failing_q : Queue.t nat :=
  Eval vm_compute in fst (listening two_groups "Q" (fun _ => Failed "boom")).

(** A subscriber initialised on a server of its own, with a consumer for
    [Q] that reports success, and one not yet listening; evaluated. *)
Definition subscriber_q : Queue.t nat :=
  Eval vm_compute in fst (listening (started subscriber fresh) "Q" (fun _ => Done)).
Definition idle_subscriber_q : Queue.t nat :=
  Eval vm_compute in fst (started subscriber fresh).

(** The world after the publisher has admitted the payload 7 to [Q]/[G];
    evaluated. *)
Definition one_job_w : World :=
  Eval vm_compute in snd (snd (Queue.add "Q" "G" 7 no_options (publisher_q, publisher_w))).



(** The queue of [two_groups] with a consumer whose callback never calls
    [done], and what its first sweep leaves; evaluated. *)
Definition two_groups_silent_q : Queue.t nat :=
  Eval vm_compute in fst (listening two_groups "Q" (fun _ => Silent)).
Definition wedged_q : Queue.t nat :=
  Eval vm_compute in fst (snd (Queue.processQueueTasks "Q" (two_groups_silent_q, two_groups_w))).
Definition wedged_w : World :=
  Eval vm_compute in snd (snd (Queue.processQueueTasks "Q" (two_groups_silent_q, two_groups_w))).

End Examples.

(** * Vocabulary of the properties *)

Open Scope list_scope.

(** The network is healthy: no round trip fails from now on. *)
Definition reliable (w : World) : Prop := faults w = [].

(** What holds of the way a computation ends and of the state it leaves. *)
Definition wp {S A : Type} (m : M S A) (Q : outcome A -> S -> Prop) (s : S) : Prop :=
  Q (fst (m s)) (snd (m s)).

(** The world after a round trip that carried [cmd] and left the server in
    state [s]. *)
Definition after_roundtrip (w : World) (cmd : Redis.Cmd) (s : Redis.Store) : World :=
  mkWorld (files w) s (snd (next_fault w)) (trace w ++ [cmd]) (borrowed w).

Definition after_acquire (w : World) : World :=
  mkWorld (files w) (redis w) (snd (next_fault w)) (trace w) (S (borrowed w)).

Definition after_refusal (w : World) : World :=
  mkWorld (files w) (redis w) (snd (next_fault w)) (trace w) (borrowed w).

Definition after_release (w : World) : World :=
  mkWorld (files w) (redis w) (faults w) (trace w) (pred (borrowed w)).


(** The store after the [enqueue] script ran for [add]'s arguments. *)
Definition stored_by_add (queueName groupName text : string) (options : IAddJobOptions)
    (s : Redis.Store) : Redis.Store :=
  snd (Redis.enqueue (Queue.groups_key queueName) (Queue.group_key queueName groupName)
         text groupName
         (default 0%Z (priority options)) (default 0%Z (delay options))
         (default 0%Z (ttl options)) s).

(** What every reachable consumer satisfies: it runs exactly while one job
    is in flight. *)
Definition consistent {Payload : Type} (c : Consumer.t Payload) : Prop :=
  match Consumer.status c with
  | Consumer.SLEEPING => Consumer.inflight c = []
  | Consumer.RUNNING => exists job, Consumer.inflight c = [job]
  end.

(** ** A sweep, as the store sees it *)

(** One group visited with every round trip succeeding: an empty group is
    removed from the index, another one has the script run on it. *)
Definition visit_store (sha key g : string) (s : Redis.Store) : Redis.Store :=
  match Redis.zcard g s with
  | O => Redis.srem key g s
  | S _ => snd (Redis.evalsha sha [g] [] s)
  end.

Definition visit_trace (sha key g : string) (s : Redis.Store) : list Redis.Cmd :=
  match Redis.zcard g s with
  | O => [Redis.ZCARD g; Redis.SREM key g]
  | S _ => [Redis.ZCARD g; Redis.EVALSHA sha [g] []]
  end.

Definition visit_reply (sha g : string) (s : Redis.Store) : option (N * string * string) :=
  match Redis.zcard g s with
  | O => None
  | S _ =>
      match fst (Redis.evalsha sha [g] [] s) with
      | Ok result => Queue.as_triple result
      | _ => None
      end
  end.

Fixpoint swept_store (sha key : string) (groups : list string) (s : Redis.Store)
    : Redis.Store :=
  match groups with
  | [] => s
  | g :: rest => swept_store sha key rest (visit_store sha key g s)
  end.

Fixpoint swept_trace (sha key : string) (groups : list string) (s : Redis.Store)
    : list Redis.Cmd :=
  match groups with
  | [] => []
  | g :: rest => visit_trace sha key g s ++ swept_trace sha key rest (visit_store sha key g s)
  end.

Fixpoint swept_replies (sha key : string) (groups : list string) (s : Redis.Store)
    : list (N * string * string) :=
  match groups with
  | [] => []
  | g :: rest =>
      option_list (visit_reply sha g s) ++ swept_replies sha key rest (visit_store sha key g s)
  end.

(** The commands a sweep of the index [key] with the handle [sha] may send. *)
Definition sweep_cmd (sha key : string) (c : Redis.Cmd) : Prop :=
  c = Redis.SMEMBERS key \/
  exists g, c = Redis.ZCARD g \/ c = Redis.SREM key g \/ c = Redis.EVALSHA sha [g] [].

(** The handle is, on the server, the [dequeue] script. *)
Definition dequeue_bound (sha : string) (s : Redis.Store) : Prop :=
  Redis.scripts s !! sha = Some Redis.DequeueLua.

(** The job a triple is turned into. *)
Definition job_of {Payload : Type} `{JSON Payload} (t : N * string * string)
    : option (IJobData Payload) :=
  match JSON_parse (snd (fst t)) with
  | Some jobData => Some (mkJob (fst (fst t)) jobData (snd t))
  | None => None
  end.

(** The jobs the consumer of a queue was handed so far. *)
Definition handled_at {Payload : Type} (queueName : string) (q : Queue.t Payload)
    : list (IJobData Payload) :=
  match Queue.consumers q !! queueName with
  | Some c => Consumer.handled c
  | None => []
  end.

Definition kin {Payload : Type} (c c' : Consumer.t Payload) : Prop :=
  Consumer.queueName c' = Consumer.queueName c /\ Consumer.callback c' = Consumer.callback c.

(** Two states of one orchestrator that differ at most in the state of the
    consumer registered for [queueName]. *)
Definition same_instance {Payload : Type} (queueName : string) (q q' : Queue.t Payload)
    : Prop :=
  q' = Queue.set_consumers q (Queue.consumers q') /\
  (forall k, k <> queueName -> Queue.consumers q' !! k = Queue.consumers q !! k) /\
  option_Forall2 kin (Queue.consumers q !! queueName) (Queue.consumers q' !! queueName).

(** What a pass over [groups] leaves, started on the orchestrator [q] in the
    world [w]: a prefix [done] of the groups has been visited, the store has
    seen exactly these visits, and the jobs handed to the consumer are among
    the jobs the script returned, in order. A pass that comes to its end has
    visited every group. *)
Definition sweep_post {Payload : Type} `{JSON Payload} (sha key queueName : string)
    (groups : list string) (q : Queue.t Payload) (w : World)
    (r : outcome unit) (st' : Queue.t Payload * World) : Prop :=
  exists (done : list string) (delivered : list (IJobData Payload)),
    done `prefix_of` groups /\
    redis (snd st') = swept_store sha key done (redis w) /\
    files (snd st') = files w /\
    borrowed (snd st') = borrowed w /\
    (exists tr, trace (snd st') = trace w ++ tr /\ Forall (sweep_cmd sha key) tr) /\
    same_instance queueName q (fst st') /\
    handled_at queueName (fst st') = handled_at queueName q ++ delivered /\
    delivered `sublist_of` omap job_of (swept_replies sha key done (redis w)) /\
    (reliable w -> reliable (snd st')) /\
    (r = Ok tt ->
     done = groups /\
     trace (snd st') = trace w ++ swept_trace sha key groups (redis w)) /\
    (reliable w -> dequeue_bound sha (redis w) -> forall e, r <> Throw e).

(** What [processQueueTasks] leaves, started on the orchestrator [q] in the
    world [w]: [sweep_post] for the groups of the index, with the connection
    given back when the call returns, the error of a failed round trip
    swallowed, and the whole index visited when the network is healthy and
    the handle is the [dequeue] script. *)
Definition process_post {Payload : Type} `{JSON Payload} (queueName : string)
    (q : Queue.t Payload) (w : World) (r : outcome unit) (st' : Queue.t Payload * World)
    : Prop :=
  let key := Queue.groups_key queueName in
  let groups := Redis.smembers key (redis w) in
  let handle := RedisManager.getScriptSha (Queue.redisManager q) "dequeue" in
  let sha := default "" handle in
  exists (done : list string) (delivered : list (IJobData Payload)),
    (handle = None -> done = []) /\
    done `prefix_of` groups /\
    redis (snd st') = swept_store sha key done (redis w) /\
    files (snd st') = files w /\
    (r = Ok tt -> borrowed (snd st') = borrowed w) /\
    (exists tr, trace (snd st') = trace w ++ tr /\ Forall (sweep_cmd sha key) tr) /\
    same_instance queueName q (fst st') /\
    handled_at queueName (fst st') = handled_at queueName q ++ delivered /\
    delivered `sublist_of` omap job_of (swept_replies sha key done (redis w)) /\
    (reliable w -> reliable (snd st')) /\
    (reliable w -> forall e, r <> Throw e) /\
    (reliable w -> is_Some handle -> dequeue_bound sha (redis w) -> r = Ok tt ->
     done = groups /\
     trace (snd st') =
       trace w ++ Redis.SMEMBERS key :: swept_trace sha key groups (redis w)).

(** What of a job never changes once it is admitted. *)
Definition content (j : Redis.JobRec) : string * string * option Z :=
  (Redis.payload j, Redis.group j, Redis.expiresAt j).





(** ** Stores the scripts can have built *)

(** No job sits in two places: the members of a collection are distinct and
    two collections share none. *)
Definition unique_members (s : Redis.Store) : Prop :=
  (forall k, NoDup (Redis.member <$> Redis.zrange s k)) /\
  (forall k1 k2 e1 e2,
     k1 <> k2 -> e1 ∈ Redis.zrange s k1 -> e2 ∈ Redis.zrange s k2 ->
     Redis.member e1 <> Redis.member e2).

(** Every member was handed out by the identity counter. *)
Definition members_issued (s : Redis.Store) : Prop :=
  forall k e, e ∈ Redis.zrange s k -> (Redis.member e < Redis.next_id s)%N.

(** The job [i] is in no collection. *)
Definition parked (s : Redis.Store) (i : N) : Prop :=
  forall k e, e ∈ Redis.zrange s k -> Redis.member e <> i.

Definition status_of (s : Redis.Store) (i : N) : option JobStatus :=
  Redis.jstatus <$> Redis.jobs s !! i.

(** One command of a client, or time passing. *)
Inductive store_step : Redis.Store -> Redis.Store -> Prop :=
| step_srem (key member : string) (s : Redis.Store) :
  store_step s (Redis.srem key member s)
| step_script_load (src : Redis.Lua) (s : Redis.Store) :
  store_step s (snd (Redis.script_load src s))
| step_publish (chan : string) (message : string * string) (s : Redis.Store) :
  store_step s (Redis.publish chan message s)
| step_evalsha (sha : string) (keys : list string) (args : list Redis.Arg) (s : Redis.Store) :
  store_step s (snd (Redis.evalsha sha keys args s))
| step_clock (t : Z) (s : Redis.Store) :
  store_step s (Redis.set_now s t).

(** The stores that come about from [s] by commands and time. *)
Definition evolves (s s' : Redis.Store) : Prop := rtc store_step s s'.

(** The members of all collections, listed one collection after the other. *)
Definition all_members (s : Redis.Store) : list N :=
  mjoin ((fun kv : string * list Redis.ZEntry => Redis.member <$> snd kv)
            <$> map_to_list (Redis.zsets s)).

(** ** Admission *)

(** The command [add] sends to run the [enqueue] script. *)
Definition enqueue_cmd (sha queueName groupName text : string) (options : IAddJobOptions)
    : Redis.Cmd :=
  Redis.EVALSHA sha
    [Queue.groups_key queueName; Queue.group_key queueName groupName]
    [Redis.AStr text; Redis.AStr groupName;
     Redis.ANum (default 0%Z (priority options));
     Redis.ANum (default 0%Z (delay options));
     Redis.ANum (default 0%Z (ttl options))].

Definition newjob_cmd (queueName groupName : string) : Redis.Cmd :=
  Redis.PUBLISH Queue.newjob_channel (queueName, groupName).

(** What [add] leaves, started on the orchestrator [q] in the world [w];
    [tr] is what it sent. *)
Definition add_post {Payload : Type} `{JSON Payload} (q : Queue.t Payload) (w : World)
    (queueName groupName : string) (data : Payload) (options : IAddJobOptions)
    (r : outcome (option Redis.Reply)) (st' : Queue.t Payload * World) : Prop :=
  let s := redis w in
  let s' := redis (snd st') in
  fst st' = q /\
  exists tr,
    trace (snd st') = trace w ++ tr /\
    match r with
    | Throw _ => fst (next_fault w) = true /\ s' = s /\ tr = []
    | Hang => False
    | Ok None =>
        fst (next_fault w) = false /\ borrowed (snd st') = borrowed w /\
        ((s' = s /\
          (tr = [] \/ exists sha text, tr = [enqueue_cmd sha queueName groupName text options]) /\
          (RedisManager.getScriptSha (Queue.redisManager q) "enqueue" = None \/
           JSON_stringify data = None \/
           ~ reliable w \/
           exists sha,
             RedisManager.getScriptSha (Queue.redisManager q) "enqueue" = Some sha /\
             Redis.scripts s !! sha <> Some Redis.EnqueueLua)) \/
         (Queue.publisherClient q = true /\ ~ reliable w /\
          exists sha text,
            JSON_stringify data = Some text /\
            s' = stored_by_add queueName groupName text options s /\
            tr = [enqueue_cmd sha queueName groupName text options;
                  newjob_cmd queueName groupName]))
    | Ok (Some reply) =>
        fst (next_fault w) = false /\ borrowed (snd st') = borrowed w /\
        exists sha text,
          JSON_stringify data = Some text /\
          reply = Redis.RInt (Redis.next_id s) /\
          if Queue.publisherClient q
          then s' = Redis.publish Queue.newjob_channel (queueName, groupName)
                      (stored_by_add queueName groupName text options s) /\
               tr = [enqueue_cmd sha queueName groupName text options;
                     newjob_cmd queueName groupName]
          else s' = stored_by_add queueName groupName text options s /\
               tr = [enqueue_cmd sha queueName groupName text options]
    end.

(** The store holds the job [i] with the serialised payload [text] and the
    group name [g], and has handed out the identity [i]. *)
Definition holds (i : N) (text g : string) (s : Redis.Store) : Prop :=
  (exists deadline, content <$> Redis.jobs s !! i = Some (text, g, deadline)) /\
  (i < Redis.next_id s)%N.

(** ** The life of an orchestrator *)

(** The calls the application and the runtime make on an orchestrator. *)
Inductive Call (Payload : Type) : Type :=
| CallInit
| CallAdd (queueName groupName : string) (data : Payload) (options : IAddJobOptions)
| CallProcess (queueName : string) (callback : IJobData Payload -> Completion)
| CallTick
| CallMessage (chan : string) (message : string * string).
Arguments CallInit {Payload}.
Arguments CallAdd {Payload} queueName groupName data options.
Arguments CallProcess {Payload} queueName callback.
Arguments CallTick {Payload}.
Arguments CallMessage {Payload} chan message.

Definition perform {Payload : Type} `{JSON Payload} (c : Call Payload)
    : M (Queue.t Payload * World) unit :=
  match c with
  | CallInit => Queue.init
  | CallAdd queueName groupName data options =>
      let* _ := Queue.add queueName groupName data options in ret tt
  | CallProcess queueName callback => Queue.process queueName callback
  | CallTick => Queue.tick
  | CallMessage chan message => Queue.on_message chan message
  end.

(** The states of an orchestrator constructed in a role: the new one, and
    the one any call leaves, in whatever world the call finds. *)
Inductive constructed {Payload : Type} `{JSON Payload} (role : Role) : Queue.t Payload -> Prop :=
| constructed_new (limits : gmap string nat) :
  constructed role (Queue.new role limits)
| constructed_call (q : Queue.t Payload) (w : World) (c : Call Payload) :
  constructed role q -> constructed role (fst (snd (perform c (q, w)))).

(** What the constructor fixes for good. *)
Definition wiring {Payload : Type} (q : Queue.t Payload) : Role * bool * bool :=
  (Queue.type q, Queue.subscriberClient q, Queue.publisherClient q).


(** A computation that leaves the wiring of the orchestrator alone. *)
Definition keeps_wiring {Payload A : Type} (m : M (Queue.t Payload * World) A) : Prop :=
  forall st, wiring (fst (snd (m st))) = wiring (fst st).

(** ** Loading the scripts *)

(** The configured scripts [init] sends to the server: those whose source
    can be read and is not empty, in the configured order. *)
Definition loadable (dir : gmap string Redis.Lua) (names : list string)
    : list (string * Redis.Lua) :=
  omap (fun name =>
          match dir !! (name ++ ".lua")%string with
          | Some src => if Redis.nonempty src then Some (name, src) else None
          | None => None
          end) names.

Definition load_cmd (entry : string * Redis.Lua) : Redis.Cmd := Redis.SCRIPT_LOAD (snd entry).

(** None of the next [n] round trips fails. *)
Definition clear_ahead (n : nat) (w : World) : Prop :=
  Forall (fun broken => broken = false) (take n (faults w)).

(** The manager has the handle and the text of [src] under [name], and the
    server has the text under the handle. *)
Definition registered (m : RedisManager.t) (s : Redis.Store) (name : string)
    (src : Redis.Lua) : Prop :=
  RedisManager.getScriptSha m name = Some (Redis.sha1 src) /\
  RedisManager.scriptContents m !! name = Some src /\
  Redis.scripts s !! Redis.sha1 src = Some src.

(** What of the server no script load changes. *)
Definition holdings (s : Redis.Store)
    : gmap string (gset string) * gmap string (list Redis.ZEntry) * gmap N Redis.JobRec
      * N * Z * list (string * (string * string)) :=
  (Redis.sets s, Redis.zsets s, Redis.jobs s, Redis.next_id s, Redis.now s, Redis.channel s).

(** ** The consumer during a sweep *)

(** The jobs a pass over the groups [done] hands to the callback: those
    among the replies of the script whose payload parses. *)
Definition handed {Payload : Type} `{JSON Payload} (sha key : string) (done : list string)
    (s : Redis.Store) : list (IJobData Payload) :=
  omap job_of (swept_replies sha key done s).

(** The consumer is pending on a job its callback never signals for. *)
Definition stuck {Payload : Type} (c : Consumer.t Payload) : Prop :=
  Consumer.status c = Consumer.RUNNING /\
  exists job,
    Consumer.inflight c = [job] /\ Consumer.callback c job = Silent /\
    last (Consumer.handled c) = Some job.

(** What a pass over [groups] leaves when it starts on the sleeping
    consumer [c]: the groups [done] were visited, all of them when the pass
    came to its end, and the callback was invoked on every job these visits
    produced. The consumer sleeps again unless the pass is pending on its
    callback. *)
Definition sleeping_post {Payload : Type} `{JSON Payload} (sha key queueName : string)
    (groups : list string) (c : Consumer.t Payload) (w : World)
    (r : outcome unit) (st' : Queue.t Payload * World) : Prop :=
  exists (done : list string) (c' : Consumer.t Payload),
    done `prefix_of` groups /\
    (r = Ok tt -> done = groups) /\
    redis (snd st') = swept_store sha key done (redis w) /\
    borrowed (snd st') = borrowed w /\
    Queue.consumers (fst st') !! queueName = Some c' /\
    kin c c' /\
    Consumer.handled c' = Consumer.handled c ++ handed sha key done (redis w) /\
    match r with
    | Hang => stuck c'
    | _ => Consumer.status c' = Consumer.SLEEPING
    end /\
    (reliable w -> reliable (snd st')) /\
    (reliable w -> dequeue_bound sha (redis w) -> forall e, r <> Throw e).

(** The consumer registered for [queueName], if any, is busy. *)
Definition unavailable {Payload : Type} (queueName : string) (q : Queue.t Payload) : Prop :=
  match Queue.consumers q !! queueName with
  | Some c => Consumer.status c = Consumer.RUNNING
  | None => True
  end.

(** How [processQueueTasks] ends: rejected when no connection could be
    acquired, and nothing has happened then; resolved with the connection
    given back; or pending, with the connection still borrowed. *)
Definition settles_balanced {Payload : Type} (q : Queue.t Payload) (w : World)
    (r : outcome unit) (st' : Queue.t Payload * World) : Prop :=
  match r with
  | Throw e =>
      fst (next_fault w) = true /\ e = "pool is draining and cannot accept work" /\
      st' = (q, after_refusal w)
  | Ok _ => fst (next_fault w) = false /\ borrowed (snd st') = borrowed w
  | Hang => fst (next_fault w) = false /\ borrowed (snd st') = S (borrowed w)
  end.

(** What [processQueueTasks] leaves, by the state of the consumer it
    starts on. *)
Definition flow_post {Payload : Type} `{JSON Payload} (queueName : string)
    (q : Queue.t Payload) (w : World) (r : outcome unit) (st' : Queue.t Payload * World)
    : Prop :=
  let key := Queue.groups_key queueName in
  let groups := Redis.smembers key (redis w) in
  let handle := RedisManager.getScriptSha (Queue.redisManager q) "dequeue" in
  let sha := default "" handle in
  settles_balanced q w r st' /\
  (unavailable queueName q -> fst st' = q /\ r <> Hang) /\
  (forall c,
     Queue.consumers q !! queueName = Some c ->
     Consumer.status c = Consumer.SLEEPING ->
     exists (done : list string) (c' : Consumer.t Payload),
       done `prefix_of` groups /\
       (handle = None -> done = []) /\
       redis (snd st') = swept_store sha key done (redis w) /\
       Queue.consumers (fst st') !! queueName = Some c' /\
       kin c c' /\
       Consumer.handled c' = Consumer.handled c ++ handed sha key done (redis w) /\
       match r with
       | Hang => stuck c'
       | _ => Consumer.status c' = Consumer.SLEEPING
       end /\
       (reliable w -> is_Some handle -> dequeue_bound sha (redis w) -> r = Ok tt ->
        done = groups)).

(** ** What the calls leave alone *)

(** A computation that leaves the part [f] of the state as it is. *)
Definition stays {S A X : Type} (f : S -> X) (m : M S A) : Prop :=
  forall s, f (snd (m s)) = f s.

(** The script handles of an orchestrator and the script files it reads. *)
Definition settings {Payload : Type} (st : Queue.t Payload * World)
    : RedisManager.t * gmap string Redis.Lua :=
  (Queue.redisManager (fst st), files (snd st)).

(** The commands that read or prune a queue: those of a sweep. *)
Definition reads_queue (c : Redis.Cmd) : Prop :=
  match c with
  | Redis.SMEMBERS _ | Redis.ZCARD _ | Redis.SREM _ _ | Redis.EVALSHA _ [_] _ => True
  | _ => False
  end.

(** The same orchestrator constructed with other [consumerLimits]. *)
Definition with_limits {Payload : Type} (limits : gmap string nat) (q : Queue.t Payload)
    : Queue.t Payload :=
  Queue.mk (Queue.type q) (Queue.subscriberClient q) (Queue.publisherClient q)
    (Queue.redisManager q) limits (Queue.consumers q) (Queue.activeProcessingInterval q).

Definition limited {Payload : Type} (limits : gmap string nat)
    (st : Queue.t Payload * World) : Queue.t Payload * World :=
  (with_limits limits (fst st), snd st).

(** A computation that goes the same way whatever the limits are. *)
Definition ignores_limits {Payload A : Type} (m : M (Queue.t Payload * World) A) : Prop :=
  forall limits st, m (limited limits st) = (fst (m st), limited limits (snd (m st))).

(** ** The round trips ahead *)

(** The fate of the [n]-th round trip from now, counted from 0: [true]
    when it fails. For [add] the acquire is trip 0, the script trip 1 and
    the notification trip 2. *)
Definition fault_at (n : nat) (w : World) : bool := nth n (faults w) false.

(** ** The pool's ceiling *)

(** [max: 10] of the pool's options: with ten connections out, a further
    [acquire] waits for one to come back. *)
Definition pool_max : nat := 10.

(** The pool of the world [w] can lend [n] more connections without
    waiting. *)
Definition has_room (n : nat) (w : World) : Prop := borrowed w + n <= pool_max.

(** * Properties *)

(** ** The consumer *)

Section ConsumerFacts.
Context {Payload : Type}.
Implicit Types (c : Consumer.t Payload) (job : IJobData Payload).

Lemma dispatch_running c job :
  Consumer.status c = Consumer.RUNNING ->
  Consumer.dispatch c job = (Throw (Consumer.already_running (Consumer.queueName c)), c).
Proof. intros Hrun. unfold Consumer.dispatch. now rewrite Hrun. Qed.


Lemma consistent_new name (cb : IJobData Payload -> Completion) :
  consistent (Consumer.new name cb).
Proof. reflexivity. Qed.

Lemma consistent_step c e : consistent c -> consistent (Consumer.step c e).
Proof.
  unfold consistent. destruct e as [job|signal]; simpl.
  - unfold Consumer.dispatch.
    destruct (Consumer.status c) eqn:Hs; simpl; rewrite ?Hs; eauto.
  - unfold Consumer.settle.
    destruct (Consumer.inflight c) as [|j l] eqn:Hin; simpl; [now rewrite Hin|].
    destruct signal; simpl; trivial. now rewrite Hin.
Qed.

Lemma consistent_run events : forall c, consistent c -> consistent (Consumer.run c events).
Proof.
  induction events as [|e events IH]; intros c Hc; [exact Hc|].
  apply IH, consistent_step, Hc.
Qed.

Lemma queueName_step c e : Consumer.queueName (Consumer.step c e) = Consumer.queueName c.
Proof.
  destruct e as [job|signal]; simpl.
  - unfold Consumer.dispatch. now destruct (Consumer.status c).
  - unfold Consumer.settle. destruct (Consumer.inflight c); [reflexivity|].
    now destruct signal.
Qed.

Lemma queueName_run events : forall c,
  Consumer.queueName (Consumer.run c events) = Consumer.queueName c.
Proof.
  induction events as [|e events IH]; intros c; [reflexivity|].
  simpl. rewrite IH. apply queueName_step.
Qed.

(** C4: a consumer that is RUNNING refuses a second job at once, with the
    "already running" error and without invoking the callback or keeping the
    job; so whatever dispatches and completion signals arrive, at most one
    job is in flight. *)
Theorem running_consumer_refuses_dispatch :
  forall (name : string) (cb : IJobData Payload -> Completion)
         (events : list (Consumer.Event Payload)) (second : IJobData Payload),
    let c := Consumer.run (Consumer.new name cb) events in
    length (Consumer.inflight c) <= 1 /\
    (Consumer.status c = Consumer.RUNNING ->
     Consumer.process c second = (Throw (Consumer.already_running name), c) /\
     Consumer.handled (snd (Consumer.process c second)) = Consumer.handled c /\
     Consumer.inflight (snd (Consumer.process c second)) = Consumer.inflight c).
Proof.
  intros name cb events second c.
  assert (Hc : consistent c) by apply consistent_run, consistent_new.
  split.
  - unfold consistent in Hc. destruct (Consumer.status c).
    + rewrite Hc. simpl. lia.
    + destruct Hc as [job ->]. simpl. lia.
  - intros Hrun.
    assert (Hp : Consumer.process c second = (Throw (Consumer.already_running name), c)).
    { unfold Consumer.process. rewrite (dispatch_running _ _ Hrun).
      unfold c at 1. now rewrite queueName_run. }
    rewrite Hp. auto.
Qed.

(** C5: a job dispatched to a SLEEPING consumer puts the consumer into
    RUNNING with that job in flight and the callback invoked on it; when the
    callback signals completion, by [done()], by [done(err)] or by throwing,
    the call ends as the consumer's settling of that signal does: the
    consumer is SLEEPING again with nothing in flight, having handled exactly
    this one job more, and the error, if any, is re-raised to the caller.
    The same holds of the consumer seen as a machine: RUNNING after the
    dispatch, SLEEPING after the signal. *)
Theorem consumer_sleeps_after_process :
  forall (c : Consumer.t Payload) (job : IJobData Payload),
    Consumer.status c = Consumer.SLEEPING ->
    Consumer.callback c job <> Silent ->
    let running := snd (Consumer.dispatch c job) in
    (fst (Consumer.dispatch c job) = Ok tt /\
     Consumer.status running = Consumer.RUNNING /\
     Consumer.inflight running = [job] /\
     Consumer.handled running = Consumer.handled c ++ [job] /\
     Consumer.run c [Consumer.Dispatch job] = running) /\
    (Consumer.process c job = Consumer.settle running (Consumer.callback c job) /\
     snd (Consumer.process c job) =
       Consumer.run c [Consumer.Dispatch job; Consumer.Signal (Consumer.callback c job)] /\
     snd (Consumer.process c job) =
       Consumer.mk Consumer.SLEEPING (Consumer.queueName c) (Consumer.callback c) []
         (Consumer.handled c ++ [job])) /\
    Consumer.status (snd (Consumer.process c job)) = Consumer.SLEEPING /\
    Consumer.inflight (snd (Consumer.process c job)) = [] /\
    fst (Consumer.process c job) =
      match Consumer.callback c job with
      | Done => Ok tt
      | Failed e => Throw e
      | Raised e => Throw e
      | Silent => Hang
      end.
Proof.
  intros [st name cb infl hd] job Hs Hcb. cbn in Hs, Hcb. subst st. cbv zeta.
  unfold Consumer.run, Consumer.step, Consumer.process, Consumer.dispatch, Consumer.settle.
  cbn. destruct (cb job); try (now destruct Hcb); cbn; split_and!; reflexivity.
Qed.

End ConsumerFacts.

(** A consumer busy with job 1 refuses job 2. *)
Lemma running_consumer_refuses_dispatch_witness :
  let c := Consumer.run (Consumer.new "Q" (fun _ : IJobData nat => Done))
             [Consumer.Dispatch (mkJob 1%N 10 "G")] in
  Consumer.status c = Consumer.RUNNING /\
  Consumer.process c (mkJob 2%N 20 "G") = (Throw (Consumer.already_running "Q"), c).
Proof.
  split; [reflexivity|].
  apply (running_consumer_refuses_dispatch "Q" (fun _ => Done)
           [Consumer.Dispatch (mkJob 1%N 10 "G")] (mkJob 2%N 20 "G")).
  reflexivity.
Defined.

(** A failing callback: the consumer runs on the job, then sleeps with the
    job handled and the error re-raised. *)
Lemma consumer_sleeps_after_process_witness :
  let c := Consumer.new "Q" (fun _ : IJobData nat => Failed "boom") in
  let job := mkJob 1%N 10 "G" in
  Consumer.status (snd (Consumer.dispatch c job)) = Consumer.RUNNING /\
  Consumer.process c job =
    (Throw "boom", Consumer.mk Consumer.SLEEPING "Q" (fun _ => Failed "boom") [] [job]).
Proof.
  intros c job.
  destruct (consumer_sleeps_after_process c job eq_refl ltac:(discriminate))
    as ((_ & Hrun & _) & (_ & _ & Hend) & _ & _ & Hres).
  split; [exact Hrun|].
  rewrite (surjective_pairing (Consumer.process c job)), Hres, Hend. reflexivity.
Defined.

(** ** Computations *)






Section WpRules.
Context {S : Type}.

Lemma wp_ret {A : Type} (a : A) (Q : outcome A -> S -> Prop) (s : S) :
  Q (Ok a) s -> wp (ret a) Q s.
Proof. intros HQ. exact HQ. Qed.

Lemma wp_throw {A : Type} (e : string) (Q : outcome A -> S -> Prop) (s : S) :
  Q (Throw e) s -> wp (throw e) Q s.
Proof. intros HQ. exact HQ. Qed.

Lemma wp_mono {A : Type} (m : M S A) (Q Q' : outcome A -> S -> Prop) (s : S) :
  wp m Q s -> (forall r s', Q r s' -> Q' r s') -> wp m Q' s.
Proof. unfold wp. auto. Qed.

Lemma wp_bind {A B : Type} (m : M S A) (k : A -> M S B) (Q : outcome B -> S -> Prop) (s : S) :
  wp m (fun r s' =>
          match r with
          | Ok a => wp (k a) Q s'
          | Throw e => Q (Throw e) s'
          | Hang => Q Hang s'
          end) s ->
  wp (bind m k) Q s.
Proof. unfold wp, bind. now destruct (m s) as [[a|e|] s']. Qed.

Lemma wp_try_catch {A : Type} (m : M S A) (handler : string -> M S A)
    (Q : outcome A -> S -> Prop) (s : S) :
  wp m (fun r s' =>
          match r with
          | Throw e => wp (handler e) Q s'
          | settled => Q settled s'
          end) s ->
  wp (try_catch m handler) Q s.
Proof. unfold wp, try_catch. now destruct (m s) as [[a|e|] s']. Qed.

Lemma wp_finally {A : Type} (m : M S A) (cleanup : M S unit)
    (Q : outcome A -> S -> Prop) (s : S) :
  wp m (fun r s' =>
          match r with
          | Hang => Q Hang s'
          | settled =>
              wp cleanup (fun r2 s'' =>
                            match r2 with
                            | Ok _ => Q settled s''
                            | Throw e => Q (Throw e) s''
                            | Hang => Q Hang s''
                            end) s'
          end) s ->
  wp (finally m cleanup) Q s.
Proof.
  unfold wp, finally. destruct (m s) as [[a|e|] s']; cbn [fst snd]; trivial.
  - now destruct (cleanup s') as [[[]|e2|] s''].
  - now destruct (cleanup s') as [[[]|e2|] s''].
Qed.

Lemma wp_gets {A : Type} (f : S -> A) (Q : outcome A -> S -> Prop) (s : S) :
  Q (Ok (f s)) s -> wp (gets f) Q s.
Proof. intros HQ. exact HQ. Qed.

Lemma wp_modify (f : S -> S) (Q : outcome unit -> S -> Prop) (s : S) :
  Q (Ok tt) (f s) -> wp (modify f) Q s.
Proof. intros HQ. exact HQ. Qed.

End WpRules.

Lemma wp_in_world {S A : Type} (m : M World A) (Q : outcome A -> S * World -> Prop)
    (x : S) (w : World) :
  wp m (fun r w' => Q r (x, w')) w -> wp (in_world m) Q (x, w).
Proof. unfold wp, in_world. cbn [fst snd]. now destruct (m w). Qed.


Lemma wp_roundtrip {A : Type} (cmd : Redis.Cmd) (exec : Redis.Store -> outcome A * Redis.Store)
    (Q : outcome A -> World -> Prop) (w : World) :
  (fst (next_fault w) = true ->
   Q (Throw "Connection is closed.") (after_roundtrip w cmd (redis w))) ->
  (fst (next_fault w) = false ->
   Q (fst (exec (redis w))) (after_roundtrip w cmd (snd (exec (redis w))))) ->
  wp (roundtrip cmd exec) Q w.
Proof.
  unfold wp, roundtrip, after_roundtrip. destruct (next_fault w) as [[|] later]; cbn [fst snd].
  - auto.
  - destruct (exec (redis w)). auto.
Qed.



Lemma wp_acquire (Q : outcome unit -> World -> Prop) (w : World) :
  (fst (next_fault w) = true ->
   Q (Throw "pool is draining and cannot accept work") (after_refusal w)) ->
  (fst (next_fault w) = false -> Q (Ok tt) (after_acquire w)) ->
  wp Pool.acquire Q w.
Proof.
  unfold wp, Pool.acquire, after_acquire, after_refusal.
  destruct (next_fault w) as [[|] later]; cbn [fst snd]; auto.
Qed.


Lemma wp_release (Q : outcome unit -> World -> Prop) (w : World) :
  (borrowed w = 0 -> Q (Throw "Resource not currently part of this pool") w) ->
  (borrowed w <> 0 -> Q (Ok tt) (after_release w)) ->
  wp Pool.release Q w.
Proof.
  unfold wp, Pool.release, after_release. destruct (borrowed w); cbn [fst snd pred]; auto.
Qed.

Lemma reliable_no_fault (w : World) : reliable w -> fst (next_fault w) = true -> False.
Proof. unfold reliable, next_fault. now intros ->. Qed.

Lemma reliable_after_roundtrip (w : World) (cmd : Redis.Cmd) (s : Redis.Store) : reliable w -> reliable (after_roundtrip w cmd s).
Proof. unfold reliable, after_roundtrip, next_fault. now intros ->. Qed.

Lemma reliable_after_acquire (w : World) : reliable w -> reliable (after_acquire w).
Proof. unfold reliable, after_acquire, next_fault. now intros ->. Qed.

Lemma reliable_after_release (w : World) : reliable w -> reliable (after_release w).
Proof. exact (fun Hw => Hw). Qed.

(** ** Initialisation *)





Section InitFacts.
Context {Payload : Type} `{JSON Payload}.


End InitFacts.



(** ** The manager seen from the queue *)

Section ManagerFacts.
Context {Payload : Type}.
Implicit Types (q : Queue.t Payload) (w : World).

Lemma set_manager_same q : Queue.set_manager q (Queue.redisManager q) = q.
Proof. now destruct q. Qed.

Lemma wp_getClient (Q : outcome unit -> Queue.t Payload * World -> Prop) q w :
  (fst (next_fault w) = true ->
   Q (Throw "pool is draining and cannot accept work") (q, after_refusal w)) ->
  (fst (next_fault w) = false -> Q (Ok tt) (q, after_acquire w)) ->
  wp (Queue.in_manager RedisManager.getClient) Q (q, w).
Proof.
  intros Hbad Hgood. unfold wp, Queue.in_manager, RedisManager.getClient.
  unfold try_catch, in_world, throw, Pool.acquire. cbn [fst snd].
  unfold after_refusal, after_acquire in *.
  destruct (next_fault w) as [[|] later]; cbn [fst snd] in *;
    rewrite set_manager_same; auto.
Qed.

Lemma wp_releaseClient (Q : outcome unit -> Queue.t Payload * World -> Prop) q w :
  (borrowed w = 0 -> Q (Ok tt) (q, w)) ->
  (borrowed w <> 0 -> Q (Ok tt) (q, after_release w)) ->
  wp (Queue.in_manager RedisManager.releaseClient) Q (q, w).
Proof.
  intros Hnone Hsome. unfold wp, Queue.in_manager, RedisManager.releaseClient.
  unfold try_catch, in_world, ret, Pool.release, after_release in *. cbn [fst snd].
  destruct (borrowed w); cbn [fst snd pred] in *; rewrite set_manager_same; auto.
Qed.

End ManagerFacts.

Ltac wp_rule :=
  lazymatch goal with
  | |- wp (bind _ _) _ _ => apply wp_bind
  | |- wp (try_catch _ _) _ _ => apply wp_try_catch
  | |- wp (finally _ _) _ _ => apply wp_finally
  | |- wp (gets _) _ _ => apply wp_gets
  | |- wp (modify _) _ _ => apply wp_modify
  | |- wp (ret _) _ _ => apply wp_ret
  | |- wp (throw _) _ _ => apply wp_throw
  | |- wp (in_world _) _ _ => apply wp_in_world
  end;
  cbv beta iota.

(** ** Admission *)

Lemma evalsha_settles (sha : string) (keys : list string) (args : list Redis.Arg)
    (s : Redis.Store) :
  fst (Redis.evalsha sha keys args s) <> Hang.
Proof.
  unfold Redis.evalsha.
  repeat (match goal with
          | |- context [match ?x with _ => _ end] => destruct x
          end; cbn [fst]; try discriminate).
Qed.

(** A script run with two keys and five arguments is the [enqueue] script
    or fails without touching the store. *)
Lemma evalsha_enqueue_shape (sha k1 k2 p g : string) (a b c : Z) (s : Redis.Store) :
  let call :=
    Redis.evalsha sha [k1; k2]
      [Redis.AStr p; Redis.AStr g; Redis.ANum a; Redis.ANum b; Redis.ANum c] s in
  (Redis.scripts s !! sha <> Some Redis.EnqueueLua /\ exists e, call = (Throw e, s)) \/
  (Redis.scripts s !! sha = Some Redis.EnqueueLua /\
   call = (Ok (Redis.RInt (Redis.next_id s)), snd (Redis.enqueue k1 k2 p g a b c s))).
Proof.
  unfold Redis.evalsha. destruct (Redis.scripts s !! sha) as [[| | | |text]|]; eauto;
    left; (split; [discriminate | eauto]).
Qed.

Section AddFacts.
Context {Payload : Type} `{JSON Payload}.

Lemma wp_add (q : Queue.t Payload) (w : World) (queueName groupName : string)
    (data : Payload) (options : IAddJobOptions) :
  wp (Queue.add queueName groupName data options)
     (add_post q w queueName groupName data options) (q, w).
Proof.
  unfold Queue.add. wp_rule.
  apply wp_getClient; intros Hacq.
  { split; [reflexivity|]. exists []. cbn. split; [now rewrite app_nil_r | auto]. }
  assert (Hrel : forall r w1,
             borrowed w1 = S (borrowed w) ->
             add_post q w queueName groupName data options r (q, after_release w1) ->
             wp (Queue.in_manager RedisManager.releaseClient)
               (fun r2 s'' =>
                  match r2 with
                  | Ok _ => add_post q w queueName groupName data options r s''
                  | Throw e => add_post q w queueName groupName data options (Throw e) s''
                  | Hang => add_post q w queueName groupName data options Hang s''
                  end) (q, w1)).
  { intros r w1 Hb HQ. apply wp_releaseClient; [lia | intros _; exact HQ]. }
  assert (Hunchanged : forall tr,
             tr = [] \/ (exists sha text, tr = [enqueue_cmd sha queueName groupName text options]) ->
             (RedisManager.getScriptSha (Queue.redisManager q) "enqueue" = None \/
              JSON_stringify data = None \/
              ~ reliable w \/
              exists sha,
                RedisManager.getScriptSha (Queue.redisManager q) "enqueue" = Some sha /\
                Redis.scripts (redis w) !! sha <> Some Redis.EnqueueLua) ->
             forall w1, borrowed w1 = S (borrowed w) -> redis w1 = redis w ->
             trace w1 = trace w ++ tr ->
             add_post q w queueName groupName data options (Ok None) (q, after_release w1)).
  { intros tr Htr Hwhy w1 Hb Hs Ht. split; [reflexivity|]. exists tr.
    cbn [fst snd after_release trace redis borrowed]. rewrite Hb.
    split; [exact Ht|]. split_and!; auto. }
  assert (Hfault : forall w1, fst (next_fault w1) = true ->
             (reliable w -> reliable w1) -> ~ reliable w).
  { intros w1 Hf Hrel1 Hw. exact (reliable_no_fault w1 (Hrel1 Hw) Hf). }
  wp_rule. wp_rule. wp_rule. wp_rule. cbn [fst snd].
  destruct (RedisManager.getScriptSha (Queue.redisManager q) "enqueue") as [sha|] eqn:Hh.
  2:{ wp_rule. apply Hrel; [reflexivity|].
      apply (Hunchanged []); auto. cbn. now rewrite app_nil_r. }
  destruct (JSON_stringify data) as [text|] eqn:Htext.
  2:{ wp_rule. wp_rule. apply Hrel; [reflexivity|].
      apply (Hunchanged []); auto. cbn. now rewrite app_nil_r. }
  wp_rule. wp_rule. unfold Client.evalsha.
  fold (enqueue_cmd sha queueName groupName text options).
  apply wp_roundtrip; intros Hf1;
    change (redis (after_acquire w)) with (redis w).
  { wp_rule. apply Hrel; [reflexivity|].
    apply (Hunchanged [enqueue_cmd sha queueName groupName text options]); eauto.
    right. right. left. apply (Hfault _ Hf1). apply reliable_after_acquire. }
  destruct (evalsha_enqueue_shape sha (Queue.groups_key queueName)
              (Queue.group_key queueName groupName) text groupName
              (default 0%Z (priority options)) (default 0%Z (delay options))
              (default 0%Z (ttl options)) (redis w)) as [[Hno [e He]]|[_ He]];
    cbv zeta in He; rewrite He; cbn [fst snd]; cbv beta iota.
  { wp_rule. apply Hrel; [reflexivity|].
    apply (Hunchanged [enqueue_cmd sha queueName groupName text options]); eauto 10. }
  fold (stored_by_add queueName groupName text options (redis w)).
  wp_rule. wp_rule. cbn [fst snd]. wp_rule.
  destruct (Queue.publisherClient q) eqn:Hpub.
  - wp_rule. unfold Client.publish. fold (newjob_cmd queueName groupName).
    apply wp_roundtrip; intros Hf2; cbn [fst snd]; cbv beta iota.
    + wp_rule. apply Hrel; [reflexivity|]. split; [reflexivity|].
      exists [enqueue_cmd sha queueName groupName text options;
              newjob_cmd queueName groupName].
      cbn [fst snd after_release after_roundtrip after_acquire trace redis borrowed pred].
      split; [now rewrite <- app_assoc|]. split_and!; auto. right. rewrite Hpub.
      split; [reflexivity|]. split; [|eauto 10].
      apply (Hfault _ Hf2). intros Hw.
      now apply reliable_after_roundtrip, reliable_after_acquire.
    + wp_rule. apply Hrel; [reflexivity|]. split; [reflexivity|].
      exists [enqueue_cmd sha queueName groupName text options;
              newjob_cmd queueName groupName].
      cbn [fst snd after_release after_roundtrip after_acquire trace redis borrowed pred
           Queue.as_job_id].
      split; [now rewrite <- app_assoc|]. rewrite Hpub. split_and!; auto. eauto 10.
  - wp_rule. wp_rule. apply Hrel; [reflexivity|]. split; [reflexivity|].
    exists [enqueue_cmd sha queueName groupName text options].
    cbn [fst snd after_release after_roundtrip after_acquire trace redis borrowed pred
         Queue.as_job_id].
    split; [reflexivity|]. rewrite Hpub. split_and!; auto. eauto 10.
Qed.

Lemma fault_at_now (w : World) : fault_at 0 w = fst (next_fault w).
Proof. unfold fault_at, next_fault. now destruct (faults w). Qed.

Lemma fault_at_later (n : nat) (w w' : World) :
  faults w' = snd (next_fault w) -> fault_at n w' = fault_at (S n) w.
Proof.
  unfold fault_at, next_fault. intros ->. destruct (faults w); cbn; [|reflexivity].
  now destruct n.
Qed.

(** [add] case by case, once the connection is acquired. *)
Lemma add_by_case (q : Queue.t Payload) (w : World) (queueName groupName : string)
    (data : Payload) (options : IAddJobOptions) :
  fst (next_fault w) = false ->
  let result := Queue.add queueName groupName data options (q, w) in
  let s := redis w in
  let s' := redis (snd (snd result)) in
  let handle := RedisManager.getScriptSha (Queue.redisManager q) "enqueue" in
  (handle = None -> fst result = Ok None /\ s' = s) /\
  (JSON_stringify data = None -> fst result = Ok None /\ s' = s) /\
  (forall sha text,
     handle = Some sha -> JSON_stringify data = Some text ->
     fault_at 1 w = true \/ Redis.scripts s !! sha <> Some Redis.EnqueueLua ->
     fst result = Ok None /\ s' = s) /\
  (forall sha text,
     handle = Some sha -> JSON_stringify data = Some text ->
     fault_at 1 w = false -> Redis.scripts s !! sha = Some Redis.EnqueueLua ->
     if Queue.publisherClient q
     then if fault_at 2 w
          then fst result = Ok None /\
               s' = stored_by_add queueName groupName text options s
          else fst result = Ok (Some (Redis.RInt (Redis.next_id s))) /\
               s' = Redis.publish Queue.newjob_channel (queueName, groupName)
                      (stored_by_add queueName groupName text options s)
     else fst result = Ok (Some (Redis.RInt (Redis.next_id s))) /\
          s' = stored_by_add queueName groupName text options s).
Proof.
  intros Hacq0. cbv zeta.
  set (handle := RedisManager.getScriptSha (Queue.redisManager q) "enqueue").
  change (wp (Queue.add queueName groupName data options)
            (fun r st' =>
               (handle = None -> r = Ok None /\ redis (snd st') = redis w) /\
               (JSON_stringify data = None -> r = Ok None /\ redis (snd st') = redis w) /\
               (forall sha text,
                  handle = Some sha -> JSON_stringify data = Some text ->
                  fault_at 1 w = true \/ Redis.scripts (redis w) !! sha <> Some Redis.EnqueueLua ->
                  r = Ok None /\ redis (snd st') = redis w) /\
               (forall sha text,
                  handle = Some sha -> JSON_stringify data = Some text ->
                  fault_at 1 w = false ->
                  Redis.scripts (redis w) !! sha = Some Redis.EnqueueLua ->
                  if Queue.publisherClient q
                  then if fault_at 2 w
                       then r = Ok None /\
                            redis (snd st') =
                              stored_by_add queueName groupName text options (redis w)
                       else r = Ok (Some (Redis.RInt (Redis.next_id (redis w)))) /\
                            redis (snd st') =
                              Redis.publish Queue.newjob_channel (queueName, groupName)
                                (stored_by_add queueName groupName text options (redis w))
                  else r = Ok (Some (Redis.RInt (Redis.next_id (redis w)))) /\
                       redis (snd st') =
                         stored_by_add queueName groupName text options (redis w)))
            (q, w)).
  unfold Queue.add. wp_rule.
  apply wp_getClient; intros Hacq; [congruence|].
  assert (H1 : fault_at 1 w = fst (next_fault (after_acquire w))).
  { rewrite <- fault_at_now. symmetry. now apply fault_at_later. }
  wp_rule. wp_rule. wp_rule. wp_rule. cbn [fst snd]. fold handle.
  destruct handle as [sha|] eqn:Hh.
  2:{ wp_rule. apply wp_releaseClient; [discriminate | intros _].
      cbn. split_and!; auto; intros; discriminate. }
  destruct (JSON_stringify data) as [text|] eqn:Htext.
  2:{ wp_rule. wp_rule. apply wp_releaseClient; [discriminate | intros _].
      cbn. split_and!; auto; intros; discriminate. }
  wp_rule. wp_rule. unfold Client.evalsha.
  fold (enqueue_cmd sha queueName groupName text options).
  apply wp_roundtrip; intros Hf1;
    change (redis (after_acquire w)) with (redis w).
  { wp_rule. apply wp_releaseClient; [discriminate | intros _].
    cbn. split_and!; auto; try (intros; discriminate).
    intros sha' text' _ _ Hok. congruence. }
  set (w2 := after_roundtrip (after_acquire w) _ _).
  assert (H2 : fault_at 2 w = fst (next_fault w2)).
  { rewrite <- fault_at_now. symmetry.
    rewrite (fault_at_later 0 (after_acquire w) w2 eq_refl).
    now apply fault_at_later. }
  destruct (evalsha_enqueue_shape sha (Queue.groups_key queueName)
              (Queue.group_key queueName groupName) text groupName
              (default 0%Z (priority options)) (default 0%Z (delay options))
              (default 0%Z (ttl options)) (redis w)) as [[Hno [e He]]|[Hyes He]];
    cbv zeta in He; subst w2; rewrite He in *; cbn [fst snd] in *; cbv beta iota.
  { wp_rule. apply wp_releaseClient; [discriminate | intros _].
    cbn. split_and!; auto; try (intros; discriminate).
    intros sha' text' [= <-] _ _ Hbound. now destruct Hno. }
  fold (stored_by_add queueName groupName text options (redis w)) in *.
  wp_rule. wp_rule. cbn [fst snd]. wp_rule.
  destruct (Queue.publisherClient q) eqn:Hpub.
  - wp_rule. unfold Client.publish. fold (newjob_cmd queueName groupName).
    apply wp_roundtrip; intros Hf2; cbn [fst snd]; cbv beta iota.
    + wp_rule. apply wp_releaseClient; [discriminate | intros _].
      cbn. split_and!; try (intros; discriminate).
      * intros sha' text' [= <-] [= <-] [Hbad|Hbad]; [congruence | now destruct Hbad].
      * intros sha' text' [= <-] [= <-] _ _. rewrite H2, Hf2. auto.
    + wp_rule. apply wp_releaseClient; [discriminate | intros _].
      cbn. split_and!; try (intros; discriminate).
      * intros sha' text' [= <-] [= <-] [Hbad|Hbad]; [congruence | now destruct Hbad].
      * intros sha' text' [= <-] [= <-] _ _. rewrite H2, Hf2. auto.
  - wp_rule. wp_rule. apply wp_releaseClient; [discriminate | intros _].
    cbn. split_and!; try (intros; discriminate).
    + intros sha' text' [= <-] [= <-] [Hbad|Hbad]; [congruence | now destruct Hbad].
    + intros sha' text' [= <-] [= <-] _ _. auto.
Qed.

(** C2, as the code has it: once the pooled connection is acquired, [add]
    does not raise and gives the connection back. When the enqueue handle
    is absent, the payload cannot be serialised or the script invocation
    fails (its round trip fails, or the server does not run the [enqueue]
    script under the handle), it returns none and the store is unchanged.
    When the script has run, a publisher whose notification cannot be
    published returns none as well, and the job is then already stored;
    otherwise [add] returns the identity of the stored job. Conversely,
    when it returns an identity the job is stored under it, and when it
    returns none the store is unchanged or, on a publisher, holds the job. *)
Theorem add_returns_none_or_stores :
  forall (q : Queue.t Payload) (w : World) (queueName groupName : string)
         (data : Payload) (options : IAddJobOptions),
    fst (next_fault w) = false ->
    let result := Queue.add queueName groupName data options (q, w) in
    let s := redis w in
    let s' := redis (snd (snd result)) in
    let handle := RedisManager.getScriptSha (Queue.redisManager q) "enqueue" in
    borrowed (snd (snd result)) = borrowed w /\
    (handle = None -> fst result = Ok None /\ s' = s) /\
    (JSON_stringify data = None -> fst result = Ok None /\ s' = s) /\
    (forall sha text,
       handle = Some sha -> JSON_stringify data = Some text ->
       fault_at 1 w = true \/ Redis.scripts s !! sha <> Some Redis.EnqueueLua ->
       fst result = Ok None /\ s' = s) /\
    (forall sha text,
       handle = Some sha -> JSON_stringify data = Some text ->
       fault_at 1 w = false -> Redis.scripts s !! sha = Some Redis.EnqueueLua ->
       if Queue.publisherClient q
       then if fault_at 2 w
            then fst result = Ok None /\
                 s' = stored_by_add queueName groupName text options s
            else fst result = Ok (Some (Redis.RInt (Redis.next_id s))) /\
                 s' = Redis.publish Queue.newjob_channel (queueName, groupName)
                        (stored_by_add queueName groupName text options s)
       else fst result = Ok (Some (Redis.RInt (Redis.next_id s))) /\
            s' = stored_by_add queueName groupName text options s) /\
    match fst result with
    | Ok (Some reply) =>
        exists text,
          JSON_stringify data = Some text /\
          reply = Redis.RInt (Redis.next_id (redis w)) /\
          s' = (if Queue.publisherClient q
                then Redis.publish Queue.newjob_channel (queueName, groupName)
                       (stored_by_add queueName groupName text options (redis w))
                else stored_by_add queueName groupName text options (redis w))
    | Ok None =>
        s' = redis w \/
        (Queue.publisherClient q = true /\
         exists text,
           JSON_stringify data = Some text /\
           s' = stored_by_add queueName groupName text options (redis w))
    | Throw _ => False
    | Hang => False
    end.
Proof.
  intros q w queueName groupName data options Hacq. cbv zeta.
  pose proof (add_by_case q w queueName groupName data options Hacq) as Hcases.
  cbv zeta in Hcases. destruct Hcases as (Hnone & Hjson & Hfail & Hrun).
  pose proof (wp_add q w queueName groupName data options) as Hpost.
  unfold wp, add_post in Hpost. cbv zeta in Hpost.
  destruct Hpost as (_ & tr & _ & Hcase).
  assert (Hb : borrowed (snd (snd (Queue.add queueName groupName data options (q, w))))
               = borrowed w).
  { destruct (fst (Queue.add queueName groupName data options (q, w))) as [[reply|]|e|].
    - now destruct Hcase as (_ & Hb & _).
    - now destruct Hcase as (_ & Hb & _).
    - destruct Hcase as (Hbad & _). congruence.
    - destruct Hcase. }
  split; [exact Hb|]. split; [exact Hnone|]. split; [exact Hjson|].
  split; [exact Hfail|]. split; [exact Hrun|].
  destruct (fst (Queue.add queueName groupName data options (q, w))) as [[reply|]|e|].
  - destruct Hcase as (_ & _ & sha & text & Htext & Hreply & Hs).
    exists text. split_and!; auto.
    destruct (Queue.publisherClient q); now destruct Hs.
  - destruct Hcase as (_ & _ & [[Hs _] | (Hpub & _ & sha & text & Htext & Hs & _)]); eauto.
  - destruct Hcase as (Hbad & _). congruence.
  - destruct Hcase.
Qed.

End AddFacts.

(** C2, refuted as stated: when the pooled connection cannot be acquired
    [add] raises; and when the script has run and the notification cannot be
    published, [add] returns none although the job is in the store. *)
Lemma add_raises_or_returns_none_after_storing :
  let q := Examples.publisher_q in
  let w := Examples.publisher_w in
  let refused := Queue.add "Q" "G" 7 Examples.no_options (q, Examples.with_faults w [true]) in
  let unannounced :=
    Queue.add "Q" "G" 7 Examples.no_options
      (q, Examples.with_faults w [false; false; true]) in
  fst refused = Throw "pool is draining and cannot accept work" /\
  fst unannounced = Ok None /\
  Redis.jobs (redis (snd (snd unannounced))) !! 0%N
    = Some (Redis.mkJobRec "7" "G" None queued) /\
  Redis.smembers "qtask:Q:groups" (redis (snd (snd unannounced))) = ["qtask:Q:group:G"] /\
  Redis.zcard "qtask:Q:group:G" (redis (snd (snd unannounced))) = 1 /\
  Redis.zcard "qtask:Q:group:G" (redis w) = 0.
Proof. vm_compute. auto 10. Qed.

Lemma add_returns_none_or_stores_witness :
  let q := Examples.publisher_q in
  let w := Examples.publisher_w in
  let result := Queue.add "Q" "G" 7 Examples.no_options (q, w) in
  fst result = Ok (Some (Redis.RInt 0)) /\
  borrowed (snd (snd result)) = borrowed w.
Proof.
  intros q w result.
  assert (Hacq : fst (next_fault w) = false) by (vm_compute; reflexivity).
  split; [vm_compute; reflexivity|].
  exact (proj1 (add_returns_none_or_stores q w "Q" "G" 7 Examples.no_options Hacq)).
Defined.

(** ** The scripts on the store *)

(** A script run with one key and no argument is the [dequeue] script or
    fails without touching the store. *)
Lemma evalsha_dequeue_shape (sha g : string) (s : Redis.Store) :
  (exists e, Redis.evalsha sha [g] [] s = (Throw e, s)) \/
  (dequeue_bound sha s /\
   Redis.evalsha sha [g] [] s = (Ok (fst (Redis.dequeue g s)), snd (Redis.dequeue g s))).
Proof.
  unfold Redis.evalsha, dequeue_bound.
  destruct (Redis.scripts s !! sha) as [[| | | |text]|]; eauto.
  right. split; [reflexivity|]. now destruct (Redis.dequeue g s).
Qed.

Lemma evalsha_dequeue_bound (sha g : string) (s : Redis.Store) :
  dequeue_bound sha s ->
  Redis.evalsha sha [g] [] s = (Ok (fst (Redis.dequeue g s)), snd (Redis.dequeue g s)).
Proof.
  unfold dequeue_bound, Redis.evalsha. intros ->. now destruct (Redis.dequeue g s).
Qed.

Lemma dequeue_scripts (g : string) (s : Redis.Store) :
  Redis.scripts (snd (Redis.dequeue g s)) = Redis.scripts s.
Proof.
  unfold Redis.dequeue. destruct (Redis.zrange s g) as [|e rest]; [reflexivity|].
  destruct (Redis.now s <? Redis.notBefore e)%Z; [reflexivity|].
  destruct (Redis.jobs s !! Redis.member e) as [j|]; [|reflexivity].
  now destruct (Redis.expired j (Redis.now s)).
Qed.


Lemma visit_store_scripts (sha key g : string) (s : Redis.Store) :
  Redis.scripts (visit_store sha key g s) = Redis.scripts s.
Proof.
  unfold visit_store. destruct (Redis.zcard g s); [reflexivity|].
  destruct (evalsha_dequeue_shape sha g s) as [[e ->]|[_ ->]]; [reflexivity|].
  apply dequeue_scripts.
Qed.

Lemma visit_store_bound (sha key g : string) (s : Redis.Store) :
  dequeue_bound sha s -> dequeue_bound sha (visit_store sha key g s).
Proof. unfold dequeue_bound. now rewrite visit_store_scripts. Qed.

(** ** Handing a job to the consumer *)

Section SweepFacts.
Context {Payload : Type} `{JSON Payload}.
Implicit Types (q : Queue.t Payload) (w : World) (c : Consumer.t Payload).

Lemma kin_refl c : kin c c.
Proof. now split. Qed.

Lemma kin_trans c1 c2 c3 : kin c1 c2 -> kin c2 c3 -> kin c1 c3.
Proof. unfold kin. intros [? ?] [? ?]. split; congruence. Qed.

Lemma same_instance_refl name q : same_instance name q q.
Proof.
  split_and!; [now destruct q | reflexivity |].
  destruct (Queue.consumers q !! name); constructor. apply kin_refl.
Qed.

Lemma same_instance_trans name q1 q2 q3 :
  same_instance name q1 q2 -> same_instance name q2 q3 -> same_instance name q1 q3.
Proof.
  intros (E1 & O1 & K1) (E2 & O2 & K2). split_and!.
  - rewrite E2, E1. reflexivity.
  - intros k Hk. now rewrite O2, O1.
  - destruct K1; inversion K2; subst; constructor. eapply kin_trans; eassumption.
Qed.

Lemma process_kin_handled c (job : IJobData Payload) :
  kin c (snd (Consumer.process c job)) /\
  (fst (Consumer.process c job) <> Hang \/
   Consumer.callback c job = Silent) /\
  exists l,
    Consumer.handled (snd (Consumer.process c job)) = Consumer.handled c ++ l /\
    (l = [] \/ l = [job]).
Proof.
  unfold Consumer.process, Consumer.dispatch.
  destruct (Consumer.status c); cbn [fst snd].
  - unfold Consumer.settle. cbn [Consumer.inflight].
    destruct (Consumer.callback c job); cbn [fst snd Consumer.handled];
      (split_and!; [now split | auto; left; discriminate | eauto]).
  - split_and!; [apply kin_refl | left; discriminate |].
    exists []. rewrite app_nil_r. auto.
Qed.

Lemma wp_deliver (name : string) (jobId : N) (text g : string)
    (Q : outcome unit -> Queue.t Payload * World -> Prop) q w :
  (forall r q' l,
     r = Ok tt \/ r = Hang ->
     same_instance name q q' ->
     handled_at name q' = handled_at name q ++ l ->
     l `sublist_of` option_list (job_of (jobId, text, g)) ->
     Q r (q', w)) ->
  wp (Queue.deliver name jobId text g) Q (q, w).
Proof.
  intros HQ. unfold Queue.deliver. wp_rule.
  assert (Hskip : Q (Ok tt) (q, w)).
  { apply (HQ (Ok tt) q []); auto using same_instance_refl, sublist_nil_l.
    now rewrite app_nil_r. }
  unfold job_of in HQ. cbn [fst snd] in HQ.
  destruct (JSON_parse text) as [jobData|]; [|wp_rule; wp_rule; exact Hskip].
  unfold wp, Queue.consumer_process. cbn [fst snd].
  destruct (Queue.consumers q !! name) as [c|] eqn:Hc; cbn [fst snd]; [|exact Hskip].
  destruct (process_kin_handled c (mkJob jobId jobData g)) as (Hkin & _ & l & Hl & Hcase).
  destruct (Consumer.process c (mkJob jobId jobData g)) as [r c'] eqn:Hrun.
  cbn [fst snd] in *.
  set (q' := Queue.set_consumers q (<[name := c']> (Queue.consumers q))).
  assert (Hsame : same_instance name q q').
  { split_and!.
    - now destruct q.
    - intros k Hk. subst q'. destruct q. cbn. now rewrite lookup_insert_ne.
    - subst q'. destruct q. cbn in *. rewrite Hc, lookup_insert_eq. now constructor. }
  assert (Hh : handled_at name q' = handled_at name q ++ l).
  { unfold handled_at. subst q'. destruct q. cbn in *. now rewrite Hc, lookup_insert_eq. }
  assert (Hsub : l `sublist_of` option_list (Some (mkJob jobId jobData g))).
  { destruct Hcase as [->| ->]; [apply sublist_nil_l | reflexivity]. }
  destruct r as [[]|e|]; cbv beta iota.
  - apply (HQ _ q' l); auto.
  - apply (HQ (Ok tt) q' l); auto.
  - apply (HQ _ q' l); auto.
Qed.

Lemma sweep_cmd_zcard sha key g : sweep_cmd sha key (Redis.ZCARD g).
Proof. right. exists g. auto. Qed.

Lemma sweep_cmd_srem sha key g : sweep_cmd sha key (Redis.SREM key g).
Proof. right. exists g. auto. Qed.

Lemma sweep_cmd_evalsha sha key g : sweep_cmd sha key (Redis.EVALSHA sha [g] []).
Proof. right. exists g. auto. Qed.

Lemma visit_trace_cmds sha key g s : Forall (sweep_cmd sha key) (visit_trace sha key g s).
Proof.
  unfold visit_trace. destruct (Redis.zcard g s).
  - apply Forall_cons; split; [apply sweep_cmd_zcard|].
    apply Forall_cons; split; [apply sweep_cmd_srem | apply Forall_nil_2].
  - apply Forall_cons; split; [apply sweep_cmd_zcard|].
    apply Forall_cons; split; [apply sweep_cmd_evalsha | apply Forall_nil_2].
Qed.

(** A pass that stops before the store has seen anything of the group it
    is at. *)
Lemma sweep_post_abort sha key name groups q w (e : string) (w' : World) (tr : list Redis.Cmd) :
  redis w' = redis w -> files w' = files w -> borrowed w' = borrowed w ->
  trace w' = trace w ++ tr -> Forall (sweep_cmd sha key) tr ->
  (reliable w -> dequeue_bound sha (redis w) -> False) ->
  (reliable w -> reliable w') ->
  sweep_post sha key name groups q w (Throw e) (q, w').
Proof.
  intros Hs Hf Hb Ht Hc Hno Hrel. exists [], [].
  cbn [fst snd swept_store swept_replies omap].
  split_and!; eauto using prefix_nil, same_instance_refl, sublist_nil_l;
    try discriminate; try (now rewrite app_nil_r).
Qed.

(** A pass over [g :: rest] that got through [g] and went on with [rest]. *)
Lemma sweep_post_step sha key name g rest q w q1 w1 (l : list (IJobData Payload)) r st' :
  redis w1 = visit_store sha key g (redis w) ->
  files w1 = files w -> borrowed w1 = borrowed w ->
  trace w1 = trace w ++ visit_trace sha key g (redis w) ->
  (reliable w -> reliable w1) ->
  same_instance name q q1 ->
  handled_at name q1 = handled_at name q ++ l ->
  l `sublist_of` omap job_of (option_list (visit_reply sha g (redis w))) ->
  sweep_post sha key name rest q1 w1 r st' ->
  sweep_post sha key name (g :: rest) q w r st'.
Proof.
  intros Hs Hf Hb Ht Hrel Hsame Hh Hl
    (done & dl & Hpre & Hs' & Hf' & Hb' & (tr & Ht' & Hc') & Hsame' & Hh' & Hl' & Hrel' & Hok & Hno).
  exists (g :: done), (l ++ dl). cbn [swept_store swept_replies swept_trace].
  split_and!.
  - now apply prefix_cons.
  - now rewrite Hs', Hs.
  - congruence.
  - congruence.
  - exists (visit_trace sha key g (redis w) ++ tr). split.
    + now rewrite Ht', Ht, app_assoc.
    + apply Forall_app. split; [apply visit_trace_cmds | exact Hc'].
  - eapply same_instance_trans; eassumption.
  - now rewrite Hh', Hh, app_assoc.
  - rewrite omap_app. apply sublist_app; [exact Hl|]. now rewrite <- Hs.
  - auto.
  - intros Hr. destruct (Hok Hr) as [-> Htr]. split; [reflexivity|].
    now rewrite Htr, Ht, Hs, app_assoc.
  - intros Hw Hbound. apply Hno; [auto|]. rewrite Hs. now apply visit_store_bound.
Qed.

(** A pass that hangs on the job of [g]. *)
Lemma sweep_post_hang sha key name g rest q w q1 w1 (l : list (IJobData Payload)) :
  redis w1 = visit_store sha key g (redis w) ->
  files w1 = files w -> borrowed w1 = borrowed w ->
  trace w1 = trace w ++ visit_trace sha key g (redis w) ->
  (reliable w -> reliable w1) ->
  same_instance name q q1 ->
  handled_at name q1 = handled_at name q ++ l ->
  l `sublist_of` omap job_of (option_list (visit_reply sha g (redis w))) ->
  sweep_post sha key name (g :: rest) q w Hang (q1, w1).
Proof.
  intros Hs Hf Hb Ht Hrel Hsame Hh Hl.
  exists [g], l. cbn [fst snd swept_store swept_replies].
  split_and!; auto; try discriminate; try (now rewrite app_nil_r).
  - apply prefix_cons, prefix_nil.
  - exists (visit_trace sha key g (redis w)). split; [exact Ht | apply visit_trace_cmds].
Qed.

Lemma sweep_post_nil sha key name q w : sweep_post sha key name [] q w (Ok tt) (q, w).
Proof.
  exists [], []. cbn [fst snd swept_store swept_replies swept_trace omap].
  split_and!; auto using same_instance_refl, sublist_nil_l;
    try discriminate; try (now rewrite app_nil_r).
  exists []. split; [now rewrite app_nil_r | constructor].
Qed.

Lemma sweep_groups_post sha key name (groups : list string) :
  forall q w,
    wp (Queue.sweep_groups sha key name groups) (sweep_post sha key name groups q w) (q, w).
Proof.
  induction groups as [|g rest IH]; intros q w.
  { cbn [Queue.sweep_groups]. wp_rule. apply sweep_post_nil. }
  cbn [Queue.sweep_groups]. wp_rule. wp_rule. unfold Client.zcard.
  apply wp_roundtrip; intros Hf1; cbn [fst snd]; cbv beta iota.
  { apply sweep_post_abort with (tr := [Redis.ZCARD g]); auto.
    - apply Forall_cons; split; [apply sweep_cmd_zcard | apply Forall_nil_2].
    - intros Hw _. exact (reliable_no_fault w Hw Hf1).
    - apply reliable_after_roundtrip. }
  set (w1 := after_roundtrip w (Redis.ZCARD g) (redis w)).
  destruct (Redis.zcard g (redis w)) as [|n] eqn:Hcard.
  - wp_rule. wp_rule. unfold Client.srem.
    apply wp_roundtrip; intros Hf2; cbn [fst snd]; cbv beta iota.
    { apply sweep_post_abort with (tr := [Redis.ZCARD g; Redis.SREM key g]); auto.
      - cbn. now rewrite <- app_assoc.
      - apply Forall_cons; split; [apply sweep_cmd_zcard|].
        apply Forall_cons; split; [apply sweep_cmd_srem | apply Forall_nil_2].
      - intros Hw _.
        exact (reliable_no_fault w1 (reliable_after_roundtrip w _ _ Hw) Hf2).
      - intros Hw. now apply reliable_after_roundtrip, reliable_after_roundtrip. }
    eapply wp_mono; [apply IH|]. intros r st' Hpost.
    eapply (sweep_post_step sha key name g rest q w q _ []); [..|exact Hpost];
      auto using same_instance_refl, sublist_nil_l.
    + unfold visit_store. now rewrite Hcard.
    + unfold visit_trace. rewrite Hcard. cbn. now rewrite <- app_assoc.
    + intros Hw. now apply reliable_after_roundtrip, reliable_after_roundtrip.
    + now rewrite app_nil_r.
  - wp_rule. wp_rule. unfold Client.evalsha.
    apply wp_roundtrip; intros Hf2; cbn [fst snd]; cbv beta iota.
    { apply sweep_post_abort with (tr := [Redis.ZCARD g; Redis.EVALSHA sha [g] []]); auto.
      - cbn. now rewrite <- app_assoc.
      - apply Forall_cons; split; [apply sweep_cmd_zcard|].
        apply Forall_cons; split; [apply sweep_cmd_evalsha | apply Forall_nil_2].
      - intros Hw _.
        exact (reliable_no_fault w1 (reliable_after_roundtrip w _ _ Hw) Hf2).
      - intros Hw. now apply reliable_after_roundtrip, reliable_after_roundtrip. }
    change (redis w1) with (redis w).
    set (w2 := after_roundtrip w1 _ _).
    assert (Hs2 : redis w2 = visit_store sha key g (redis w)).
    { unfold visit_store. now rewrite Hcard. }
    assert (Ht2 : trace w2 = trace w ++ visit_trace sha key g (redis w)).
    { unfold visit_trace. rewrite Hcard. cbn. now rewrite <- app_assoc. }
    assert (Hr2 : reliable w -> reliable w2).
    { intros Hw. now apply reliable_after_roundtrip, reliable_after_roundtrip. }
    assert (Hf2' : files w2 = files w) by reflexivity.
    assert (Hb2 : borrowed w2 = borrowed w) by reflexivity.
    assert (Hreply : visit_reply sha g (redis w) =
                     match fst (Redis.evalsha sha [g] [] (redis w)) with
                     | Ok result => Queue.as_triple result
                     | _ => None
                     end).
    { unfold visit_reply. now rewrite Hcard. }
    clearbody w2.
    destruct (Redis.evalsha sha [g] [] (redis w)) as [[result|e|] s2] eqn:Hrun;
      cbn [fst snd] in *.
    + destruct (Queue.as_triple result) as [[[jobId text] gname]|] eqn:Htriple.
      * wp_rule. apply wp_deliver. intros r q' l Hr Hsame Hh Hl.
        assert (Hl' : l `sublist_of` omap job_of (option_list (visit_reply sha g (redis w)))).
        { rewrite Hreply. simpl. destruct (job_of (jobId, text, gname)); exact Hl. }
        destruct Hr as [-> | ->].
        -- eapply wp_mono; [apply IH|]. intros r st' Hpost.
           eapply (sweep_post_step sha key name g rest q w q' w2 l); [..|exact Hpost]; auto.
        -- apply (sweep_post_hang sha key name g rest q w q' w2 l); auto.
      * eapply wp_mono; [apply IH|]. intros r st' Hpost.
        eapply (sweep_post_step sha key name g rest q w q w2 []); [..|exact Hpost];
          auto using same_instance_refl, sublist_nil_l.
        now rewrite app_nil_r.
    + apply sweep_post_abort with (tr := visit_trace sha key g (redis w)); auto.
      * rewrite Hs2. unfold visit_store. rewrite Hcard, Hrun. cbn [snd].
        destruct (evalsha_dequeue_shape sha g (redis w)) as [[e' He]|[_ He]];
          rewrite He in Hrun; inversion Hrun; reflexivity.
      * apply visit_trace_cmds.
      * intros _ Hbound. rewrite (evalsha_dequeue_bound sha g _ Hbound) in Hrun.
        discriminate.
    + destruct (evalsha_settles sha [g] [] (redis w)). now rewrite Hrun.
Qed.

Lemma sweep_cmd_smembers sha key : sweep_cmd sha key (Redis.SMEMBERS key).
Proof. now left. Qed.

(** The sweep did nothing to the store: the handle is missing, the first
    round trip failed or the index is empty. *)
Lemma process_post_idle name q w (w' : World) (tr : list Redis.Cmd) :
  let sha := default "" (RedisManager.getScriptSha (Queue.redisManager q) "dequeue") in
  redis w' = redis w -> files w' = files w -> borrowed w' = borrowed w ->
  trace w' = trace w ++ tr ->
  Forall (sweep_cmd sha (Queue.groups_key name)) tr ->
  (reliable w -> reliable w') ->
  (reliable w ->
   is_Some (RedisManager.getScriptSha (Queue.redisManager q) "dequeue") ->
   Redis.smembers (Queue.groups_key name) (redis w) = [] /\
   tr = [Redis.SMEMBERS (Queue.groups_key name)]) ->
  process_post name q w (Ok tt) (q, w').
Proof.
  intros sha Hs Hf Hb Ht Hc Hrel Hfull. exists [], [].
  cbn [fst snd swept_store swept_replies omap].
  split_and!.
  - reflexivity.
  - apply prefix_nil.
  - exact Hs.
  - exact Hf.
  - intros _. exact Hb.
  - exists tr. now split.
  - apply same_instance_refl.
  - now rewrite app_nil_r.
  - apply sublist_nil_l.
  - exact Hrel.
  - discriminate.
  - intros Hw Hh _ _. destruct (Hfull Hw Hh) as [-> ->]. now split.
Qed.

Lemma wp_processQueueTasks name q w :
  wp (Queue.processQueueTasks name) (process_post name q w) (q, w).
Proof.
  unfold Queue.processQueueTasks. wp_rule.
  apply wp_getClient; intros Hacq.
  { exists [], []. cbn [fst snd swept_store swept_replies omap].
    split_and!.
    - reflexivity.
    - apply prefix_nil.
    - reflexivity.
    - reflexivity.
    - discriminate.
    - exists []. split; [now rewrite app_nil_r | constructor].
    - apply same_instance_refl.
    - now rewrite app_nil_r.
    - apply sublist_nil_l.
    - unfold reliable, after_refusal, next_fault. now intros ->.
    - intros Hw. destruct (reliable_no_fault w Hw Hacq).
    - intros Hw. destruct (reliable_no_fault w Hw Hacq). }
  set (w1 := after_acquire w).
  assert (Hidle : forall w' tr,
             redis w' = redis w -> files w' = files w -> borrowed w' = S (borrowed w) ->
             trace w' = trace w ++ tr ->
             Forall (sweep_cmd
                       (default "" (RedisManager.getScriptSha (Queue.redisManager q) "dequeue"))
                       (Queue.groups_key name)) tr ->
             (reliable w -> reliable w') ->
             (reliable w ->
              is_Some (RedisManager.getScriptSha (Queue.redisManager q) "dequeue") ->
              Redis.smembers (Queue.groups_key name) (redis w) = [] /\
              tr = [Redis.SMEMBERS (Queue.groups_key name)]) ->
             wp (Queue.in_manager RedisManager.releaseClient)
               (fun r2 s'' =>
                  match r2 with
                  | Ok _ => process_post name q w (Ok tt) s''
                  | Throw e => process_post name q w (Throw e) s''
                  | Hang => process_post name q w Hang s''
                  end) (q, w')).
  { intros w' tr Hs Hf Hb Ht Hc Hrel Hfull.
    apply wp_releaseClient; [lia | intros _].
    apply (process_post_idle name q w _ tr); auto.
    cbn. now rewrite Hb. }
  wp_rule. wp_rule. wp_rule. wp_rule. cbn [fst snd].
  destruct (RedisManager.getScriptSha (Queue.redisManager q) "dequeue") as [sha|] eqn:Hh.
  2:{ wp_rule. apply (Hidle w1 []); try reflexivity.
      - cbn. now rewrite app_nil_r.
      - constructor.
      - apply reliable_after_acquire.
      - intros _ [x Hx]. discriminate. }
  cbn [default] in Hidle.
  wp_rule. wp_rule. unfold Client.smembers.
  apply wp_roundtrip; intros Hf1; cbn [fst snd]; cbv beta iota.
  { wp_rule.
    apply (Hidle _ [Redis.SMEMBERS (Queue.groups_key name)]); try reflexivity.
    - apply Forall_cons; split; [apply sweep_cmd_smembers | apply Forall_nil_2].
    - intros Hw. now apply reliable_after_roundtrip, reliable_after_acquire.
    - intros Hw _. destruct (reliable_no_fault w1 (reliable_after_acquire w Hw) Hf1). }
  change (redis w1) with (redis w).
  set (w2 := after_roundtrip w1 _ _).
  destruct (Redis.smembers (Queue.groups_key name) (redis w)) as [|g groups] eqn:Hgroups.
  { wp_rule.
    apply (Hidle w2 [Redis.SMEMBERS (Queue.groups_key name)]); try reflexivity.
    - apply Forall_cons; split; [apply sweep_cmd_smembers | apply Forall_nil_2].
    - intros Hw. now apply reliable_after_roundtrip, reliable_after_acquire.
    - intros _ _. now split. }
  assert (Hw2 : reliable w -> reliable w2).
  { intros Hw. now apply reliable_after_roundtrip, reliable_after_acquire. }
  eapply wp_mono; [apply sweep_groups_post|].
  intros r [q' w']
    (done & dl & Hpre & Hs' & Hf' & Hb' & (tr & Ht' & Hc') & Hsame' & Hh' & Hl' & Hrel' & Hok & Hno).
  cbn [fst snd] in *.
  assert (Hpost : forall r0 w'',
             redis w'' = redis w' -> files w'' = files w' -> trace w'' = trace w' ->
             (r0 = Ok tt -> borrowed w'' = borrowed w) ->
             (reliable w' -> reliable w'') ->
             (forall e, r0 <> Throw e) ->
             (r0 = Ok tt -> r <> Hang) ->
             process_post name q w r0 (q', w'')).
  { intros r0 w'' Hs Hf Ht Hb Hrel Hnothrow Hnohang.
    exists done, dl. cbn [fst snd]. rewrite Hh, Hgroups, Hs, Hf, Ht. cbn [default].
    split_and!.
    - discriminate.
    - exact Hpre.
    - exact Hs'.
    - exact Hf'.
    - exact Hb.
    - exists (Redis.SMEMBERS (Queue.groups_key name) :: tr). split.
      + rewrite Ht'. cbn. now rewrite <- app_assoc.
      + apply Forall_cons; split; [apply sweep_cmd_smembers | exact Hc'].
    - exact Hsame'.
    - exact Hh'.
    - exact Hl'.
    - intros Hw. auto.
    - intros _. exact Hnothrow.
    - intros Hw _ Hbound Hr.
      assert (Hrok : r = Ok tt).
      { destruct r as [[]|e|]; [reflexivity | | now destruct (Hnohang Hr)].
        now destruct (Hno (Hw2 Hw) Hbound e). }
      destruct (Hok Hrok) as [-> Htr]. split; [reflexivity|].
      rewrite Htr. cbn. now rewrite <- app_assoc. }
  assert (Hb2 : borrowed w' <> 0) by (rewrite Hb'; cbn; lia).
  destruct r as [[]|e|]; cbv beta iota.
  - apply wp_releaseClient; [intros; contradiction | intros _].
    apply Hpost; try reflexivity; try discriminate.
    + intros _. cbn. now rewrite Hb'.
    + apply reliable_after_release.
  - wp_rule. apply wp_releaseClient; [intros; contradiction | intros _].
    apply Hpost; try reflexivity; try discriminate.
    + intros _. cbn. now rewrite Hb'.
    + apply reliable_after_release.
  - apply Hpost; try reflexivity; try discriminate. auto.
Qed.

End SweepFacts.

(** ** One visit does not disturb another group *)



Lemma zrange_set_zsets_ne (g g' : string) (s : Redis.Store) (l : list Redis.ZEntry) :
  g <> g' ->
  Redis.zrange (Redis.set_zsets s (<[g' := l]> (Redis.zsets s))) g = Redis.zrange s g.
Proof.
  intros Hne. unfold Redis.zrange. cbn [Redis.zsets Redis.set_zsets].
  now rewrite lookup_insert_ne by congruence.
Qed.

Lemma zrange_set_zsets_eq (g : string) (s : Redis.Store) (l : list Redis.ZEntry) :
  Redis.zrange (Redis.set_zsets s (<[g := l]> (Redis.zsets s))) g = l.
Proof.
  unfold Redis.zrange. cbn [Redis.zsets Redis.set_zsets]. now rewrite lookup_insert_eq.
Qed.

Lemma zrange_set_jobs (g : string) (s : Redis.Store) (v : gmap N Redis.JobRec) :
  Redis.zrange (Redis.set_jobs s v) g = Redis.zrange s g.
Proof. reflexivity. Qed.

Lemma content_set_status (st : JobStatus) (j : Redis.JobRec) :
  content (Redis.set_status st j) = content j.
Proof. reflexivity. Qed.

(** What [dequeue] does to the store, seen from any group. *)
Lemma dequeue_effect (g : string) (s : Redis.Store) :
  let s' := snd (Redis.dequeue g s) in
  Redis.now s' = Redis.now s /\
  Redis.next_id s' = Redis.next_id s /\
  Redis.channel s' = Redis.channel s /\
  (forall i, content <$> Redis.jobs s' !! i = content <$> Redis.jobs s !! i) /\
  (forall g', g' <> g -> Redis.zrange s' g' = Redis.zrange s g') /\
  (Redis.zrange s' g = Redis.zrange s g \/
   exists e, Redis.zrange s g = e :: Redis.zrange s' g).
Proof.
  unfold Redis.dequeue. destruct (Redis.zrange s g) as [|e rest] eqn:Hz; cbn [snd].
  { split_and!; auto. }
  destruct (Redis.now s <? Redis.notBefore e)%Z; cbn [snd].
  { split_and!; auto. }
  assert (Hother : forall l g', g' <> g ->
             Redis.zrange (Redis.set_zsets s (<[g := l]> (Redis.zsets s))) g' = Redis.zrange s g').
  { intros l g' Hne. now apply zrange_set_zsets_ne. }
  destruct (Redis.jobs s !! Redis.member e) as [j|] eqn:Hj; cbn [snd].
  - assert (Hjobs : forall st i,
               content <$> (<[Redis.member e := Redis.set_status st j]> (Redis.jobs s)) !! i
               = content <$> Redis.jobs s !! i).
    { intros st i. destruct (decide (i = Redis.member e)) as [->|Hne].
      - now rewrite lookup_insert_eq, Hj.
      - now rewrite lookup_insert_ne by congruence. }
    destruct (Redis.expired j (Redis.now s)); cbn [snd];
      (split_and!; [reflexivity | reflexivity | reflexivity | apply Hjobs | apply Hother |]);
      right; exists e; f_equal; symmetry; rewrite zrange_set_jobs;
      apply (zrange_set_zsets_eq g s rest).
  - split_and!; [reflexivity | reflexivity | reflexivity | reflexivity | apply Hother |].
    right. exists e. f_equal. symmetry. apply (zrange_set_zsets_eq g s rest).
Qed.










(** ** Fairness and pruning of a sweep *)


Section FairnessFacts.
Context {Payload : Type} `{JSON Payload}.





End FairnessFacts.





(** ** The status of a job that was handed over *)

Lemma dequeue_reply_shape (g : string) (s : Redis.Store) (t : N * string * string) :
  Queue.as_triple (fst (Redis.dequeue g s)) = Some t ->
  exists e rest j,
    Redis.zrange s g = e :: rest /\
    Redis.jobs s !! Redis.member e = Some j /\
    t = (Redis.member e, Redis.payload j, Redis.group j) /\
    snd (Redis.dequeue g s) =
      Redis.set_jobs (Redis.set_zsets s (<[g := rest]> (Redis.zsets s)))
        (<[Redis.member e := Redis.set_status processing j]> (Redis.jobs s)).
Proof.
  unfold Redis.dequeue. destruct (Redis.zrange s g) as [|e rest]; [discriminate|].
  destruct (Redis.now s <? Redis.notBefore e)%Z; [discriminate|].
  destruct (Redis.jobs s !! Redis.member e) as [j|] eqn:Hj; [|discriminate].
  destruct (Redis.expired j (Redis.now s)); [discriminate|].
  cbn. intros [= <-]. exists e, rest, j. auto.
Qed.

(** The collections after [dequeue]: the one it ran on is the same or has
    lost its head, the others are the same. *)
Lemma dequeue_zrange (g : string) (s : Redis.Store) (k : string) (x : Redis.ZEntry) :
  x ∈ Redis.zrange (snd (Redis.dequeue g s)) k -> x ∈ Redis.zrange s k.
Proof.
  destruct (dequeue_effect g s) as (_ & _ & _ & _ & Hother & Hsame).
  destruct (decide (k = g)) as [->|Hne].
  - destruct Hsame as [-> | [e ->]]; [auto|]. apply list_elem_of_further.
  - now rewrite (Hother k Hne).
Qed.

Lemma dequeue_unique (g : string) (s : Redis.Store) :
  unique_members s -> unique_members (snd (Redis.dequeue g s)).
Proof.
  intros [Hnd Hx]. split.
  - intros k. destruct (dequeue_effect g s) as (_ & _ & _ & _ & Hother & Hsame).
    destruct (decide (k = g)) as [->|Hne].
    + destruct Hsame as [-> | [e He]]; [apply Hnd|].
      specialize (Hnd g). rewrite He in Hnd. cbn in Hnd. now apply NoDup_cons in Hnd.
    + rewrite (Hother k Hne). apply Hnd.
  - intros k1 k2 e1 e2 Hne H1 H2.
    apply (Hx k1 k2); [exact Hne | eapply dequeue_zrange, H1 | eapply dequeue_zrange, H2].
Qed.

Lemma dequeue_parked (g : string) (s : Redis.Store) (i : N) :
  parked s i ->
  parked (snd (Redis.dequeue g s)) i /\
  status_of (snd (Redis.dequeue g s)) i = status_of s i.
Proof.
  intros Hp. split.
  { intros k e He. apply (Hp k). now apply dequeue_zrange in He. }
  unfold status_of, Redis.dequeue.
  destruct (Redis.zrange s g) as [|e rest] eqn:Hz; [reflexivity|].
  destruct (Redis.now s <? Redis.notBefore e)%Z; [reflexivity|].
  assert (Hne : Redis.member e <> i).
  { apply (Hp g). rewrite Hz. apply list_elem_of_here. }
  destruct (Redis.jobs s !! Redis.member e) as [j|]; [|reflexivity].
  destruct (Redis.expired j (Redis.now s)); cbn; now rewrite lookup_insert_ne.
Qed.

Lemma dequeue_processing (g : string) (s : Redis.Store) (t : N * string * string) :
  unique_members s ->
  Queue.as_triple (fst (Redis.dequeue g s)) = Some t ->
  status_of (snd (Redis.dequeue g s)) (fst (fst t)) = Some processing /\
  parked (snd (Redis.dequeue g s)) (fst (fst t)).
Proof.
  intros [Hnd Hx] Ht.
  destruct (dequeue_reply_shape g s t Ht) as (e & rest & j & Hz & Hj & -> & ->).
  cbn [fst]. split.
  - unfold status_of. cbn. now rewrite lookup_insert_eq.
  - intros k x Hin. rewrite zrange_set_jobs in Hin.
    destruct (decide (k = g)) as [->|Hne].
    + rewrite zrange_set_zsets_eq in Hin. specialize (Hnd g). rewrite Hz in Hnd.
      cbn in Hnd. apply NoDup_cons in Hnd as [Hnotin _]. intros Heq. apply Hnotin.
      rewrite <- Heq. now apply list_elem_of_fmap_2.
    + rewrite zrange_set_zsets_ne in Hin by congruence.
      apply (Hx k g x e Hne Hin). rewrite Hz. apply list_elem_of_here.
Qed.

Lemma visit_store_unique (sha key g : string) (s : Redis.Store) :
  unique_members s -> unique_members (visit_store sha key g s).
Proof.
  intros Hu. unfold visit_store. destruct (Redis.zcard g s); [exact Hu|].
  destruct (evalsha_dequeue_shape sha g s) as [[e ->]|[_ ->]]; [exact Hu|].
  now apply dequeue_unique.
Qed.

Lemma visit_store_parked (sha key g : string) (s : Redis.Store) (i : N) :
  parked s i ->
  parked (visit_store sha key g s) i /\
  status_of (visit_store sha key g s) i = status_of s i.
Proof.
  intros Hp. unfold visit_store. destruct (Redis.zcard g s); [now split|].
  destruct (evalsha_dequeue_shape sha g s) as [[e ->]|[_ ->]]; [now split|].
  now apply dequeue_parked.
Qed.

Lemma visit_reply_processing (sha key g : string) (s : Redis.Store) (t : N * string * string) :
  unique_members s ->
  visit_reply sha g s = Some t ->
  status_of (visit_store sha key g s) (fst (fst t)) = Some processing /\
  parked (visit_store sha key g s) (fst (fst t)).
Proof.
  intros Hu. unfold visit_reply, visit_store. destruct (Redis.zcard g s); [discriminate|].
  destruct (evalsha_dequeue_shape sha g s) as [[e ->]|[_ ->]]; [discriminate|].
  cbn [fst snd]. now apply dequeue_processing.
Qed.

Lemma swept_unique (sha key : string) (groups : list string) :
  forall s, unique_members s -> unique_members (swept_store sha key groups s).
Proof.
  induction groups as [|g rest IH]; intros s Hu; [exact Hu|].
  cbn [swept_store]. now apply IH, visit_store_unique.
Qed.

Lemma swept_parked (sha key : string) (groups : list string) :
  forall s i,
    parked s i ->
    parked (swept_store sha key groups s) i /\
    status_of (swept_store sha key groups s) i = status_of s i.
Proof.
  induction groups as [|g rest IH]; intros s i Hp; [now split|].
  cbn [swept_store].
  destruct (visit_store_parked sha key g s i Hp) as [Hp1 Hs1].
  destruct (IH _ i Hp1) as [Hp2 Hs2]. split; [exact Hp2 | congruence].
Qed.

(** In a store where no job sits in two places, every job the script has
    returned during a pass is marked processing when the pass is over. *)
Lemma swept_processing (sha key : string) (groups : list string) :
  forall s t,
    unique_members s ->
    t ∈ swept_replies sha key groups s ->
    status_of (swept_store sha key groups s) (fst (fst t)) = Some processing.
Proof.
  induction groups as [|g rest IH]; intros s t Hu Hin.
  { now apply elem_of_nil in Hin. }
  cbn [swept_replies swept_store] in *. apply elem_of_app in Hin as [Hin|Hin].
  - destruct (visit_reply sha g s) as [t'|] eqn:Hr; cbn in Hin;
      [|now apply elem_of_nil in Hin].
    apply list_elem_of_singleton in Hin as ->.
    destruct (visit_reply_processing sha key g s t' Hu Hr) as [Hst Hp].
    destruct (swept_parked sha key rest _ _ Hp) as [_ Hkeep]. congruence.
  - apply IH; [now apply visit_store_unique | exact Hin].
Qed.

Lemma listing_unique (L : list (string * list Redis.ZEntry)) :
  NoDup (mjoin ((fun kv : string * list Redis.ZEntry => Redis.member <$> snd kv) <$> L)) ->
  (forall k l, (k, l) ∈ L -> NoDup (Redis.member <$> l)) /\
  (forall k1 l1 k2 l2 e1 e2,
     (k1, l1) ∈ L -> (k2, l2) ∈ L -> (k1, l1) <> (k2, l2) ->
     e1 ∈ l1 -> e2 ∈ l2 -> Redis.member e1 <> Redis.member e2).
Proof.
  induction L as [|[k0 l0] L IH]; intros Hnd.
  { split; intros; exfalso; eapply elem_of_nil; eassumption. }
  cbn in Hnd. apply NoDup_app in Hnd as (Hhead & Hdis & Htail).
  destruct (IH Htail) as [IH1 IH2].
  assert (Hin : forall k l e, (k, l) ∈ L -> e ∈ l ->
            Redis.member e
              ∈ mjoin ((fun kv : string * list Redis.ZEntry => Redis.member <$> snd kv) <$> L)).
  { intros k l e Hkl He. apply list_elem_of_join. exists (Redis.member <$> l). split.
    - now apply list_elem_of_fmap_2.
    - apply list_elem_of_fmap. exists (k, l). auto. }
  split.
  - intros k l Hkl. apply elem_of_cons in Hkl as [[= -> ->]|Hkl]; [exact Hhead|].
    now apply (IH1 k).
  - intros k1 l1 k2 l2 e1 e2 H1 H2 Hne He1 He2.
    apply elem_of_cons in H1 as [[= -> ->]|H1], H2 as [[= -> ->]|H2].
    + now destruct Hne.
    + intros Heq. apply (Hdis (Redis.member e1)).
      * now apply list_elem_of_fmap_2.
      * rewrite Heq. now apply (Hin k2 l2).
    + intros Heq. apply (Hdis (Redis.member e2)).
      * now apply list_elem_of_fmap_2.
      * rewrite <- Heq. now apply (Hin k1 l1).
    + now apply (IH2 k1 l1 k2 l2).
Qed.

(** A store whose members, listed, are pairwise distinct has no job in two
    places. *)
Lemma unique_by_listing (s : Redis.Store) : NoDup (all_members s) -> unique_members s.
Proof.
  intros Hnd. destruct (listing_unique _ Hnd) as [H1 H2].
  assert (Hz : forall k e, e ∈ Redis.zrange s k ->
            exists l, (k, l) ∈ map_to_list (Redis.zsets s) /\ Redis.zrange s k = l).
  { intros k e He. unfold Redis.zrange in *.
    destruct (Redis.zsets s !! k) as [l|] eqn:Hk; [|now apply elem_of_nil in He].
    exists l. split; [now apply elem_of_map_to_list | reflexivity]. }
  split.
  - intros k. destruct (Redis.zrange s k) as [|e l] eqn:Hk; [constructor|].
    destruct (Hz k e) as (l' & Hl' & Heq); [rewrite Hk; apply list_elem_of_here|].
    rewrite <- Hk, Heq. now apply (H1 k).
  - intros k1 k2 e1 e2 Hne He1 He2.
    destruct (Hz k1 e1 He1) as (l1 & Hl1 & Heq1), (Hz k2 e2 He2) as (l2 & Hl2 & Heq2).
    rewrite Heq1 in He1. rewrite Heq2 in He2.
    apply (H2 k1 l1 k2 l2); auto. congruence.
Qed.

(** *** The stores built from an empty server *)

Lemma zadd_elem (e x : Redis.ZEntry) (l : list Redis.ZEntry) :
  x ∈ Redis.zadd e l <-> x = e \/ x ∈ l.
Proof.
  induction l as [|y l IH]; cbn.
  - rewrite list_elem_of_singleton, elem_of_nil. tauto.
  - destruct (Redis.ranks_before e y).
    + now rewrite elem_of_cons.
    + rewrite !elem_of_cons, IH. tauto.
Qed.

Lemma zadd_members_nodup (e : Redis.ZEntry) (l : list Redis.ZEntry) :
  NoDup (Redis.member <$> l) ->
  (forall x, x ∈ l -> Redis.member x <> Redis.member e) ->
  NoDup (Redis.member <$> Redis.zadd e l).
Proof.
  induction l as [|y l IH]; intros Hnd Hfresh; cbn.
  - apply NoDup_singleton.
  - cbn in Hnd. apply NoDup_cons in Hnd as [Hy Hnd].
    assert (He : Redis.member e ∉ Redis.member <$> (y :: l)).
    { intros Hin. apply list_elem_of_fmap in Hin as (x & Heq & Hx).
      now apply (Hfresh x Hx). }
    destruct (Redis.ranks_before e y); cbn.
    + apply NoDup_cons. split; [exact He|]. apply NoDup_cons. now split.
    + apply NoDup_cons. split.
      * intros Hin. apply list_elem_of_fmap in Hin as (x & Heq & Hx).
        apply zadd_elem in Hx as [->|Hx].
        -- apply (Hfresh y); [apply list_elem_of_here | exact Heq].
        -- apply Hy. rewrite Heq. now apply list_elem_of_fmap_2.
      * apply IH; [exact Hnd|]. intros x Hx. apply Hfresh. now apply list_elem_of_further.
Qed.

Lemma enqueue_zrange (k1 k2 p g : string) (a b c : Z) (s : Redis.Store) (k : string)
    (x : Redis.ZEntry) :
  x ∈ Redis.zrange (snd (Redis.enqueue k1 k2 p g a b c s)) k ->
  (k = k2 /\ x = Redis.mkZEntry a (Redis.now s + b) (Redis.next_id s)) \/ x ∈ Redis.zrange s k.
Proof.
  unfold Redis.enqueue, Redis.zrange. cbn. destruct (decide (k = k2)) as [->|Hne].
  - rewrite lookup_insert_eq. cbn. intros Hx. apply zadd_elem in Hx as [->|Hx]; auto.
  - rewrite lookup_insert_ne by congruence. auto.
Qed.

Lemma enqueue_well_formed (k1 k2 p g : string) (a b c : Z) (s : Redis.Store) :
  unique_members s /\ members_issued s ->
  unique_members (snd (Redis.enqueue k1 k2 p g a b c s)) /\
  members_issued (snd (Redis.enqueue k1 k2 p g a b c s)).
Proof.
  intros [[Hnd Hx] Hiss].
  assert (Hfresh : forall k x, x ∈ Redis.zrange s k -> Redis.member x <> Redis.next_id s).
  { intros k x Hin. specialize (Hiss k x Hin). lia. }
  split; [split|].
  - intros k. unfold Redis.enqueue, Redis.zrange. cbn.
    destruct (decide (k = k2)) as [->|Hne].
    + rewrite lookup_insert_eq. cbn. apply zadd_members_nodup; [apply Hnd|].
      intros x Hin. cbn. now apply (Hfresh k2).
    + rewrite lookup_insert_ne by congruence. apply Hnd.
  - intros ka kb ea eb Hne Ha Hb.
    apply enqueue_zrange in Ha as [[-> ->]|Ha], Hb as [[-> ->]|Hb].
    + now destruct Hne.
    + cbn. intros Heq. now apply (Hfresh kb eb).
    + cbn. now apply (Hfresh ka).
    + now apply (Hx ka kb).
  - intros k x Hin. apply enqueue_zrange in Hin as [[-> ->]|Hin]; cbn; [lia|].
    specialize (Hiss k x Hin). lia.
Qed.

Lemma evalsha_well_formed (sha : string) (keys : list string) (args : list Redis.Arg)
    (s : Redis.Store) :
  unique_members s /\ members_issued s ->
  unique_members (snd (Redis.evalsha sha keys args s)) /\
  members_issued (snd (Redis.evalsha sha keys args s)).
Proof.
  intros Hwf. unfold Redis.evalsha.
  destruct (Redis.scripts s !! sha) as [[| | | |other]|]; try exact Hwf.
  - destruct keys as [|k1 [|k2 [|]]]; try exact Hwf.
    destruct args as [|[p|] [|[gn|] [|[|a] [|[|b] [|[|c] [|]]]]]]; try exact Hwf.
    pose proof (enqueue_well_formed k1 k2 p gn a b c s Hwf) as Hres.
    now destruct (Redis.enqueue k1 k2 p gn a b c s).
  - destruct keys as [|k [|]]; try exact Hwf.
    pose proof (dequeue_unique k s (proj1 Hwf)) as Hu.
    destruct (dequeue_effect k s) as (_ & Hid & _).
    assert (Hiss : members_issued (snd (Redis.dequeue k s))).
    { intros k' x Hin. rewrite Hid. apply (proj2 Hwf k'). now apply dequeue_zrange in Hin. }
    now destruct (Redis.dequeue k s).
  - destruct args as [|[|j] [|]]; try exact Hwf.
    unfold Redis.get_status. now destruct (Redis.jobs s !! Z.to_N j).
  - destruct args as [|[|j] [|[name|] [|]]]; try exact Hwf.
    destruct (Redis.status_named name) as [st|]; [|exact Hwf].
    unfold Redis.update_status. now destruct (Redis.jobs s !! Z.to_N j).
Qed.

Lemma well_formed_step (s s' : Redis.Store) :
  store_step s s' ->
  unique_members s /\ members_issued s -> unique_members s' /\ members_issued s'.
Proof. intros Hstep Hwf. destruct Hstep; try exact Hwf. now apply evalsha_well_formed. Qed.

(** Whatever commands an empty server has seen, no job sits in two places. *)
Lemma evolved_unique (s : Redis.Store) : evolves Redis.empty s -> unique_members s.
Proof.
  assert (Hgen : forall s0, evolves s0 s ->
            unique_members s0 /\ members_issued s0 -> unique_members s /\ members_issued s).
  { unfold evolves. induction 1 as [|s1 s2 s3 Hstep _ IH]; [auto|].
    intros Hwf. apply IH. eapply well_formed_step; eassumption. }
  intros Hev. apply (Hgen Redis.empty Hev). split; [split|].
  - intros k. constructor.
  - intros k1 k2 e1 e2 _ Hin. now apply elem_of_nil in Hin.
  - intros k e Hin. now apply elem_of_nil in Hin.
Qed.

Section StatusFacts.
Context {Payload : Type} `{JSON Payload}.

(** C3: what the code does with a completion report, where its
    documentation says that [done()] marks the job completed and
    [done(error)] marks it failed. In a store where no job sits in two
    places, every job a sweep hands to the consumer is marked processing by
    the [dequeue] script, and it is still marked processing when the sweep
    is over, whether the callback reported success or failure: the report
    reaches no further than the consumer, [update_status] is loaded and
    never invoked, and the only commands a sweep sends are [SMEMBERS],
    [ZCARD], [SREM] and the script registered as [dequeue]. *)
Theorem delivered_jobs_stay_processing :
  forall (q : Queue.t Payload) (w : World) (name : string),
    unique_members (redis w) ->
    let st' := snd (Queue.processQueueTasks name (q, w)) in
    let sha := default "" (RedisManager.getScriptSha (Queue.redisManager q) "dequeue") in
    (exists delivered,
       handled_at name (fst st') = handled_at name q ++ delivered /\
       forall job, job ∈ delivered ->
         status_of (redis (snd st')) (id job) = Some processing) /\
    (exists tr,
       trace (snd st') = trace w ++ tr /\
       Forall (sweep_cmd sha (Queue.groups_key name)) tr).
Proof.
  intros q w name Hu. cbv zeta.
  pose proof (wp_processQueueTasks name q w) as Hpost.
  unfold wp, process_post in Hpost. cbv zeta in Hpost.
  destruct Hpost as (done & dl & _ & _ & Hs & _ & _ & Htr & _ & Hhd & Hsub & _).
  split; [|exact Htr].
  exists dl. split; [exact Hhd|].
  intros job Hjob. apply (sublist_subseteq _ _ Hsub) in Hjob.
  apply list_elem_of_omap in Hjob as (t & Ht & Hjob).
  rewrite Hs. unfold job_of in Hjob.
  destruct (JSON_parse (snd (fst t))); [|discriminate].
  injection Hjob as <-. cbn [id].
  now apply swept_processing.
Qed.

End StatusFacts.

(** The failing run of C3: the consumer of the example reports success for
    the job 0 and is asleep again, and the job is still marked processing,
    not completed; with a consumer that reports failure the job is marked
    processing as well, not failed. *)
Lemma reported_jobs_are_still_processing :
  let w := Examples.two_groups_w in
  let succeeded := snd (Queue.processQueueTasks "Q" (Examples.two_groups_q, w)) in
  let broke := snd (Queue.processQueueTasks "Q" (Examples.two_groups_failing_q, w)) in
  (fun c => Consumer.callback c (mkJob 0%N 10 "G1"))
     <$> Queue.consumers (fst succeeded) !! "Q" = Some Done /\
  Consumer.status <$> Queue.consumers (fst succeeded) !! "Q" = Some Consumer.SLEEPING /\
  handled_at "Q" (fst succeeded) = [mkJob 0%N 10 "G1"; mkJob 10%N 99 "G2"] /\
  status_of (redis (snd succeeded)) 0 = Some processing /\
  status_of (redis (snd succeeded)) 0 <> Some completed /\
  handled_at "Q" (fst broke) = [mkJob 0%N 10 "G1"; mkJob 10%N 99 "G2"] /\
  status_of (redis (snd broke)) 0 = Some processing /\
  status_of (redis (snd broke)) 0 <> Some failed.
Proof. vm_compute. split_and!; try reflexivity; discriminate. Qed.

Lemma delivered_jobs_stay_processing_witness :
  let q := Examples.two_groups_q in
  let w := Examples.two_groups_w in
  let st' := snd (Queue.processQueueTasks "Q" (q, w)) in
  mkJob 0%N 10 "G1" ∈ handled_at "Q" (fst st') /\
  exists delivered,
    handled_at "Q" (fst st') = handled_at "Q" q ++ delivered /\
    forall job, job ∈ delivered -> status_of (redis (snd st')) (id job) = Some processing.
Proof.
  intros q w st'. split; [vm_compute; apply list_elem_of_here|].
  assert (Hu : unique_members (redis w)).
  { apply unique_by_listing. vm_compute. apply NoDup_ListNoDup.
    repeat (constructor; [cbn; intuition discriminate|]). constructor. }
  exact (proj1 (delivered_jobs_stay_processing q w "Q" Hu)).
Defined.

(** ** What is admitted is what is delivered *)

Lemma update_status_content (i : N) (st : JobStatus) (s : Redis.Store) (k : N) :
  content <$> Redis.jobs (snd (Redis.update_status i st s)) !! k
  = content <$> Redis.jobs s !! k.
Proof.
  unfold Redis.update_status. destruct (Redis.jobs s !! i) as [j|] eqn:Hj; [|reflexivity].
  cbn. destruct (decide (k = i)) as [->|Hne].
  - now rewrite lookup_insert_eq, Hj.
  - now rewrite lookup_insert_ne by congruence.
Qed.

Lemma holds_enqueue (i : N) (text g : string) (k1 k2 p gname : string) (a b c : Z)
    (s : Redis.Store) :
  holds i text g s -> holds i text g (snd (Redis.enqueue k1 k2 p gname a b c s)).
Proof.
  intros [[d Hd] Hlt]. split.
  - exists d. cbn. rewrite lookup_insert_ne; [exact Hd|]. lia.
  - cbn. lia.
Qed.

Lemma holds_evalsha (i : N) (text g : string) (sha : string) (keys : list string)
    (args : list Redis.Arg) (s : Redis.Store) :
  holds i text g s -> holds i text g (snd (Redis.evalsha sha keys args s)).
Proof.
  intros Hh. unfold Redis.evalsha.
  destruct (Redis.scripts s !! sha) as [[| | | |other]|]; try exact Hh.
  - destruct keys as [|k1 [|k2 [|]]]; try exact Hh.
    destruct args as [|[p|] [|[gn|] [|[|a] [|[|b] [|[|c] [|]]]]]]; try exact Hh.
    pose proof (holds_enqueue i text g k1 k2 p gn a b c s Hh) as Hres.
    now destruct (Redis.enqueue k1 k2 p gn a b c s).
  - destruct keys as [|k [|]]; try exact Hh.
    destruct (dequeue_effect k s) as (_ & Hid & _ & Hj & _).
    destruct (Redis.dequeue k s) as [r s'] eqn:Hrun. cbn [snd] in *.
    destruct Hh as [[d Hd] Hlt]. split; [exists d; now rewrite Hj | now rewrite Hid].
  - destruct args as [|[|j] [|]]; try exact Hh.
    unfold Redis.get_status. now destruct (Redis.jobs s !! Z.to_N j).
  - destruct args as [|[|j] [|[name|] [|]]]; try exact Hh.
    destruct (Redis.status_named name) as [st|]; [|exact Hh].
    pose proof (update_status_content (Z.to_N j) st s i) as Hc.
    assert (Hid : Redis.next_id (snd (Redis.update_status (Z.to_N j) st s)) = Redis.next_id s).
    { unfold Redis.update_status. now destruct (Redis.jobs s !! Z.to_N j). }
    destruct (Redis.update_status (Z.to_N j) st s) as [r s']. cbn [snd] in *.
    destruct Hh as [[d Hd] Hlt]. split; [exists d; now rewrite Hc | now rewrite Hid].
Qed.

Lemma holds_step (i : N) (text g : string) (s s' : Redis.Store) :
  store_step s s' -> holds i text g s -> holds i text g s'.
Proof.
  intros Hstep Hh. destruct Hstep; try exact Hh. now apply holds_evalsha.
Qed.

Lemma holds_evolves (i : N) (text g : string) (s s' : Redis.Store) :
  evolves s s' -> holds i text g s -> holds i text g s'.
Proof.
  unfold evolves. induction 1 as [|s1 s2 s3 Hstep _ IH]; [auto|].
  intros Hh. apply IH. eapply holds_step; eassumption.
Qed.

Lemma visit_store_step (sha key g : string) (s : Redis.Store) :
  store_step s (visit_store sha key g s).
Proof. unfold visit_store. destruct (Redis.zcard g s); constructor. Qed.

Lemma holds_after_add (queueName groupName text : string) (options : IAddJobOptions)
    (s : Redis.Store) :
  holds (Redis.next_id s) text groupName (stored_by_add queueName groupName text options s).
Proof.
  split.
  - eexists. unfold stored_by_add. cbn. now rewrite lookup_insert_eq.
  - unfold stored_by_add. cbn. lia.
Qed.

(** A job the store holds comes back from the script as it was admitted. *)
Lemma visit_reply_holds (i : N) (text g : string) (sha k : string) (s : Redis.Store)
    (t : N * string * string) :
  holds i text g s -> visit_reply sha k s = Some t -> fst (fst t) = i -> t = (i, text, g).
Proof.
  intros [[d Hd] _]. unfold visit_reply. destruct (Redis.zcard k s); [discriminate|].
  destruct (evalsha_dequeue_shape sha k s) as [[e ->]|[_ ->]]; [discriminate|].
  cbn [fst]. intros Ht.
  destruct (dequeue_reply_shape k s t Ht) as (e & rest & j & _ & Hj & -> & _).
  cbn [fst]. intros <-. rewrite Hj in Hd. cbn in Hd. now injection Hd as -> -> _.
Qed.

Lemma swept_replies_hold (i : N) (text g : string) (sha key : string) (groups : list string) :
  forall s t,
    holds i text g s ->
    t ∈ swept_replies sha key groups s -> fst (fst t) = i -> t = (i, text, g).
Proof.
  induction groups as [|k rest IH]; intros s t Hh Hin Hi.
  { now apply elem_of_nil in Hin. }
  cbn [swept_replies] in Hin. apply elem_of_app in Hin as [Hin|Hin].
  - destruct (visit_reply sha k s) as [t'|] eqn:Hr; cbn in Hin;
      [|now apply elem_of_nil in Hin].
    apply list_elem_of_singleton in Hin as ->.
    now apply (visit_reply_holds i text g sha k s).
  - apply (IH (visit_store sha key k s)); auto.
    eapply holds_step; [apply visit_store_step | exact Hh].
Qed.

Section RoundTripFacts.
Context {Payload : Type} `{JSON Payload}.

(** C7, as the code has it: for a payload [P] that [JSON.parse] reads back
    from what [JSON.stringify] wrote for it, when [add] has returned an
    identity for [P] and the group name [G], then whatever commands the
    store sees afterwards, every job with that identity that a sweep hands
    to a consumer carries the payload [P] and the group name [G]. *)
Theorem delivered_job_is_the_added_one :
  forall (publisher_end : Queue.t Payload) (w0 : World) (Q G : string)
         (P : Payload) (options : IAddJobOptions) (reply : Redis.Reply),
    (forall text, JSON_stringify P = Some text -> JSON_parse text = Some P) ->
    fst (Queue.add Q G P options (publisher_end, w0)) = Ok (Some reply) ->
    exists i,
      reply = Redis.RInt i /\
      forall (subscriber_end : Queue.t Payload) (w : World) (name : string),
        evolves (redis (snd (snd (Queue.add Q G P options (publisher_end, w0))))) (redis w) ->
        let st' := snd (Queue.processQueueTasks name (subscriber_end, w)) in
        exists delivered,
          handled_at name (fst st') = handled_at name subscriber_end ++ delivered /\
          forall job, job ∈ delivered -> id job = i ->
            data job = P /\ groupName job = G.
Proof.
  intros qp w0 queueName G P options reply Hround Hadd.
  pose proof (wp_add qp w0 queueName G P options) as Hpost.
  unfold wp, add_post in Hpost. cbv zeta in Hpost. rewrite Hadd in Hpost.
  destruct Hpost as (_ & tr & _ & _ & _ & sha & text & Htext & -> & Hs).
  exists (Redis.next_id (redis w0)). split; [reflexivity|].
  assert (Hheld : holds (Redis.next_id (redis w0)) text G
            (redis (snd (snd (Queue.add queueName G P options (qp, w0)))))).
  { destruct (Queue.publisherClient qp); destruct Hs as [-> _].
    - apply (holds_step _ _ _ (stored_by_add queueName G text options (redis w0)));
        [constructor | apply holds_after_add].
    - apply holds_after_add. }
  intros qs w name Hev. cbv zeta.
  pose proof (holds_evolves _ _ _ _ _ Hev Hheld) as Hw.
  pose proof (wp_processQueueTasks name qs w) as Hsweep.
  unfold wp, process_post in Hsweep. cbv zeta in Hsweep.
  destruct Hsweep as (done & dl & _ & _ & _ & _ & _ & _ & _ & Hhd & Hsub & _).
  exists dl. split; [exact Hhd|].
  intros job Hjob Hid. apply (sublist_subseteq _ _ Hsub) in Hjob.
  apply list_elem_of_omap in Hjob as (t & Ht & Hjob).
  unfold job_of in Hjob.
  destruct (JSON_parse (snd (fst t))) as [d|] eqn:Hparse; [|discriminate].
  injection Hjob as <-. cbn in Hid |- *.
  pose proof (swept_replies_hold _ _ _ _ _ _ _ t Hw Ht Hid) as ->.
  cbn [fst snd] in Hparse. rewrite (Hround text Htext) in Hparse.
  split; [congruence | reflexivity].
Qed.

End RoundTripFacts.

Lemma trim_end_spaceless (text : string) :
  (forall c, In c (String.list_ascii_of_string text) -> Examples.is_json_space c = false) ->
  Examples.trim_end text = text.
Proof.
  induction text as [|c rest IH]; intros Hall; [reflexivity|].
  cbn [Examples.trim_end]. rewrite IH by (intros c' Hin; apply Hall; now right).
  destruct rest; [|reflexivity].
  now rewrite (Hall c) by now left.
Qed.

Lemma trim_spaceless (text : string) :
  (forall c, In c (String.list_ascii_of_string text) -> Examples.is_json_space c = false) ->
  Examples.trim text = text.
Proof.
  intros Hall. unfold Examples.trim.
  assert (Hstart : Examples.trim_start text = text).
  { destruct text as [|c rest]; [reflexivity|]. cbn [Examples.trim_start].
    now rewrite (Hall c) by now left. }
  rewrite Hstart. now apply trim_end_spaceless.
Qed.

Lemma decimal_spaceless (digits : Decimal.uint) (c : Ascii.ascii) :
  In c (String.list_ascii_of_string (NilEmpty.string_of_uint digits)) ->
  Examples.is_json_space c = false.
Proof.
  induction digits as [|d IH|d IH|d IH|d IH|d IH|d IH|d IH|d IH|d IH|d IH];
    cbn; intros Hin; try (now destruct Hin);
    (destruct Hin as [<-|Hin]; [reflexivity | now apply IH]).
Qed.

Lemma nat_of_decimal_written (n : nat) :
  Examples.nat_of_decimal (Examples.trim (NilEmpty.string_of_uint (Nat.to_uint n))) = Some n.
Proof.
  rewrite trim_spaceless by apply decimal_spaceless.
  unfold Examples.nat_of_decimal. rewrite NilEmpty.usu, DecimalNat.Unsigned.of_to.
  now rewrite String.eqb_refl.
Qed.

#[global] Instance nat_JSONRoundTrip : JSONRoundTrip nat.
Proof. intros n text. cbn. intros [= <-]. apply nat_of_decimal_written. Qed.

(** C7, refuted as stated: [add] takes any value, and not every value comes
    back from its serialised form. The platform writes [NaN] as [null]; the
    publisher admits the payload [NaN] under the identity 0, and the job 0
    the subscriber's consumer is handed carries [null]. *)
Lemma nan_payload_is_delivered_as_null :
  let pub := snd (Queue.init (Queue.new publisher ∅ : Queue.t Examples.Js, Examples.fresh)) in
  let added := Queue.add "Q" "G" Examples.JsNaN Examples.no_options pub in
  let sub :=
    snd (Queue.init (Queue.new subscriber ∅ : Queue.t Examples.Js, snd (snd added))) in
  let swept := snd (Queue.process "Q" (fun _ => Done) sub) in
  JSON_stringify Examples.JsNaN = Some "null" /\
  JSON_parse "null" = Some Examples.JsNull /\
  fst added = Ok (Some (Redis.RInt 0)) /\
  handled_at "Q" (fst swept) = [mkJob 0%N Examples.JsNull "G"] /\
  Examples.JsNull <> Examples.JsNaN.
Proof. vm_compute. split_and!; try reflexivity. discriminate. Qed.

(** The test of the repository: the payload 7 admitted to [Q]/[G] comes
    back as the job 0 with the payload 7 and the group name [G]. *)
Lemma delivered_job_is_the_added_one_witness :
  let added := Queue.add "Q" "G" 7 Examples.no_options
                 (Examples.publisher_q, Examples.publisher_w) in
  let st' := snd (Queue.processQueueTasks "Q" (Examples.subscriber_q, snd (snd added))) in
  fst added = Ok (Some (Redis.RInt 0)) /\
  handled_at "Q" (fst st') = [mkJob 0%N 7 "G"] /\
  exists delivered,
    handled_at "Q" (fst st') = handled_at "Q" Examples.subscriber_q ++ delivered /\
    forall job, job ∈ delivered -> id job = 0%N -> data job = 7 /\ groupName job = "G".
Proof.
  intros added st'. subst st' added.
  assert (Hadd : fst (Queue.add "Q" "G" 7 Examples.no_options
                        (Examples.publisher_q, Examples.publisher_w))
                 = Ok (Some (Redis.RInt 0))) by (vm_compute; reflexivity).
  split; [exact Hadd|]. split; [vm_compute; reflexivity|].
  assert (Hround : forall text, JSON_stringify 7 = Some text -> JSON_parse text = Some 7).
  { intros text [= <-]. vm_compute. reflexivity. }
  destruct (delivered_job_is_the_added_one
              Examples.publisher_q Examples.publisher_w "Q" "G" 7 Examples.no_options
              (Redis.RInt 0) Hround Hadd) as (i & [= <-] & Hall).
  apply (Hall Examples.subscriber_q _ "Q"). apply rtc_refl.
Defined.

(** ** Registering a processor *)

Section ProcessFacts.
Context {Payload : Type} `{JSON Payload}.

Lemma process_unfold (q : Queue.t Payload) (w : World) (name : string)
    (callback : IJobData Payload -> Completion) :
  Queue.process name callback (q, w) =
  match Queue.type q, Queue.consumers q !! name with
  | publisher, _ => (Throw "Only subscriber instances can process jobs", (q, w))
  | subscriber, Some _ =>
      (Throw ("A processor for queue '" ++ name ++ "' already exists")%string, (q, w))
  | subscriber, None =>
      Queue.processQueueTasks name
        (Queue.set_consumers q (<[name := Consumer.new name callback]> (Queue.consumers q)), w)
  end.
Proof.
  unfold Queue.process, bind, gets, modify, throw, ret. cbn [fst snd].
  destruct (Queue.type q) eqn:Hty; cbn [fst snd]; [reflexivity|].
  destruct (Queue.consumers q !! name); cbn [fst snd]; [reflexivity|].
  cbn [Queue.type Queue.set_consumers]. now rewrite Hty.
Qed.

(** C9: [process] raises on an orchestrator that is not a subscriber and
    raises when the queue already has a consumer, leaving the orchestrator
    as it was; otherwise it registers one new, sleeping consumer under the
    queue name, leaves the consumers of the other queues alone and runs one
    sweep of that queue at once. *)
Theorem process_registers_and_sweeps :
  forall (q : Queue.t Payload) (w : World) (name : string)
         (callback : IJobData Payload -> Completion),
    let result := Queue.process name callback (q, w) in
    match Queue.type q, Queue.consumers q !! name with
    | publisher, _ =>
        result = (Throw "Only subscriber instances can process jobs", (q, w))
    | subscriber, Some _ =>
        result = (Throw ("A processor for queue '" ++ name ++ "' already exists")%string, (q, w))
    | subscriber, None =>
        let registered :=
          Queue.set_consumers q (<[name := Consumer.new name callback]> (Queue.consumers q)) in
        result = Queue.processQueueTasks name (registered, w) /\
        (forall k, k <> name ->
           Queue.consumers (fst (snd result)) !! k = Queue.consumers q !! k) /\
        (exists c,
           Queue.consumers (fst (snd result)) !! name = Some c /\
           Consumer.queueName c = name /\ Consumer.callback c = callback)
    end.
Proof.
  intros q w name callback. cbv zeta. rewrite process_unfold.
  destruct (Queue.type q) eqn:Hty; [reflexivity|].
  destruct (Queue.consumers q !! name) as [c|] eqn:Hc; [reflexivity|].
  set (registered :=
         Queue.set_consumers q (<[name := Consumer.new name callback]> (Queue.consumers q))).
  split; [reflexivity|].
  pose proof (wp_processQueueTasks name registered w) as Hpost.
  unfold wp, process_post in Hpost. cbv zeta in Hpost.
  destruct Hpost as (done & dl & _ & _ & _ & _ & _ & _ & (_ & Hother & Hkin) & _).
  split.
  - intros k Hk. rewrite (Hother k Hk). subst registered. cbn.
    now rewrite lookup_insert_ne by congruence.
  - assert (Hreg : Queue.consumers registered !! name = Some (Consumer.new name callback)).
    { subst registered. cbn. apply lookup_insert_eq. }
    rewrite Hreg in Hkin. inversion Hkin as [c0 c' [Hq Hcb] E1 E2|]; subst.
    exists c'. split; [reflexivity|]. split; [exact Hq | exact Hcb].
Qed.

End ProcessFacts.

(** A job admitted before any processor was registered is handed to the
    callback by [process] itself; a second registration for the queue and a
    registration on a publisher are refused. *)
Lemma process_registers_and_sweeps_witness :
  let first := Queue.process "Q" (fun _ => Done)
                 (Examples.idle_subscriber_q, Examples.one_job_w) in
  fst first = Ok tt /\
  handled_at "Q" (fst (snd first)) = [mkJob 0%N 7 "G"] /\
  fst (Queue.process "Q" (fun _ => Done) (snd first))
    = Throw "A processor for queue 'Q' already exists" /\
  fst (Queue.process "Q" (fun _ : IJobData nat => Done)
         (Examples.publisher_q, Examples.one_job_w))
    = Throw "Only subscriber instances can process jobs" /\
  first = Queue.processQueueTasks "Q"
            (Queue.set_consumers Examples.idle_subscriber_q
               (<["Q" := Consumer.new "Q" (fun _ => Done)]>
                  (Queue.consumers Examples.idle_subscriber_q)),
             Examples.one_job_w).
Proof.
  intros first. subst first.
  do 4 (split; [vm_compute; reflexivity|]).
  pose proof (process_registers_and_sweeps Examples.idle_subscriber_q Examples.one_job_w
                "Q" (fun _ => Done)) as Hspec.
  cbv zeta in Hspec.
  change (Queue.type Examples.idle_subscriber_q) with subscriber in Hspec.
  change (Queue.consumers Examples.idle_subscriber_q !! "Q")
    with (@None (Consumer.t nat)) in Hspec.
  exact (proj1 Hspec).
Defined.

(** ** What a role can do *)

Section RoleFacts.
Context {Payload : Type} `{JSON Payload}.
Implicit Types (q : Queue.t Payload) (w : World).

Lemma keeps_ret {A : Type} (a : A) : keeps_wiring (Payload := Payload) (ret a).
Proof. intros st. reflexivity. Qed.

Lemma keeps_throw {A : Type} (e : string) : keeps_wiring (Payload := Payload) (A := A) (throw e).
Proof. intros st. reflexivity. Qed.

Lemma keeps_gets {A : Type} (f : Queue.t Payload * World -> A) : keeps_wiring (gets f).
Proof. intros st. reflexivity. Qed.

Lemma keeps_bind {A B : Type} (m : M (Queue.t Payload * World) A)
    (k : A -> M (Queue.t Payload * World) B) :
  keeps_wiring m -> (forall a, keeps_wiring (k a)) -> keeps_wiring (bind m k).
Proof.
  intros Hm Hk st. unfold bind. specialize (Hm st).
  destruct (m st) as [[a|e|] st1]; cbn [fst snd] in *; try exact Hm.
  now rewrite Hk.
Qed.

Lemma keeps_try_catch {A : Type} (m : M (Queue.t Payload * World) A)
    (h : string -> M (Queue.t Payload * World) A) :
  keeps_wiring m -> (forall e, keeps_wiring (h e)) -> keeps_wiring (try_catch m h).
Proof.
  intros Hm Hh st. unfold try_catch. specialize (Hm st).
  destruct (m st) as [[a|e|] st1]; cbn [fst snd] in *; try exact Hm.
  now rewrite Hh.
Qed.

Lemma keeps_finally {A : Type} (m : M (Queue.t Payload * World) A)
    (cleanup : M (Queue.t Payload * World) unit) :
  keeps_wiring m -> keeps_wiring cleanup -> keeps_wiring (finally m cleanup).
Proof.
  intros Hm Hc st. unfold finally. specialize (Hm st).
  destruct (m st) as [[a|e|] st1]; cbn [fst snd] in *; try exact Hm;
    specialize (Hc st1); destruct (cleanup st1) as [[[]|e2|] st2]; cbn [fst snd] in *;
    congruence.
Qed.

Lemma keeps_in_world {A : Type} (m : M World A) :
  keeps_wiring (Payload := Payload) (in_world m).
Proof. intros [q w]. unfold in_world. cbn [fst snd]. now destruct (m w). Qed.

Lemma keeps_in_manager {A : Type} (m : M (RedisManager.t * World) A) :
  keeps_wiring (Payload := Payload) (Queue.in_manager m).
Proof.
  intros [q w]. unfold Queue.in_manager. cbn [fst snd].
  now destruct (m (Queue.redisManager q, w)) as [r [m' w']].
Qed.

Lemma same_instance_wiring name q q' : same_instance name q q' -> wiring q' = wiring q.
Proof. intros (-> & _). reflexivity. Qed.

Lemma keeps_sweep name : keeps_wiring (Queue.processQueueTasks (Payload := Payload) name).
Proof.
  intros [q w]. pose proof (wp_processQueueTasks name q w) as Hpost.
  unfold wp, process_post in Hpost. cbv zeta in Hpost.
  destruct Hpost as (done & dl & _ & _ & _ & _ & _ & _ & Hsame & _).
  now apply (same_instance_wiring name).
Qed.

Lemma keeps_init : keeps_wiring (Queue.init (Payload := Payload)).
Proof.
  unfold Queue.init. apply keeps_bind; [apply keeps_in_manager|]. intros _.
  apply keeps_bind; [apply keeps_gets|]. intros [|]; [apply keeps_ret|].
  intros st. reflexivity.
Qed.

Lemma keeps_add queueName groupName (data : Payload) options :
  keeps_wiring (Queue.add queueName groupName data options).
Proof.
  intros [q w]. pose proof (wp_add q w queueName groupName data options) as [Hq _].
  cbn [fst]. now rewrite Hq.
Qed.

Lemma keeps_process name (callback : IJobData Payload -> Completion) :
  keeps_wiring (Queue.process name callback).
Proof.
  intros [q w]. rewrite process_unfold. cbn [fst].
  destruct (Queue.type q) eqn:Hty; [reflexivity|].
  destruct (Queue.consumers q !! name); [reflexivity|].
  rewrite keeps_sweep. unfold wiring. cbn. now rewrite Hty.
Qed.

Lemma keeps_poll (names : list string) : keeps_wiring (Queue.poll (Payload := Payload) names).
Proof.
  induction names as [|name rest IH]; [apply keeps_ret|].
  cbn [Queue.poll]. apply keeps_bind; [apply keeps_gets|]. intros consumer.
  destruct (Consumer.status <$> consumer) as [[|]|]; try exact IH.
  apply keeps_bind; [apply keeps_sweep | intros _; exact IH].
Qed.

Lemma keeps_tick : keeps_wiring (Queue.tick (Payload := Payload)).
Proof.
  unfold Queue.tick. apply keeps_bind; [apply keeps_gets|]. intros entries. apply keeps_poll.
Qed.

Lemma keeps_message chan message :
  keeps_wiring (Queue.on_message (Payload := Payload) chan message).
Proof.
  unfold Queue.on_message. destruct (String.eqb chan Queue.newjob_channel); [|apply keeps_ret].
  apply keeps_try_catch; [|intros _; apply keeps_ret].
  apply keeps_bind; [apply keeps_gets|]. intros consumer.
  destruct (Consumer.status <$> consumer) as [[|]|]; try apply keeps_ret.
  apply keeps_bind; [apply keeps_in_manager|]. intros _.
  apply keeps_finally; [|apply keeps_in_manager].
  apply keeps_bind; [apply keeps_in_world|]. intros [|n]; [apply keeps_ret | apply keeps_sweep].
Qed.

Lemma wiring_perform (c : Call Payload) q w :
  wiring (fst (snd (perform c (q, w)))) = wiring q.
Proof.
  change (wiring (fst (snd (perform c (q, w)))) = wiring (fst (q, w))).
  revert q w. enough (Hk : keeps_wiring (perform c)) by (intros q w; apply Hk).
  destruct c; cbn [perform].
  - apply keeps_init.
  - apply keeps_bind; [apply keeps_add | intros _; apply keeps_ret].
  - apply keeps_process.
  - apply keeps_tick.
  - apply keeps_message.
Qed.

(** The connections an orchestrator has are those its constructor opened. *)
Lemma constructed_wiring (role : Role) q :
  constructed role q ->
  wiring q =
    (role,
     match role with subscriber => true | publisher => false end,
     match role with publisher => true | subscriber => false end).
Proof.
  induction 1 as [limits | q w c _ IH]; [reflexivity|].
  now rewrite wiring_perform.
Qed.

End RoleFacts.

Section SubscriberAddFacts.
Context {Payload : Type} `{JSON Payload}.


End SubscriberAddFacts.




(** * Further properties of the code *)

(** ** A callback that never signals *)

Section SilentCallback.
Context {Payload : Type}.
Implicit Types (c : Consumer.t Payload) (job : IJobData Payload).

(** X1: a callback that never calls [done] leaves [process] pending with the
    consumer RUNNING on that job, and from then on every dispatch is refused
    and changes nothing: nothing in [consumer.ts] resets the status but the
    [finally] of the pending call. *)
Theorem silent_callback_blocks_consumer :
  forall c job,
    Consumer.status c = Consumer.SLEEPING ->
    Consumer.callback c job = Silent ->
    let c' := snd (Consumer.process c job) in
    fst (Consumer.process c job) = Hang /\
    Consumer.status c' = Consumer.RUNNING /\
    Consumer.inflight c' = [job] /\
    Consumer.handled c' = Consumer.handled c ++ [job] /\
    forall later : list (IJobData Payload),
      Consumer.run c' (Consumer.Dispatch <$> later) = c' /\
      Forall (fun next =>
                Consumer.process c' next =
                  (Throw (Consumer.already_running (Consumer.queueName c)), c')) later.
Proof.
  intros c job Hs Hcb. cbv zeta.
  unfold Consumer.process, Consumer.dispatch. rewrite Hs. cbn [fst snd].
  unfold Consumer.settle. cbn [Consumer.inflight Consumer.callback]. rewrite Hcb.
  cbn [fst snd Consumer.status Consumer.inflight Consumer.handled].
  split_and!; try reflexivity.
  intros later. split.
  - induction later as [|next later IH]; [reflexivity|].
    cbn [fmap list_fmap Consumer.run fold_left Consumer.step] in *.
    exact IH.
  - apply Forall_forall. intros next _. reflexivity.
Qed.

End SilentCallback.

(** A consumer whose callback ignores [done]: the second and third job are
    refused. *)
Lemma silent_callback_blocks_consumer_witness :
  let c := Consumer.new "Q" (fun _ : IJobData nat => Silent) in
  let c' := snd (Consumer.process c (mkJob 0%N 7 "G")) in
  fst (Consumer.process c (mkJob 0%N 7 "G")) = Hang /\
  Consumer.run c' [Consumer.Dispatch (mkJob 1%N 8 "G"); Consumer.Dispatch (mkJob 2%N 9 "G")] = c'.
Proof.
  intros c c'.
  pose proof (silent_callback_blocks_consumer c (mkJob 0%N 7 "G") eq_refl eq_refl) as Hspec.
  cbv zeta in Hspec. destruct Hspec as (Hhang & _ & _ & _ & Hlater).
  split; [exact Hhang|].
  exact (proj1 (Hlater [mkJob 1%N 8 "G"; mkJob 2%N 9 "G"])).
Defined.

(** ** Loading the scripts, whatever the network does *)

Lemma sha1_inj (a b : Redis.Lua) : Redis.sha1 a = Redis.sha1 b -> a = b.
Proof.
  destruct a, b; intros Heq; cbv in Heq; congruence.
Qed.

Lemma clear_ahead_0 (w : World) : clear_ahead 0 w.
Proof. unfold clear_ahead. rewrite take_0. constructor. Qed.

Lemma clear_ahead_S (n : nat) (w : World) :
  clear_ahead (S n) w <->
  fst (next_fault w) = false /\
  forall w', faults w' = snd (next_fault w) -> clear_ahead n w'.
Proof.
  unfold clear_ahead, next_fault. destruct (faults w) as [|b later]; cbn [fst snd take].
  - split.
    + intros _. split; [reflexivity|]. intros w' ->. rewrite take_nil. constructor.
    + intros _. constructor.
  - rewrite Forall_cons. split.
    + intros [-> Hl]. split; [reflexivity|]. now intros w' ->.
    + intros [-> Hl]. split; [reflexivity|].
      apply (Hl (mkWorld ∅ Redis.empty later [] 0)). reflexivity.
Qed.

Lemma clear_ahead_faults (n : nat) (w w' : World) :
  faults w' = faults w -> clear_ahead n w -> clear_ahead n w'.
Proof. unfold clear_ahead. now intros ->. Qed.

Lemma reliable_clear_ahead (n : nat) (w : World) : reliable w -> clear_ahead n w.
Proof. unfold reliable, clear_ahead. intros ->. rewrite take_nil. constructor. Qed.

Lemma registered_register (m : RedisManager.t) (s : Redis.Store) (n name : string)
    (src0 src : Redis.Lua) :
  (n = name -> src0 = src) ->
  registered m s name src ->
  registered (RedisManager.register n (Redis.sha1 src0) src0 m)
    (snd (Redis.script_load src0 s)) name src.
Proof.
  intros Hsame (Hh & Hc & Hs). unfold registered, RedisManager.getScriptSha in *.
  cbn. destruct (decide (n = name)) as [->|Hne].
  - rewrite (Hsame eq_refl), !lookup_insert_eq. auto.
  - rewrite !(lookup_insert_ne _ n name) by exact Hne. split_and!; trivial.
    destruct (decide (Redis.sha1 src0 = Redis.sha1 src)) as [Heq|Hneq].
    + rewrite Heq, lookup_insert_eq. now rewrite (sha1_inj _ _ Heq).
    + now rewrite lookup_insert_ne.
Qed.

Lemma registered_here (m : RedisManager.t) (s : Redis.Store) (name : string) (src : Redis.Lua) :
  registered (RedisManager.register name (Redis.sha1 src) src m)
    (snd (Redis.script_load src s)) name src.
Proof.
  unfold registered, RedisManager.getScriptSha. cbn. now rewrite !lookup_insert_eq.
Qed.

Lemma register_again (m : RedisManager.t) (s : Redis.Store) (name : string) (src : Redis.Lua) :
  registered m s name src ->
  RedisManager.register name (Redis.sha1 src) src m = m /\
  snd (Redis.script_load src s) = s.
Proof.
  intros (Hh & Hc & Hs). unfold RedisManager.getScriptSha in Hh. split.
  - destruct m as [names contents shas]. unfold RedisManager.register. cbn in *.
    now rewrite !insert_id.
  - destruct s. unfold Redis.script_load, Redis.set_scripts. cbn in *.
    now rewrite insert_id.
Qed.

Lemma loadable_cons (dir : gmap string Redis.Lua) (n : string) (rest : list string) :
  loadable dir (n :: rest) =
  match dir !! (n ++ ".lua")%string with
  | Some src => if Redis.nonempty src then (n, src) :: loadable dir rest else loadable dir rest
  | None => loadable dir rest
  end.
Proof.
  unfold loadable. cbn [omap list_omap].
  destruct (dir !! (n ++ ".lua")%string) as [src|]; [|reflexivity].
  now destruct (Redis.nonempty src).
Qed.

(** What one pass of the loop over [names] does, for every fate of the
    round trips. *)
Lemma load_each_flow (names : list string) :
  forall (m : RedisManager.t) (w : World),
    let r := RedisManager.load_each names (m, w) in
    let m' := fst (snd r) in
    let w' := snd (snd r) in
    let entries := loadable (files w) names in
    fst r <> Hang /\
    (fst r = Ok tt <-> clear_ahead (length entries) w) /\
    borrowed w' = borrowed w /\ files w' = files w /\
    RedisManager.scripts m' = RedisManager.scripts m /\
    holdings (redis w') = holdings (redis w) /\
    (exists k,
       k <= length entries /\
       trace w' = trace w ++ (load_cmd <$> take k entries) /\
       (fst r = Ok tt -> k = length entries)) /\
    (forall name src,
       files w !! (name ++ ".lua")%string = Some src ->
       registered m (redis w) name src -> registered m' (redis w') name src) /\
    (fst r = Ok tt ->
     forall name src, (name, src) ∈ entries -> registered m' (redis w') name src) /\
    ((forall name src, (name, src) ∈ entries -> registered m (redis w) name src) ->
     m' = m /\ redis w' = redis w).
Proof.
  induction names as [|n rest IH]; intros m w; cbv zeta.
  { cbn. split_and!; auto; try discriminate.
    - split; [intros _; apply clear_ahead_0 | reflexivity].
    - exists 0. cbn. rewrite app_nil_r. auto.
    - intros _ name src Hin. now apply elem_of_nil in Hin. }
  cbn [RedisManager.load_each]. rewrite loadable_cons.
  unfold RedisManager.loadLuaScript, readFile.
  unfold bind at 1. unfold try_catch, bind, in_world, ret. cbn [fst snd].
  assert (Hskip : forall entries,
             entries = loadable (files w) rest ->
             let r := RedisManager.load_each rest (m, w) in
             let m' := fst (snd r) in
             let w' := snd (snd r) in
             fst r <> Hang /\
             (fst r = Ok tt <-> clear_ahead (length entries) w) /\
             borrowed w' = borrowed w /\ files w' = files w /\
             RedisManager.scripts m' = RedisManager.scripts m /\
             holdings (redis w') = holdings (redis w) /\
             (exists k,
                k <= length entries /\
                trace w' = trace w ++ (load_cmd <$> take k entries) /\
                (fst r = Ok tt -> k = length entries)) /\
             (forall name src,
                files w !! (name ++ ".lua")%string = Some src ->
                registered m (redis w) name src -> registered m' (redis w') name src) /\
             (fst r = Ok tt ->
              forall name src, (name, src) ∈ entries -> registered m' (redis w') name src) /\
             ((forall name src, (name, src) ∈ entries -> registered m (redis w) name src) ->
              m' = m /\ redis w' = redis w)).
  { intros entries ->. exact (IH m w). }
  destruct (files w !! (n ++ ".lua")%string) as [src|] eqn:Hfile; cbn [fst snd];
    [destruct (Redis.nonempty src) eqn:Hne|]; try (now apply Hskip).
  cbn [length]. unfold Client.script_load, roundtrip, modify. cbn [fst snd].
  destruct (next_fault w) as [broken later] eqn:Hnf.
  assert (Hnf1 : fst (next_fault w) = broken) by now rewrite Hnf.
  assert (Hnf2 : snd (next_fault w) = later) by now rewrite Hnf.
  destruct broken; cbn [fst snd].
  - split_and!; try reflexivity; try discriminate.
    + split; [discriminate|]. intros Hc. apply clear_ahead_S in Hc as [Hc _]. congruence.
    + exists 1. split; [lia|]. cbn. split; [reflexivity | discriminate].
    + auto.
    + auto.
  - cbn [Redis.script_load fst snd]. unfold modify. cbn [fst snd].
    set (m1 := RedisManager.register n (Redis.sha1 src) src m).
    set (w1 := mkWorld _ _ _ _ _).
    assert (Hfiles : files w1 = files w) by reflexivity.
    specialize (IH m1 w1). cbv zeta in IH. rewrite Hfiles in IH.
    destruct IH as (Hhang & Hok & Hb & Hf & Hs & Hhold & (k & Hk & Htr & Hkok) & Hkeep & Hreg & Hagain).
    split_and!.
    + exact Hhang.
    + rewrite Hok, clear_ahead_S, Hnf1, Hnf2. split.
      * intros Hc. split; [reflexivity|]. intros w' Hw'. eapply clear_ahead_faults; [|exact Hc].
        now rewrite Hw'.
      * intros [_ Hc]. now apply Hc.
    + exact Hb.
    + exact Hf.
    + exact Hs.
    + rewrite Hhold. reflexivity.
    + exists (S k). split; [lia|]. split; [|intros Hr; now rewrite (Hkok Hr)].
      rewrite Htr. cbn. now rewrite <- app_assoc.
    + intros name src' Hfile' Hr. apply Hkeep; [exact Hfile'|].
      apply registered_register; [|exact Hr]. intros ->. congruence.
    + intros Hr name src' Hin. apply elem_of_cons in Hin as [Heq|Hin].
      * injection Heq as -> ->. apply Hkeep; [exact Hfile|]. apply registered_here.
      * now apply Hreg.
    + intros Hall.
      destruct (register_again m (redis w) n src) as [Hm1 Hs1].
      { apply Hall, list_elem_of_here. }
      assert (Hw1 : redis w1 = redis w) by exact Hs1.
      destruct Hagain as [Hm' Hs'].
      { intros name src' Hin. fold m1. unfold m1. rewrite Hm1, Hw1.
        apply Hall. now apply list_elem_of_further. }
      fold m1 in Hm1. rewrite Hm', Hs'. now split.
Qed.

Lemma elem_of_loadable (dir : gmap string Redis.Lua) (names : list string)
    (name : string) (src : Redis.Lua) :
  (name, src) ∈ loadable dir names <->
  name ∈ names /\ dir !! (name ++ ".lua")%string = Some src /\ Redis.nonempty src = true.
Proof.
  unfold loadable. rewrite list_elem_of_omap. split.
  - intros (n & Hin & Hsome).
    destruct (dir !! (n ++ ".lua")%string) as [src'|] eqn:Hfile; [|discriminate].
    destruct (Redis.nonempty src') eqn:Hne; [|discriminate].
    injection Hsome as -> ->. auto.
  - intros (Hin & Hfile & Hne). exists name. split; [exact Hin|]. now rewrite Hfile, Hne.
Qed.

(** [init] of the manager is the loop between an acquire and a release; the
    release cannot fail, the connection being the one just acquired. *)
Lemma manager_init_unfold (m : RedisManager.t) (w : World) :
  RedisManager.init (m, w) =
  if fst (next_fault w)
  then (Throw "pool is draining and cannot accept work", (m, after_refusal w))
  else
    let r := RedisManager.load_each (RedisManager.scripts m) (m, after_acquire w) in
    (fst r, (fst (snd r), after_release (snd (snd r)))).
Proof.
  unfold RedisManager.init, RedisManager.loadAndRegisterLuaScripts.
  unfold try_catch, bind at 1. unfold in_world at 1. unfold Pool.acquire.
  unfold after_refusal, after_acquire. cbn [fst snd].
  destruct (next_fault w) as [[|] later]; cbn [fst snd]; [reflexivity|].
  set (w1 := mkWorld _ _ _ _ _).
  unfold finally, bind, gets. cbn [fst snd].
  pose proof (load_each_flow (RedisManager.scripts m) m w1) as Hflow. cbv zeta in Hflow.
  destruct Hflow as (Hhang & _ & Hb & _).
  destruct (RedisManager.load_each (RedisManager.scripts m) (m, w1)) as [r [m' w']].
  cbn [fst snd] in *. unfold in_world, Pool.release, after_release. cbn [fst snd].
  rewrite Hb. cbn [borrowed w1 pred].
  destruct r as [[]|e|]; cbn [fst snd]; try reflexivity. now destruct Hhang.
Qed.

(** [init] of the manager, for every fate of the round trips. *)
Lemma manager_init_flow (m : RedisManager.t) (w : World) :
  let r := RedisManager.init (m, w) in
  let m' := fst (snd r) in
  let w' := snd (snd r) in
  let entries := loadable (files w) (RedisManager.scripts m) in
  fst r <> Hang /\
  (fst r = Ok tt <-> clear_ahead (S (length entries)) w) /\
  borrowed w' = borrowed w /\ files w' = files w /\
  RedisManager.scripts m' = RedisManager.scripts m /\
  holdings (redis w') = holdings (redis w) /\
  (exists k,
     k <= length entries /\
     trace w' = trace w ++ (load_cmd <$> take k entries) /\
     (fst r = Ok tt -> k = length entries)) /\
  (fst r = Ok tt ->
   forall name src, (name, src) ∈ entries -> registered m' (redis w') name src) /\
  ((forall name src, (name, src) ∈ entries -> registered m (redis w) name src) ->
   m' = m /\ redis w' = redis w).
Proof.
  cbv zeta. rewrite manager_init_unfold, clear_ahead_S.
  destruct (fst (next_fault w)) eqn:Hnf; cbn [fst snd].
  - split_and!; try reflexivity; try discriminate.
    + split; [discriminate | now intros [? _]].
    + exists 0. rewrite take_0. cbn. rewrite app_nil_r.
      split_and!; [lia | reflexivity | discriminate].
    + auto.
  - pose proof (load_each_flow (RedisManager.scripts m) m (after_acquire w)) as Hflow.
    cbv zeta in Hflow.
    change (files (after_acquire w)) with (files w) in Hflow.
    change (redis (after_acquire w)) with (redis w) in Hflow.
    change (trace (after_acquire w)) with (trace w) in Hflow.
    destruct Hflow as (Hhang & Hok & Hb & Hf & Hs & Hhold & Htr & _ & Hreg & Hagain).
    split_and!; trivial.
    + rewrite Hok. split.
      * intros Hc. split; [reflexivity|]. intros w' Hw'.
        eapply clear_ahead_faults; [|exact Hc]. now rewrite Hw'.
      * intros [_ Hc]. now apply Hc.
    + unfold after_release. cbn [borrowed]. rewrite Hb. reflexivity.
Qed.

Section LoadingFacts.
Implicit Types (m : RedisManager.t) (w : World).

(** X2: on a pool that has a connection to lend, the manager's [init] never
    stays pending, and it resolves exactly when the acquire and the
    [SCRIPT LOAD] of every configured script that could be read succeed: a
    script that cannot be read, or is empty, costs no round trip and cannot
    make it fail. Resolved or rejected, it has given its connection back,
    so that the pool has a connection to lend as before, and has left the
    scripts directory and the configured list alone. *)
Theorem manager_init_rejects_iff_round_trip_fails :
  forall m w,
    has_room 1 w ->
    let r := RedisManager.init (m, w) in
    let n := length (loadable (files w) (RedisManager.scripts m)) in
    fst r <> Hang /\
    (fst r = Ok tt <-> clear_ahead (S n) w) /\
    ((exists e, fst r = Throw e) <-> ~ clear_ahead (S n) w) /\
    borrowed (snd (snd r)) = borrowed w /\
    has_room 1 (snd (snd r)) /\
    files (snd (snd r)) = files w /\
    RedisManager.scripts (fst (snd r)) = RedisManager.scripts m.
Proof.
  intros m w Hroom. cbv zeta.
  pose proof (manager_init_flow m w) as Hflow. cbv zeta in Hflow.
  destruct Hflow as (Hhang & Hok & Hb & Hf & Hs & _).
  split_and!; trivial.
  - rewrite <- Hok. split.
    + intros [e He] Hr. congruence.
    + intros Hno. destruct (fst (RedisManager.init (m, w))) as [[]|e|].
      * now destruct Hno.
      * eauto.
      * now destruct Hhang.
  - unfold has_room in *. now rewrite Hb.
Qed.

(** X3: whatever the network does, [init] sends nothing but [SCRIPT LOAD], for
    the configured scripts that could be read, in the configured order and
    each at most once, stopping at the first that fails; of the server only
    the script cache changes. *)
Theorem init_sends_only_script_loads :
  forall m w,
    let r := RedisManager.init (m, w) in
    let entries := loadable (files w) (RedisManager.scripts m) in
    (exists k,
       k <= length entries /\
       trace (snd (snd r)) = trace w ++ (load_cmd <$> take k entries) /\
       (fst r = Ok tt -> k = length entries)) /\
    holdings (redis (snd (snd r))) = holdings (redis w).
Proof.
  intros m w. cbv zeta.
  pose proof (manager_init_flow m w) as Hflow. cbv zeta in Hflow.
  destruct Hflow as (_ & _ & _ & _ & _ & Hhold & Htr & _). now split.
Qed.

(** X4: when [init] has resolved, every configured script whose file could be
    read and is not empty has its digest cached as its handle, and the
    server holds the text of the file under that digest. *)
Theorem init_handles_name_loaded_scripts :
  forall m w,
    fst (RedisManager.init (m, w)) = Ok tt ->
    let m' := fst (snd (RedisManager.init (m, w))) in
    let w' := snd (snd (RedisManager.init (m, w))) in
    forall name src,
      name ∈ RedisManager.scripts m ->
      files w !! (name ++ ".lua")%string = Some src ->
      Redis.nonempty src = true ->
      RedisManager.getScriptSha m' name = Some (Redis.sha1 src) /\
      RedisManager.scriptContents m' !! name = Some src /\
      Redis.scripts (redis w') !! Redis.sha1 src = Some src.
Proof.
  intros m w Hok. cbv zeta. intros name src Hin Hfile Hne.
  pose proof (manager_init_flow m w) as Hflow. cbv zeta in Hflow.
  destruct Hflow as (_ & _ & _ & _ & _ & _ & _ & Hreg & _).
  apply (Hreg Hok name src). apply elem_of_loadable. auto.
Qed.

(** X5: an [init] after one that resolved changes neither the manager nor the
    server, whether it resolves itself or not, as long as the files and the
    server are as the first one left them. *)
Theorem second_init_changes_nothing :
  forall m w w2,
    fst (RedisManager.init (m, w)) = Ok tt ->
    let m1 := fst (snd (RedisManager.init (m, w))) in
    let w1 := snd (snd (RedisManager.init (m, w))) in
    files w2 = files w1 -> redis w2 = redis w1 ->
    fst (snd (RedisManager.init (m1, w2))) = m1 /\
    redis (snd (snd (RedisManager.init (m1, w2)))) = redis w1.
Proof.
  intros m w w2 Hok. cbv zeta. intros Hfiles Hredis.
  pose proof (manager_init_flow m w) as Hflow. cbv zeta in Hflow.
  destruct Hflow as (_ & _ & _ & Hf1 & Hs1 & _ & _ & Hreg & _).
  specialize (Hreg Hok).
  set (m1 := fst (snd (RedisManager.init (m, w)))) in *.
  set (w1 := snd (snd (RedisManager.init (m, w)))) in *.
  pose proof (manager_init_flow m1 w2) as Hflow. cbv zeta in Hflow.
  destruct Hflow as (_ & _ & _ & _ & _ & _ & _ & _ & Hagain).
  rewrite <- Hredis. apply Hagain.
  intros name src Hin. rewrite Hredis. apply Hreg.
  now rewrite Hfiles, Hf1, Hs1 in Hin.
Qed.

End LoadingFacts.

(** On the fresh world, whose pool has lent nothing, [init] resolves; when
    the second [SCRIPT LOAD] fails it rejects, and the connection is back. *)
Lemma manager_init_rejects_iff_round_trip_fails_witness :
  let m := RedisManager.new ["dequeue"; "enqueue"; "get_status"; "update_status"] in
  let w := Examples.with_faults Examples.fresh [false; false; true] in
  has_room 1 Examples.fresh /\
  fst (RedisManager.init (m, Examples.fresh)) = Ok tt /\
  (exists e, fst (RedisManager.init (m, w)) = Throw e) /\
  borrowed (snd (snd (RedisManager.init (m, w)))) = borrowed w.
Proof.
  intros m w.
  assert (Hroom : has_room 1 Examples.fresh) by (vm_compute; lia).
  assert (Hroom' : has_room 1 w) by (vm_compute; lia).
  split; [exact Hroom|].
  destruct (manager_init_rejects_iff_round_trip_fails m Examples.fresh Hroom)
    as (_ & Hok & _).
  destruct (manager_init_rejects_iff_round_trip_fails m w Hroom')
    as (_ & _ & Hthrow & Hb & _).
  split_and!.
  - apply Hok. vm_compute. constructor.
  - apply Hthrow. intros Hclear.
    apply (Forall_lookup_1 _ _ 2 true) in Hclear; [discriminate | vm_compute; reflexivity].
  - exact Hb.
Defined.

(** On the fresh world the handle of [enqueue] is the digest of
    [enqueue.lua], which the server then holds. *)
Lemma init_handles_name_loaded_scripts_witness :
  let r := RedisManager.init
             (RedisManager.new ["dequeue"; "enqueue"; "get_status"; "update_status"],
              Examples.fresh) in
  RedisManager.getScriptSha (fst (snd r)) "enqueue" = Some (Redis.sha1 Redis.EnqueueLua) /\
  Redis.scripts (redis (snd (snd r))) !! Redis.sha1 Redis.EnqueueLua = Some Redis.EnqueueLua.
Proof.
  pose proof (init_handles_name_loaded_scripts
                (RedisManager.new ["dequeue"; "enqueue"; "get_status"; "update_status"])
                Examples.fresh) as Hspec.
  cbv zeta in *.
  destruct (Hspec ltac:(vm_compute; reflexivity) "enqueue" Redis.EnqueueLua)
    as (Hh & _ & Hs).
  - cbn. rewrite !elem_of_cons. auto.
  - vm_compute. reflexivity.
  - reflexivity.
  - now split.
Defined.

(** A second [init] on the world the first one left, with the first round
    trip failing or not. *)
Lemma second_init_changes_nothing_witness :
  let m := RedisManager.new ["dequeue"; "enqueue"; "get_status"; "update_status"] in
  let st1 := snd (RedisManager.init (m, Examples.fresh)) in
  fst (snd (RedisManager.init (fst st1, Examples.with_faults (snd st1) [false; true])))
    = fst st1.
Proof.
  intros m st1.
  exact (proj1 (second_init_changes_nothing m Examples.fresh
                  (Examples.with_faults (snd st1) [false; true])
                  ltac:(vm_compute; reflexivity) eq_refl eq_refl)).
Defined.

Section QueueInitFacts.
Context {Payload : Type} `{JSON Payload}.

(** X6: [init] of the orchestrator ends as the manager's [init] does and leaves
    the world the manager's left. The polling timer is started only on a
    subscriber and only when the scripts were loaded: an [init] that rejects
    starts no timer, and a publisher never polls. The registered consumers
    and the role are left alone. *)
Theorem init_starts_polling_on_subscribers_only :
  forall (q : Queue.t Payload) (w : World),
    let r := Queue.init (q, w) in
    let loaded := RedisManager.init (Queue.redisManager q, w) in
    fst r = fst loaded /\
    snd (snd r) = snd (snd loaded) /\
    Queue.redisManager (fst (snd r)) = fst (snd loaded) /\
    Queue.activeProcessingInterval (fst (snd r)) =
      match fst loaded, Queue.type q with
      | Ok _, subscriber => true
      | _, _ => Queue.activeProcessingInterval q
      end /\
    Queue.consumers (fst (snd r)) = Queue.consumers q /\
    wiring (fst (snd r)) = wiring q.
Proof.
  intros q w. cbv zeta.
  unfold Queue.init, Queue.startActiveProcessing, Queue.in_manager.
  unfold bind, gets, modify, ret. cbn [fst snd].
  destruct (RedisManager.init (Queue.redisManager q, w)) as [[[]|e|] [m' w']];
    cbn [fst snd]; try (now destruct q).
  destruct q as [role sub pub m limits cs timer]. cbn.
  now destruct role.
Qed.

End QueueInitFacts.

(** ** What [add] sends *)

Section AddTraffic.
Context {Payload : Type} `{JSON Payload}.

(** X7: [add] sends at most two commands: the [enqueue] script and then, from
    a publisher only, the notification. The notification is never sent
    unless the script has stored the job before, and it names the queue and
    the group of the call. When a publisher's [add] returns an identity,
    exactly this one message has gone onto the channel. The orchestrator
    itself is never changed by [add]. *)
Theorem add_notifies_only_what_it_stored :
  forall (q : Queue.t Payload) (w : World) (queueName groupName : string)
         (data : Payload) (options : IAddJobOptions),
    let result := Queue.add queueName groupName data options (q, w) in
    let w' := snd (snd result) in
    fst (snd result) = q /\
    (exists tr,
       trace w' = trace w ++ tr /\
       (tr = [] \/
        (exists sha text, tr = [enqueue_cmd sha queueName groupName text options]) \/
        (exists sha text,
           tr = [enqueue_cmd sha queueName groupName text options;
                 newjob_cmd queueName groupName] /\
           Queue.publisherClient q = true /\
           JSON_stringify data = Some text /\
           holds (Redis.next_id (redis w)) text groupName (redis w')))) /\
    (forall reply,
       fst result = Ok (Some reply) ->
       Redis.channel (redis w') =
         if Queue.publisherClient q
         then Redis.channel (redis w) ++ [(Queue.newjob_channel, (queueName, groupName))]
         else Redis.channel (redis w)).
Proof.
  intros q w queueName groupName data options. cbv zeta.
  pose proof (wp_add q w queueName groupName data options) as Hpost.
  unfold wp, add_post in Hpost. cbv zeta in Hpost.
  destruct Hpost as (Hq & tr & Htr & Hcase).
  split; [exact Hq|].
  destruct (fst (Queue.add queueName groupName data options (q, w))) as [[reply|]|e|].
  - destruct Hcase as (_ & _ & sha & text & Htext & _ & Hs).
    destruct (Queue.publisherClient q) eqn:Hpub; destruct Hs as [Hs ->].
    + split.
      * exists [enqueue_cmd sha queueName groupName text options;
                newjob_cmd queueName groupName].
        split; [exact Htr|]. right. right. exists sha, text. split_and!; trivial.
        rewrite Hs. eapply holds_step; [apply step_publish | apply holds_after_add].
      * intros _ _. now rewrite Hs.
    + split.
      * exists [enqueue_cmd sha queueName groupName text options]. split; [exact Htr|]. eauto.
      * intros _ _. now rewrite Hs.
  - split; [|discriminate].
    destruct Hcase
      as (_ & _ & [(_ & Hsent & _) | (Hpub & _ & sha & text & Htext & Hs & ->)]).
    + exists tr. split; [exact Htr|]. destruct Hsent as [->|Hsent]; auto.
    + eexists. split; [exact Htr|]. right. right. exists sha, text. split_and!; trivial.
      rewrite Hs. apply holds_after_add.
  - split; [|discriminate]. destruct Hcase as (_ & _ & ->). exists []. auto.
  - destruct Hcase.
Qed.


End AddTraffic.


(** ** The consumer during a sweep *)

Section FlowFacts.
Context {Payload : Type} `{JSON Payload}.
Implicit Types (q : Queue.t Payload) (w : World) (c : Consumer.t Payload).

Lemma set_consumers_same q : Queue.set_consumers q (Queue.consumers q) = q.
Proof. now destruct q. Qed.

Lemma set_consumers_id q name c :
  Queue.consumers q !! name = Some c ->
  Queue.set_consumers q (<[name := c]> (Queue.consumers q)) = q.
Proof. intros Hc. rewrite insert_id by exact Hc. apply set_consumers_same. Qed.

(** A job handed to a busy consumer, or to none, is dropped. *)
Lemma deliver_unavailable name (jobId : N) (text g : string) q w :
  unavailable name q ->
  Queue.deliver name jobId text g (q, w) = (Ok tt, (q, w)).
Proof.
  unfold unavailable, Queue.deliver, try_catch. intros Hbusy.
  destruct (JSON_parse text) as [jobData|]; [|reflexivity].
  unfold Queue.consumer_process. cbn [fst snd].
  destruct (Queue.consumers q !! name) as [c|] eqn:Hc; [|reflexivity].
  unfold Consumer.process, Consumer.dispatch. rewrite Hbusy. cbn [fst snd].
  unfold ret. now rewrite set_consumers_id.
Qed.

(** A job handed to the sleeping consumer. *)
Lemma deliver_sleeping name (jobId : N) (text g : string) q w c :
  Queue.consumers q !! name = Some c ->
  Consumer.status c = Consumer.SLEEPING ->
  match job_of (jobId, text, g) with
  | None => Queue.deliver name jobId text g (q, w) = (Ok tt, (q, w))
  | Some job =>
      exists c',
        Queue.deliver name jobId text g (q, w) =
          (match Consumer.callback c job with Silent => Hang | _ => Ok tt end,
           (Queue.set_consumers q (<[name := c']> (Queue.consumers q)), w)) /\
        kin c c' /\
        Consumer.handled c' = Consumer.handled c ++ [job] /\
        match Consumer.callback c job with
        | Silent => stuck c'
        | _ => Consumer.status c' = Consumer.SLEEPING
        end
  end.
Proof.
  intros Hc Hs. unfold job_of, Queue.deliver, try_catch. cbn [fst snd].
  destruct (JSON_parse text) as [jobData|]; [|reflexivity].
  unfold Queue.consumer_process. cbn [fst snd]. rewrite Hc.
  unfold Consumer.process, Consumer.dispatch. rewrite Hs. cbn [fst snd].
  unfold Consumer.settle. cbn [Consumer.inflight Consumer.callback].
  destruct (Consumer.callback c (mkJob jobId jobData g)) eqn:Hcb;
    cbn [fst snd]; eexists; (split; [reflexivity|]); cbn;
    (split_and!; [now split | reflexivity | try reflexivity]).
  split; [reflexivity|]. eexists. split_and!; [reflexivity | exact Hcb |].
  cbn [Consumer.handled]. now rewrite last_snoc.
Qed.

Lemma sleeping_abort sha key name groups q w c (e : string) (w' : World) :
  Queue.consumers q !! name = Some c ->
  Consumer.status c = Consumer.SLEEPING ->
  redis w' = redis w -> borrowed w' = borrowed w ->
  (reliable w -> reliable w') ->
  (reliable w -> dequeue_bound sha (redis w) -> False) ->
  sleeping_post sha key name groups c w (Throw e) (q, w').
Proof.
  intros Hc Hs Hr Hb Hrel Hno. exists [], c. unfold handed.
  cbn [fst snd swept_store swept_replies omap].
  split_and!; auto using prefix_nil, kin_refl; try discriminate;
    try (now rewrite app_nil_r);
    try (intros Hw Hbound; destruct (Hno Hw Hbound)).
Qed.

Lemma sleeping_step sha key name g rest c c1 w w1 r (st' : Queue.t Payload * World) :
  redis w1 = visit_store sha key g (redis w) -> borrowed w1 = borrowed w ->
  (reliable w -> reliable w1) ->
  kin c c1 ->
  Consumer.handled c1 =
    Consumer.handled c ++ omap job_of (option_list (visit_reply sha g (redis w))) ->
  sleeping_post sha key name rest c1 w1 r st' ->
  sleeping_post sha key name (g :: rest) c w r st'.
Proof.
  intros Hs Hb Hrel Hkin Hh
    (done & c' & Hpre & Hok & Hs' & Hb' & Hc' & Hkin' & Hh' & Hend & Hrel' & Hno).
  exists (g :: done), c'. unfold handed in *. cbn [swept_store swept_replies].
  split_and!.
  - now apply prefix_cons.
  - intros Hr. now rewrite (Hok Hr).
  - now rewrite Hs', Hs.
  - congruence.
  - exact Hc'.
  - eapply kin_trans; eassumption.
  - rewrite Hh', Hh, omap_app, Hs. now rewrite app_assoc.
  - exact Hend.
  - auto.
  - intros Hw Hbound. apply Hno; [auto|]. rewrite Hs. now apply visit_store_bound.
Qed.

Lemma sweep_groups_sleeping sha key name (groups : list string) :
  forall q w c,
    Queue.consumers q !! name = Some c ->
    Consumer.status c = Consumer.SLEEPING ->
    wp (Queue.sweep_groups sha key name groups)
       (sleeping_post sha key name groups c w) (q, w).
Proof.
  induction groups as [|g rest IH]; intros q w c Hc Hs.
  { cbn [Queue.sweep_groups]. wp_rule. exists [], c. unfold handed.
    cbn [fst snd swept_store swept_replies omap].
    split_and!; auto using kin_refl; try discriminate. now rewrite app_nil_r. }
  cbn [Queue.sweep_groups]. wp_rule. wp_rule. unfold Client.zcard.
  apply wp_roundtrip; intros Hf1; cbn [fst snd]; cbv beta iota.
  { apply sleeping_abort; auto.
    - apply reliable_after_roundtrip.
    - intros Hw _. exact (reliable_no_fault w Hw Hf1). }
  set (w1 := after_roundtrip w (Redis.ZCARD g) (redis w)).
  assert (Hw1 : reliable w -> reliable w1) by apply reliable_after_roundtrip.
  destruct (Redis.zcard g (redis w)) as [|n] eqn:Hcard.
  - wp_rule. wp_rule. unfold Client.srem.
    apply wp_roundtrip; intros Hf2; cbn [fst snd]; cbv beta iota.
    { apply sleeping_abort; auto.
      - intros Hw. now apply reliable_after_roundtrip, Hw1.
      - intros Hw _. exact (reliable_no_fault w1 (Hw1 Hw) Hf2). }
    eapply wp_mono; [apply (IH q _ c Hc Hs)|]. intros r st' Hpost.
    eapply (sleeping_step sha key name g rest c c w); [..|exact Hpost]; auto using kin_refl.
    + unfold visit_store. now rewrite Hcard.
    + intros Hw. now apply reliable_after_roundtrip, Hw1.
    + unfold visit_reply. rewrite Hcard. cbn. now rewrite app_nil_r.
  - wp_rule. wp_rule. unfold Client.evalsha.
    apply wp_roundtrip; intros Hf2; cbn [fst snd]; cbv beta iota.
    { apply sleeping_abort; auto.
      - intros Hw. now apply reliable_after_roundtrip, Hw1.
      - intros Hw _. exact (reliable_no_fault w1 (Hw1 Hw) Hf2). }
    change (redis w1) with (redis w).
    set (w2 := after_roundtrip w1 _ _).
    assert (Hs2 : redis w2 = visit_store sha key g (redis w)).
    { unfold visit_store. now rewrite Hcard. }
    assert (Hb2 : borrowed w2 = borrowed w) by reflexivity.
    assert (Hw2 : reliable w -> reliable w2).
    { intros Hw. now apply reliable_after_roundtrip, Hw1. }
    assert (Hreply : visit_reply sha g (redis w) =
                     match fst (Redis.evalsha sha [g] [] (redis w)) with
                     | Ok result => Queue.as_triple result
                     | _ => None
                     end).
    { unfold visit_reply. now rewrite Hcard. }
    clearbody w2.
    destruct (Redis.evalsha sha [g] [] (redis w)) as [[result|e|] s2] eqn:Hrun;
      cbn [fst snd] in *.
    + destruct (Queue.as_triple result) as [[[jobId text] gname]|] eqn:Htriple.
      * wp_rule. unfold wp.
        pose proof (deliver_sleeping name jobId text gname q w2 c Hc Hs) as Hdel.
        destruct (job_of (jobId, text, gname)) as [job|] eqn:Hjob.
        -- destruct Hdel as (c1 & -> & Hkin1 & Hh1 & Hend1). cbn [fst snd].
           set (q1 := Queue.set_consumers q _).
           assert (Hc1 : Queue.consumers q1 !! name = Some c1).
           { subst q1. destruct q. cbn. now rewrite lookup_insert_eq. }
           assert (Hh1' : Consumer.handled c1 =
                          Consumer.handled c
                            ++ omap job_of (option_list (visit_reply sha g (redis w)))).
           { rewrite Hreply. cbn. now rewrite Hjob. }
           destruct (Consumer.callback c job) eqn:Hcb.
           ++ apply (IH q1 w2 c1 Hc1) in Hend1. unfold wp in Hend1.
              eapply sleeping_step; eauto.
           ++ apply (IH q1 w2 c1 Hc1) in Hend1. unfold wp in Hend1.
              eapply sleeping_step; eauto.
           ++ apply (IH q1 w2 c1 Hc1) in Hend1. unfold wp in Hend1.
              eapply sleeping_step; eauto.
           ++ exists [g], c1. unfold handed. cbn [fst snd swept_store swept_replies].
              rewrite app_nil_r.
              split_and!; auto; try discriminate.
              apply prefix_cons, prefix_nil.
        -- rewrite Hdel. cbn [fst snd].
           pose proof (IH q w2 c Hc Hs) as Hpost. unfold wp in Hpost.
           eapply sleeping_step;
             [exact Hs2 | exact Hb2 | exact Hw2 | apply kin_refl | | exact Hpost].
           rewrite Hreply. cbn. rewrite Hjob. cbn. now rewrite app_nil_r.
      * pose proof (IH q w2 c Hc Hs) as Hpost. unfold wp in Hpost |- *.
        eapply sleeping_step;
          [exact Hs2 | exact Hb2 | exact Hw2 | apply kin_refl | | exact Hpost].
        rewrite Hreply. cbn. now rewrite app_nil_r.
    + apply sleeping_abort; auto.
      * rewrite Hs2. unfold visit_store. rewrite Hcard, Hrun. cbn [snd].
        destruct (evalsha_dequeue_shape sha g (redis w)) as [[e' He]|[_ He]];
          rewrite He in Hrun; inversion Hrun; reflexivity.
      * intros _ Hbound. rewrite (evalsha_dequeue_bound sha g _ Hbound) in Hrun.
        discriminate.
    + destruct (evalsha_settles sha [g] [] (redis w)). now rewrite Hrun.
Qed.

Lemma sweep_groups_unavailable sha key name (groups : list string) :
  forall q w,
    unavailable name q ->
    wp (Queue.sweep_groups sha key name groups)
       (fun r st' => fst st' = q /\ r <> Hang /\ borrowed (snd st') = borrowed w) (q, w).
Proof.
  induction groups as [|g rest IH]; intros q w Hbusy.
  { cbn [Queue.sweep_groups]. wp_rule. cbn. split_and!; auto; discriminate. }
  cbn [Queue.sweep_groups]. wp_rule. wp_rule. unfold Client.zcard.
  apply wp_roundtrip; intros Hf1; cbn [fst snd]; cbv beta iota.
  { split_and!; auto; discriminate. }
  destruct (Redis.zcard g (redis w)) as [|n].
  - wp_rule. wp_rule. unfold Client.srem.
    apply wp_roundtrip; intros Hf2; cbn [fst snd]; cbv beta iota.
    { split_and!; auto; discriminate. }
    eapply wp_mono; [apply (IH q _ Hbusy)|]. intros r st' Hpost. exact Hpost.
  - wp_rule. wp_rule. unfold Client.evalsha.
    apply wp_roundtrip; intros Hf2; cbn [fst snd]; cbv beta iota.
    { split_and!; auto; discriminate. }
    change (redis (after_roundtrip w (Redis.ZCARD g) (redis w))) with (redis w).
    set (w2 := after_roundtrip _ _ _).
    assert (Hb2 : borrowed w2 = borrowed w) by reflexivity.
    pose proof (evalsha_settles sha [g] [] (redis w)) as Hset.
    clearbody w2.
    destruct (Redis.evalsha sha [g] [] (redis w)) as [[result|e|] s2];
      cbn [fst snd] in *; cbv beta iota.
    + destruct (Queue.as_triple result) as [[[jobId text] gname]|].
      * wp_rule. unfold wp. rewrite (deliver_unavailable name jobId text gname q w2 Hbusy).
        cbn [fst snd]. pose proof (IH q w2 Hbusy) as Hpost. unfold wp in Hpost.
        now rewrite Hb2 in Hpost.
      * pose proof (IH q w2 Hbusy) as Hpost. unfold wp in Hpost |- *.
        now rewrite Hb2 in Hpost.
    + split_and!; auto; discriminate.
    + now destruct Hset.
Qed.

Lemma flow_post_idle name q w (r : outcome unit) (w' : World) :
  r = Ok tt /\ fst (next_fault w) = false /\ borrowed w' = borrowed w \/
  (r = Throw "pool is draining and cannot accept work" /\
   fst (next_fault w) = true /\ w' = after_refusal w) ->
  redis w' = redis w ->
  (reliable w ->
   is_Some (RedisManager.getScriptSha (Queue.redisManager q) "dequeue") ->
   [] = Redis.smembers (Queue.groups_key name) (redis w)) ->
  flow_post name q w r (q, w').
Proof.
  intros Hr Hs Hfull. unfold flow_post. cbv zeta. split_and!.
  - destruct Hr as [(-> & Hnf & Hb) | (-> & Hnf & ->)]; cbn; auto.
  - intros _. split; [reflexivity|]. destruct Hr as [(-> & _) | (-> & _)]; discriminate.
  - intros c Hc Hsl. exists [], c. unfold handed. cbn [fst snd swept_store swept_replies omap].
    split_and!; auto using prefix_nil, kin_refl;
      try (now rewrite app_nil_r);
      try (destruct Hr as [(-> & _) | (-> & _)]; exact Hsl).
Qed.

Lemma wp_flow name q w :
  wp (Queue.processQueueTasks name) (flow_post name q w) (q, w).
Proof.
  unfold Queue.processQueueTasks. wp_rule.
  apply wp_getClient; intros Hacq.
  { apply flow_post_idle; auto. intros Hw. destruct (reliable_no_fault w Hw Hacq). }
  set (w1 := after_acquire w).
  assert (Hidle : forall w',
             redis w' = redis w -> borrowed w' = S (borrowed w) ->
             (reliable w ->
              is_Some (RedisManager.getScriptSha (Queue.redisManager q) "dequeue") ->
              [] = Redis.smembers (Queue.groups_key name) (redis w)) ->
             wp (Queue.in_manager RedisManager.releaseClient)
               (fun r2 s'' =>
                  match r2 with
                  | Ok _ => flow_post name q w (Ok tt) s''
                  | Throw e => flow_post name q w (Throw e) s''
                  | Hang => flow_post name q w Hang s''
                  end) (q, w')).
  { intros w' Hs Hb Hfull. apply wp_releaseClient; [lia | intros _].
    apply flow_post_idle; [|exact Hs|exact Hfull]. left. split_and!; auto.
    cbn. now rewrite Hb. }
  wp_rule. wp_rule. wp_rule. wp_rule. cbn [fst snd].
  destruct (RedisManager.getScriptSha (Queue.redisManager q) "dequeue") as [sha|] eqn:Hh.
  2:{ wp_rule. apply Hidle; auto. intros _ [x Hx]. discriminate. }
  wp_rule. wp_rule. unfold Client.smembers.
  apply wp_roundtrip; intros Hf1; cbn [fst snd]; cbv beta iota.
  { wp_rule. apply Hidle; auto. intros Hw _.
    destruct (reliable_no_fault w1 (reliable_after_acquire w Hw) Hf1). }
  change (redis w1) with (redis w).
  set (w2 := after_roundtrip w1 _ _).
  destruct (Redis.smembers (Queue.groups_key name) (redis w)) as [|g groups] eqn:Hgroups.
  { wp_rule. apply Hidle; auto. }
  assert (Hb2 : borrowed w2 = S (borrowed w)) by reflexivity.
  assert (Hs2 : redis w2 = redis w) by reflexivity.
  assert (Hw2 : reliable w -> reliable w2).
  { intros Hw. now apply reliable_after_roundtrip, reliable_after_acquire. }
  clearbody w2.
  pose proof (sweep_groups_unavailable sha (Queue.groups_key name) name (g :: groups) q w2)
    as Hbusy.
  pose proof (sweep_groups_sleeping sha (Queue.groups_key name) name (g :: groups) q w2)
    as Hsleep.
  unfold wp in Hbusy, Hsleep. unfold wp at 1.
  destruct (Queue.sweep_groups sha (Queue.groups_key name) name (g :: groups) (q, w2))
    as [r [q' w']].
  cbn [fst snd] in *.
  assert (Hb' : borrowed w' = S (borrowed w)).
  { destruct (Queue.consumers q !! name) as [c|] eqn:Hc.
    - destruct (Consumer.status c) eqn:Hst.
      + destruct (Hsleep c eq_refl Hst) as (? & ? & _ & _ & _ & Hb & _). cbn in Hb. congruence.
      + destruct Hbusy as (_ & _ & Hb); [unfold unavailable; now rewrite Hc|]. congruence.
    - destruct Hbusy as (_ & _ & Hb); [unfold unavailable; now rewrite Hc|]. congruence. }
  assert (Hpost : forall r0 w'',
             redis w'' = redis w' ->
             match r0 with
             | Ok _ => r <> Hang /\ borrowed w'' = borrowed w
             | Hang => r = Hang /\ borrowed w'' = S (borrowed w)
             | Throw _ => False
             end ->
             flow_post name q w r0 (q', w'')).
  { intros r0 w'' Hs Hr0. unfold flow_post. cbv zeta. rewrite Hh, Hgroups.
    change (default "" (Some sha)) with sha. cbn [fst snd].
    split_and!.
    - destruct r0 as [[]|e|]; cbn; [|destruct Hr0|]; destruct Hr0; auto.
    - intros Hun. destruct (Hbusy Hun) as (-> & Hnh & _). split; [reflexivity|].
      destruct r0 as [[]|e|]; try discriminate. now destruct Hr0.
    - intros c Hc Hsl.
      destruct (Hsleep c Hc Hsl)
        as (done & c' & Hpre & Hok & Hst & _ & Hc' & Hkin & Hhd & Hend & _ & Hno).
      cbn [fst snd] in *. rewrite Hs2 in Hst, Hhd, Hno.
      exists done, c'. rewrite Hs, Hst. split_and!; auto; try discriminate.
      + destruct r0 as [[]|e|]; [|destruct Hr0|].
        * destruct Hr0 as [Hnh _]. destruct r as [[]|e|]; auto. now destruct Hnh.
        * destruct Hr0 as [-> _]. exact Hend.
      + intros Hw _ Hbound ->. destruct Hr0 as [Hnh _]. apply Hok.
        destruct r as [[]|e|]; [reflexivity | | now destruct Hnh].
        now destruct (Hno (Hw2 Hw) Hbound e). }
  assert (Hb0 : borrowed w' <> 0) by lia.
  destruct r as [[]|e|]; cbv beta iota.
  - apply wp_releaseClient; [intros; contradiction | intros _].
    apply Hpost; [reflexivity|]. split; [discriminate|]. cbn. now rewrite Hb'.
  - wp_rule. apply wp_releaseClient; [intros; contradiction | intros _].
    apply Hpost; [reflexivity|]. split; [discriminate|]. cbn. now rewrite Hb'.
  - apply Hpost; [reflexivity|]. now split.
Qed.

End FlowFacts.

(** ** Handlers that find nothing to do *)

Section IdleFacts.
Context {Payload : Type} `{JSON Payload}.
Implicit Types (q : Queue.t Payload) (w : World).

Lemma poll_unavailable (names : list string) q w :
  Forall (fun name => unavailable name q) names ->
  Queue.poll names (q, w) = (Ok tt, (q, w)).
Proof.
  induction names as [|name rest IH]; intros Hall; [reflexivity|].
  apply Forall_cons in Hall as [Hbusy Hrest].
  cbn [Queue.poll]. unfold bind, gets. cbn [fst snd].
  unfold unavailable in Hbusy.
  destruct (Queue.consumers q !! name) as [c|]; cbn [fmap option_fmap option_map].
  - rewrite Hbusy. now apply IH.
  - now apply IH.
Qed.

Lemma on_message_unavailable (chan : string) (message : string * string) q w :
  unavailable (fst message) q ->
  Queue.on_message chan message (q, w) = (Ok tt, (q, w)).
Proof.
  intros Hbusy. unfold Queue.on_message.
  destruct (String.eqb chan Queue.newjob_channel); [|reflexivity].
  unfold try_catch, bind, gets. cbn [fst snd].
  unfold unavailable in Hbusy.
  destruct (Queue.consumers q !! fst message) as [c|]; cbn [fmap option_fmap option_map].
  - now rewrite Hbusy.
  - reflexivity.
Qed.

(** X9: a tick of the polling timer that finds no consumer asleep (or none
    registered, as on every publisher) does nothing at all: it acquires no
    connection and sends no command. *)
Theorem tick_skips_busy_consumers :
  forall q w,
    (forall name c,
       Queue.consumers q !! name = Some c -> Consumer.status c = Consumer.RUNNING) ->
    Queue.tick (q, w) = (Ok tt, (q, w)).
Proof.
  intros q w Hall. unfold Queue.tick, bind, gets. cbn [fst snd].
  apply poll_unavailable. apply Forall_forall. intros name Hin.
  apply list_elem_of_fmap in Hin as ([name' c] & -> & Hin). cbn [fst].
  apply elem_of_map_to_list in Hin. unfold unavailable. rewrite Hin. now apply (Hall name').
Qed.

(** X10: a message on another channel, or a notification for a queue whose
    consumer is busy or that has none, is dropped: the handler acquires no
    connection and sends no command. *)
Theorem notification_for_busy_queue_is_dropped :
  forall (chan : string) (message : string * string) q w,
    chan <> Queue.newjob_channel \/ unavailable (fst message) q ->
    Queue.on_message chan message (q, w) = (Ok tt, (q, w)).
Proof.
  intros chan message q w [Hchan|Hbusy]; [|now apply on_message_unavailable].
  unfold Queue.on_message.
  destruct (String.eqb chan Queue.newjob_channel) eqn:Heq; [|reflexivity].
  now apply String.eqb_eq in Heq.
Qed.

End IdleFacts.

(** ** How a sweep ends *)

Section EndFacts.
Context {Payload : Type} `{JSON Payload}.
Implicit Types (q : Queue.t Payload) (w : World) (c : Consumer.t Payload).

(** X11: on a pool that has a connection to lend, [processQueueTasks]
    rejects only when no connection could be acquired, and then it has sent
    nothing and changed nothing; every later error is swallowed. When it
    resolves it has given the connection back; while it is pending on a
    callback it holds the connection, the one the pool had to lend. *)
Theorem sweep_rejects_only_without_connection :
  forall q w (name : string),
    has_room 1 w ->
    let r := Queue.processQueueTasks name (q, w) in
    (fst (next_fault w) = true ->
     r = (Throw "pool is draining and cannot accept work", (q, after_refusal w))) /\
    (fst (next_fault w) = false ->
     (fst r = Ok tt /\ borrowed (snd (snd r)) = borrowed w) \/
     (fst r = Hang /\ borrowed (snd (snd r)) = S (borrowed w))) /\
    borrowed (snd (snd r)) <= pool_max.
Proof.
  intros q w name Hroom. cbv zeta. unfold has_room in Hroom.
  pose proof (wp_flow name q w) as Hflow. unfold wp, flow_post in Hflow. cbv zeta in Hflow.
  destruct Hflow as (Hend & _).
  destruct (Queue.processQueueTasks name (q, w)) as [[[]|e|] st']; cbn [fst snd] in *.
  - destruct Hend as [Hnf Hb]. split_and!; [congruence | auto | lia].
  - destruct Hend as (Hnf & -> & ->). split_and!; [auto | congruence | cbn in *; lia].
  - destruct Hend as [Hnf Hb]. split_and!; [congruence | auto | lia].
Qed.

(** X12: what one job taken from the store comes to, by the state of the
    consumer at the moment it is dispatched. Whatever the job, the inner
    [try] of the sweep never rejects and sends nothing. A payload that does
    not parse, or a consumer that is busy, and the job is dropped: no
    callback is invoked and the orchestrator is left as it was. A payload
    that parses and a sleeping consumer, and the callback is invoked once on
    the job, with the identity and the group name of the reply; whether it
    reports [done()], [done(err)] or throws, the sweep goes on with the
    consumer asleep again, and when it never signals the sweep stays
    pending with the consumer RUNNING on that job. *)
Theorem delivery_errors_never_end_the_sweep :
  forall q w (name : string) c (jobId : N) (text g : string),
    Queue.consumers q !! name = Some c ->
    let r := Queue.deliver name jobId text g (q, w) in
    snd (snd r) = w /\
    (forall e, fst r <> Throw e) /\
    match job_of (jobId, text, g), Consumer.status c with
    | None, _ => r = (Ok tt, (q, w))
    | Some _, Consumer.RUNNING => r = (Ok tt, (q, w))
    | Some job, Consumer.SLEEPING =>
        id job = jobId /\ groupName job = g /\
        exists c',
          Queue.consumers (fst (snd r)) !! name = Some c' /\
          Consumer.callback c' = Consumer.callback c /\
          Consumer.handled c' = Consumer.handled c ++ [job] /\
          match Consumer.callback c job with
          | Silent => fst r = Hang /\ stuck c'
          | _ => fst r = Ok tt /\ Consumer.status c' = Consumer.SLEEPING
          end
    end.
Proof.
  intros q w name c jobId text g Hc. cbv zeta.
  destruct (Consumer.status c) eqn:Hs.
  - pose proof (deliver_sleeping name jobId text g q w c Hc Hs) as Hd.
    assert (Hjob : forall job, job_of (jobId, text, g) = Some job ->
                               id job = jobId /\ groupName job = g).
    { unfold job_of. cbn [fst snd]. intros job.
      destruct (JSON_parse text); [|discriminate]. now intros [= <-]. }
    destruct (job_of (jobId, text, g)) as [job|].
    + destruct Hd as (c' & -> & Hkin & Hh & Hst). cbn [fst snd].
      split; [reflexivity|].
      split; [intros e; now destruct (Consumer.callback c job)|].
      destruct (Hjob job eq_refl) as [Hid Hg].
      split; [exact Hid|]. split; [exact Hg|].
      exists c'. split; [apply lookup_insert_eq|].
      split; [apply Hkin|]. split; [exact Hh|].
      now destruct (Consumer.callback c job).
    + rewrite Hd. cbn. split_and!; [reflexivity | discriminate | reflexivity].
  - assert (Hbusy : unavailable name q) by (unfold unavailable; now rewrite Hc).
    rewrite (deliver_unavailable name jobId text g q w Hbusy). cbn [fst snd].
    split; [reflexivity|]. split; [discriminate|].
    now destruct (job_of (jobId, text, g)).
Qed.


(** X14: on a pool that has a connection to lend, a sweep is left pending
    only by a callback that never signals. The consumer is then RUNNING on
    that job and the pooled connection, the one the pool had to lend, stays
    borrowed; from then on every tick of the timer that looks at this
    queue, every notification for it and every [process] for it leaves the
    orchestrator and the world as they are: the queue is served no more. *)
Theorem pending_sweep_blocks_queue :
  forall q w (name : string),
    has_room 1 w ->
    let r := Queue.processQueueTasks name (q, w) in
    fst r = Hang ->
    let q' := fst (snd r) in
    (exists c', Queue.consumers q' !! name = Some c' /\ stuck c') /\
    borrowed (snd (snd r)) = S (borrowed w) /\
    borrowed (snd (snd r)) <= pool_max /\
    forall (w2 : World) (g : string) (callback : IJobData Payload -> Completion),
      Queue.poll [name] (q', w2) = (Ok tt, (q', w2)) /\
      Queue.on_message Queue.newjob_channel (name, g) (q', w2) = (Ok tt, (q', w2)) /\
      exists e, Queue.process name callback (q', w2) = (Throw e, (q', w2)).
Proof.
  intros q w name Hroom. cbv zeta. intros Hhang. unfold has_room in Hroom.
  pose proof (wp_flow name q w) as Hflow. unfold wp, flow_post in Hflow. cbv zeta in Hflow.
  destruct Hflow as (Hend & Hun & Hsleep). rewrite Hhang in Hend, Hsleep.
  destruct Hend as [_ Hb].
  assert (Hstuck : exists c',
             Queue.consumers (fst (snd (Queue.processQueueTasks name (q, w)))) !! name
               = Some c' /\ stuck c').
  { destruct (Queue.consumers q !! name) as [c|] eqn:Hc.
    - destruct (Consumer.status c) eqn:Hs.
      + destruct (Hsleep c eq_refl Hs) as (_ & c' & _ & _ & _ & Hc' & _ & _ & Hst & _). eauto.
      + destruct Hun as [_ Hnh]; [unfold unavailable; now rewrite Hc|]. now destruct Hnh.
    - destruct Hun as [_ Hnh]; [unfold unavailable; now rewrite Hc|]. now destruct Hnh. }
  split; [exact Hstuck|]. split; [exact Hb|]. split; [cbn [fst snd] in Hb; lia|].
  destruct Hstuck as (c' & Hc' & Hrun & _).
  set (q' := fst (snd (Queue.processQueueTasks name (q, w)))) in *.
  assert (Hbusy : unavailable name q') by (unfold unavailable; now rewrite Hc').
  intros w2 g callback. split_and!.
  - apply poll_unavailable. now apply Forall_singleton.
  - now apply on_message_unavailable.
  - unfold Queue.process, bind, gets, throw. cbn [fst snd].
    destruct (Queue.type q'); cbn [fst snd]; [eauto|]. rewrite Hc'. eauto.
Qed.

End EndFacts.

(** The sweep of the examples, which resolves with nothing borrowed; and
    a sweep refused its connection. *)
Lemma sweep_rejects_only_without_connection_witness :
  let q := Examples.two_groups_q in
  let w := Examples.two_groups_w in
  let r := Queue.processQueueTasks "Q" (q, w) in
  let refused := Queue.processQueueTasks "Q" (q, Examples.with_faults w [true]) in
  has_room 1 w /\
  fst r = Ok tt /\
  borrowed (snd (snd r)) = borrowed w /\
  refused = (Throw "pool is draining and cannot accept work",
             (q, after_refusal (Examples.with_faults w [true]))).
Proof.
  intros q w r refused.
  assert (Hroom : has_room 1 w) by (vm_compute; lia).
  assert (Hroom' : has_room 1 (Examples.with_faults w [true]))
    by (vm_compute; lia).
  split; [exact Hroom|].
  destruct (sweep_rejects_only_without_connection q w "Q" Hroom) as (_ & Hgo & _).
  destruct (sweep_rejects_only_without_connection q (Examples.with_faults w [true]) "Q"
              Hroom') as (Hno & _).
  split; [vm_compute; reflexivity|]. split.
  - destruct (Hgo eq_refl) as [[_ Hb]|[Hh _]]; [exact Hb|].
    vm_compute in Hh. discriminate.
  - exact (Hno eq_refl).
Defined.

(** The consumer of the example that reports failures is handed the job at
    the head of [G1]: the error goes no further, and the consumer sleeps. *)
Lemma delivery_errors_never_end_the_sweep_witness :
  let q := Examples.two_groups_failing_q in
  let w := Examples.two_groups_w in
  let r := Queue.deliver "Q" 0%N "10" "G1" (q, w) in
  fst r = Ok tt /\
  snd (snd r) = w /\
  handled_at "Q" (fst (snd r)) = [mkJob 0%N 10 "G1"] /\
  exists c',
    Queue.consumers (fst (snd r)) !! "Q" = Some c' /\
    Consumer.status c' = Consumer.SLEEPING.
Proof.
  intros q w r.
  set (c := Consumer.new "Q" (fun _ : IJobData nat => Failed "boom")).
  assert (Hc : Queue.consumers q !! "Q" = Some c) by (vm_compute; reflexivity).
  destruct (delivery_errors_never_end_the_sweep q w "Q" c 0%N "10" "G1" Hc)
    as (Hw & _ & Hjob).
  change (job_of (0%N, "10", "G1")) with (Some (mkJob 0%N 10 "G1")) in Hjob.
  cbn [Consumer.status c Consumer.new Consumer.callback] in Hjob.
  destruct Hjob as (_ & _ & c' & Hc' & _ & _ & Hok & Hs).
  split; [exact Hok|]. split; [exact Hw|]. split; [vm_compute; reflexivity|].
  exists c'. now split.
Defined.


(** The sweep of the example with the silent callback. *)
Lemma pending_sweep_blocks_queue_witness :
  borrowed Examples.wedged_w = S (borrowed Examples.two_groups_w) /\
  Queue.on_message Queue.newjob_channel ("Q", "G2") (Examples.wedged_q, Examples.wedged_w)
    = (Ok tt, (Examples.wedged_q, Examples.wedged_w)).
Proof.
  destruct (pending_sweep_blocks_queue Examples.two_groups_silent_q Examples.two_groups_w "Q")
    as (_ & Hb & _ & Hlater).
  - vm_compute. lia.
  - vm_compute. reflexivity.
  - split.
    + etransitivity; [|exact Hb]. vm_compute. reflexivity.
    + destruct (Hlater Examples.wedged_w "G2" (fun _ => Done)) as (_ & Hmsg & _).
      etransitivity; [|etransitivity; [exact Hmsg|]]; vm_compute; reflexivity.
Defined.

(** The consumer of the wedged example is RUNNING on a job whose callback
    never signalled: the tick passes it over, although [G1] has jobs. *)
Lemma tick_skips_busy_consumers_witness :
  Consumer.status <$> Queue.consumers Examples.wedged_q !! "Q" = Some Consumer.RUNNING /\
  Redis.zcard "qtask:Q:group:G1" (redis Examples.wedged_w) = 9 /\
  Queue.tick (Examples.wedged_q, Examples.wedged_w)
    = (Ok tt, (Examples.wedged_q, Examples.wedged_w)).
Proof.
  split; [vm_compute; reflexivity|]. split; [vm_compute; reflexivity|].
  apply (tick_skips_busy_consumers Examples.wedged_q Examples.wedged_w).
  intros name c Hc.
  assert (Hmap : Queue.consumers Examples.wedged_q =
                 {[ "Q" := Consumer.mk Consumer.RUNNING "Q" (fun _ : IJobData nat => Silent)
                             [mkJob 0%N 10 "G1"] [mkJob 0%N 10 "G1"] ]})
    by (vm_compute; reflexivity).
  rewrite Hmap in Hc. apply lookup_singleton_Some in Hc as [_ <-]. reflexivity.
Defined.

(** A notification for the queue of the wedged consumer. *)
Lemma notification_for_busy_queue_is_dropped_witness :
  Queue.on_message Queue.newjob_channel ("Q", "G1") (Examples.wedged_q, Examples.wedged_w)
    = (Ok tt, (Examples.wedged_q, Examples.wedged_w)).
Proof.
  apply (notification_for_busy_queue_is_dropped Queue.newjob_channel ("Q", "G1")
           Examples.wedged_q Examples.wedged_w).
  right. vm_compute. reflexivity.
Defined.

(** ** The notification handler *)

Section MessageFacts.
Context {Payload : Type} `{JSON Payload}.
Implicit Types (q : Queue.t Payload) (w : World) (c : Consumer.t Payload).

(** What the handler of the ['message'] event leaves, whatever it ran
    into. *)
Lemma on_message_flow :
  forall (chan : string) (message : string * string) q w,
    let r := Queue.on_message chan message (q, w) in
    (forall e, fst r <> Throw e) /\
    same_instance (fst message) q (fst (snd r)) /\
    files (snd (snd r)) = files w /\
    (fst r = Ok tt -> borrowed (snd (snd r)) = borrowed w) /\
    (fst r = Hang -> borrowed (snd (snd r)) = S (S (borrowed w))).
Proof.
  intros chan message q w. cbv zeta.
  change (wp (Queue.on_message chan message)
            (fun r st' =>
               (forall e, r <> Throw e) /\
               same_instance (fst message) q (fst st') /\
               files (snd st') = files w /\
               (r = Ok tt -> borrowed (snd st') = borrowed w) /\
               (r = Hang -> borrowed (snd st') = S (S (borrowed w)))) (q, w)).
  assert (Hdone : forall w',
             files w' = files w -> borrowed w' = borrowed w ->
             (forall e, Ok tt <> Throw e :> outcome unit) /\
             same_instance (fst message) q (fst (q, w')) /\
             files (snd (q, w')) = files w /\
             (Ok tt = Ok tt -> borrowed (snd (q, w')) = borrowed w) /\
             (Ok tt = Hang -> borrowed (snd (q, w')) = S (S (borrowed w)))).
  { intros w' Hf Hb. split_and!; auto using same_instance_refl; discriminate. }
  unfold Queue.on_message.
  destruct (String.eqb chan Queue.newjob_channel); [|wp_rule; now apply Hdone].
  wp_rule. wp_rule. wp_rule. cbn [fst snd].
  destruct (Queue.consumers q !! fst message) as [c|] eqn:Hc;
    cbn [fmap option_fmap option_map]; [|wp_rule; now apply Hdone].
  destruct (Consumer.status c) eqn:Hs; [|wp_rule; now apply Hdone].
  wp_rule. apply wp_getClient; intros Hacq.
  { wp_rule. now apply Hdone. }
  wp_rule. wp_rule. wp_rule. unfold Client.zcard.
  apply wp_roundtrip; intros Hf1; cbn [fst snd]; cbv beta iota.
  { apply wp_releaseClient; [discriminate | intros _]. wp_rule. now apply Hdone. }
  set (w2 := after_roundtrip _ _ _).
  assert (Hb2 : borrowed w2 = S (borrowed w)) by reflexivity.
  assert (Hf2 : files w2 = files w) by reflexivity.
  destruct (Redis.zcard _ _) as [|n].
  { wp_rule. apply wp_releaseClient; [discriminate | intros _]. now apply Hdone. }
  clearbody w2.
  pose proof (wp_flow (fst message) q w2) as Hflow.
  pose proof (wp_processQueueTasks (fst message) q w2) as Hpost.
  unfold wp in Hflow, Hpost |- *. unfold flow_post, process_post in Hflow, Hpost.
  cbv zeta in Hflow, Hpost.
  destruct Hflow as (Hend & _).
  destruct Hpost as (_ & _ & _ & _ & _ & Hfiles & _ & _ & Hsame & _).
  destruct (Queue.processQueueTasks (fst message) (q, w2)) as [r [q' w']].
  cbn [fst snd] in *.
  destruct r as [[]|e|]; cbn [fst snd].
  - destruct Hend as [_ Hb]. cbn [fst snd] in Hb.
    assert (Hrel : wp (Queue.in_manager RedisManager.releaseClient)
              (fun r2 s'' => r2 = Ok tt /\ s'' = (q', after_release w')) (q', w')).
    { apply wp_releaseClient; [intros Hz; rewrite Hb, Hb2 in Hz; discriminate | auto]. }
    unfold wp in Hrel.
    destruct (Queue.in_manager RedisManager.releaseClient (q', w')) as [r2 s''].
    cbn [fst snd] in Hrel. destruct Hrel as [-> ->]. cbn [fst snd].
    split_and!; auto; try discriminate.
    + cbn. congruence.
    + intros _. cbn. rewrite Hb, Hb2. reflexivity.
  - destruct Hend as (_ & _ & Hst). injection Hst as -> ->.
    assert (Hrel : wp (Queue.in_manager RedisManager.releaseClient)
              (fun r2 s'' => r2 = Ok tt /\ s'' = (q, after_release (after_refusal w2)))
              (q, after_refusal w2)).
    { apply wp_releaseClient; [intros Hz; cbn in Hz; rewrite Hb2 in Hz; discriminate | auto]. }
    unfold wp in Hrel.
    destruct (Queue.in_manager RedisManager.releaseClient (q, after_refusal w2)) as [r2 s''].
    cbn [fst snd] in Hrel. destruct Hrel as [-> ->]. cbn [fst snd]. unfold ret. cbn [fst snd].
    split_and!; auto; try discriminate.
    intros _. cbn. rewrite Hb2. reflexivity.
  - destruct Hend as [_ Hb]. cbn [fst snd] in Hb. split_and!; auto; try discriminate.
    + congruence.
    + intros _. now rewrite Hb, Hb2.
Qed.

(** X15: the handler of the ['message'] event never rejects: whatever fails
    inside it is caught and logged. It changes at most the consumer of the
    queue the message names. On a pool that has two connections to lend,
    when it resolves it has given back what it borrowed; while it is left
    pending (by a callback that never signals) it holds two connections,
    its own and the one of the sweep it started, which the pool had to
    lend. *)
Theorem message_handler_never_rejects :
  forall (chan : string) (message : string * string) q w,
    has_room 2 w ->
    let r := Queue.on_message chan message (q, w) in
    (forall e, fst r <> Throw e) /\
    same_instance (fst message) q (fst (snd r)) /\
    files (snd (snd r)) = files w /\
    (fst r = Ok tt -> borrowed (snd (snd r)) = borrowed w) /\
    (fst r = Hang -> borrowed (snd (snd r)) = S (S (borrowed w))) /\
    borrowed (snd (snd r)) <= pool_max.
Proof.
  intros chan message q w Hroom. cbv zeta. unfold has_room in Hroom.
  pose proof (on_message_flow chan message q w) as Hflow. cbv zeta in Hflow.
  destruct Hflow as (Hno & Hsame & Hfiles & Hok & Hhang).
  split_and!; trivial.
  destruct (fst (Queue.on_message chan message (q, w))) as [[]|e|].
  - rewrite Hok by reflexivity. lia.
  - now destruct (Hno e).
  - rewrite Hhang by reflexivity. lia.
Qed.

(** The handler on a notification for a queue whose consumer sleeps, when
    its own two round trips succeed. *)
Lemma on_message_awake (message : string * string) q w c :
  Queue.consumers q !! fst message = Some c ->
  Consumer.status c = Consumer.SLEEPING ->
  clear_ahead 2 w ->
  let w1 := after_roundtrip (after_acquire w)
              (Redis.ZCARD (Queue.group_key (fst message) (snd message))) (redis w) in
  let swept := Queue.processQueueTasks (fst message) (q, w1) in
  Queue.on_message Queue.newjob_channel message (q, w) =
  match Redis.zcard (Queue.group_key (fst message) (snd message)) (redis w) with
  | O => (Ok tt, (q, after_release w1))
  | S _ =>
      (match fst swept with Throw _ => Ok tt | settled => settled end,
       (fst (snd swept),
        match fst swept with
        | Hang => snd (snd swept)
        | _ => after_release (snd (snd swept))
        end))
  end.
Proof.
  intros Hc Hs Hclear. cbv zeta.
  apply clear_ahead_S in Hclear as [Hacq Hclear].
  assert (Hf1 : fst (next_fault (after_acquire w)) = false).
  { specialize (Hclear (after_acquire w) eq_refl). now apply clear_ahead_S in Hclear as [? _]. }
  clear Hclear.
  set (gk := Queue.group_key (fst message) (snd message)).
  set (w1 := after_roundtrip (after_acquire w) (Redis.ZCARD gk) (redis w)).
  set (X := match Redis.zcard gk (redis w) with O => _ | S _ => _ end).
  enough (Hwp : wp (Queue.on_message Queue.newjob_channel message)
                  (fun r st' => (r, st') = X) (q, w)).
  { unfold wp in Hwp. now destruct (Queue.on_message Queue.newjob_channel message (q, w)). }
  unfold Queue.on_message. cbn [String.eqb Ascii.eqb Bool.eqb Queue.newjob_channel].
  wp_rule. wp_rule. wp_rule. cbn [fst snd]. rewrite Hc. cbn [fmap option_fmap option_map].
  rewrite Hs. wp_rule. apply wp_getClient; intros Hacq'; [congruence|].
  wp_rule. wp_rule. wp_rule. unfold Client.zcard. fold gk.
  apply wp_roundtrip; intros Hf1'; [congruence|]. cbn [fst snd]; cbv beta iota.
  change (redis (after_acquire w)) with (redis w) in *. fold w1. subst X.
  assert (Hb1 : borrowed w1 = S (borrowed w)) by reflexivity.
  destruct (Redis.zcard gk (redis w)) as [|n].
  { wp_rule. apply wp_releaseClient; [rewrite Hb1; discriminate | auto]. }
  pose proof (wp_flow (fst message) q w1) as Hflow.
  unfold wp in Hflow |- *. unfold flow_post in Hflow. cbv zeta in Hflow.
  destruct Hflow as (Hend & _).
  destruct (Queue.processQueueTasks (fst message) (q, w1)) as [r [q' w']].
  cbn [fst snd] in *.
  assert (Hrel : r <> Hang ->
            Queue.in_manager RedisManager.releaseClient (q', w')
              = (Ok tt, (q', after_release w'))).
  { intros Hnh.
    assert (Hb : borrowed w' <> 0).
    { destruct r as [[]|e|].
      - destruct Hend as [_ Hb]. cbn [fst snd] in Hb. rewrite Hb, Hb1. discriminate.
      - destruct Hend as (_ & _ & Hst). injection Hst as -> ->. cbn. discriminate.
      - now destruct Hnh. }
    pose proof (wp_releaseClient
                  (fun r2 s'' => (r2, s'') = (Ok tt, (q', after_release w'))) q' w') as Hwp.
    unfold wp in Hwp.
    destruct (Queue.in_manager RedisManager.releaseClient (q', w')) as [r2 s''].
    apply Hwp; [intros Hz; contradiction | auto]. }
  destruct r as [[]|e|]; cbn [fst snd].
  - rewrite Hrel by discriminate. reflexivity.
  - rewrite Hrel by discriminate. reflexivity.
  - reflexivity.
Qed.

(** X16: a notification that comes after its job was taken already, the group
    being empty by now, costs one [ZCARD] and nothing else. *)
Theorem stale_notification_costs_one_zcard :
  forall (message : string * string) q w c,
    Queue.consumers q !! fst message = Some c ->
    Consumer.status c = Consumer.SLEEPING ->
    clear_ahead 2 w ->
    Redis.zcard (Queue.group_key (fst message) (snd message)) (redis w) = 0 ->
    let r := Queue.on_message Queue.newjob_channel message (q, w) in
    fst r = Ok tt /\
    fst (snd r) = q /\
    trace (snd (snd r)) =
      trace w ++ [Redis.ZCARD (Queue.group_key (fst message) (snd message))] /\
    redis (snd (snd r)) = redis w /\
    borrowed (snd (snd r)) = borrowed w.
Proof.
  intros message q w c Hc Hs Hclear Hcard. cbv zeta.
  pose proof (on_message_awake message q w c Hc Hs Hclear) as Heq. cbv zeta in Heq.
  rewrite Hcard in Heq. rewrite Heq. cbn. auto.
Qed.

(** X17: a notification for a group that has jobs starts a sweep of the whole
    queue, not of that group alone: the handler ends as
    [processQueueTasks] does on the world its own [ZCARD] left, with the
    rejection of the sweep swallowed and the handler's connection given
    back unless the sweep is pending. *)
Theorem notification_sweeps_whole_queue :
  forall (message : string * string) q w c,
    Queue.consumers q !! fst message = Some c ->
    Consumer.status c = Consumer.SLEEPING ->
    clear_ahead 2 w ->
    Redis.zcard (Queue.group_key (fst message) (snd message)) (redis w) <> 0 ->
    let w1 := after_roundtrip (after_acquire w)
                (Redis.ZCARD (Queue.group_key (fst message) (snd message))) (redis w) in
    let swept := Queue.processQueueTasks (fst message) (q, w1) in
    Queue.on_message Queue.newjob_channel message (q, w) =
      (match fst swept with Throw _ => Ok tt | settled => settled end,
       (fst (snd swept),
        match fst swept with
        | Hang => snd (snd swept)
        | _ => after_release (snd (snd swept))
        end)).
Proof.
  intros message q w c Hc Hs Hclear Hcard. cbv zeta.
  pose proof (on_message_awake message q w c Hc Hs Hclear) as Heq. cbv zeta in Heq.
  destruct (Redis.zcard (Queue.group_key (fst message) (snd message)) (redis w));
    [now destruct Hcard | exact Heq].
Qed.

End MessageFacts.

(** A notification for [G2] of the example: the handler sweeps [G1] as
    well, and the consumer is handed the head of both groups. *)
Lemma notification_sweeps_whole_queue_witness :
  handled_at "Q"
    (fst (snd (Queue.on_message Queue.newjob_channel ("Q", "G2")
                 (Examples.two_groups_q, Examples.two_groups_w))))
  = [mkJob 0%N 10 "G1"; mkJob 10%N 99 "G2"].
Proof.
  rewrite (notification_sweeps_whole_queue ("Q", "G2") Examples.two_groups_q
             Examples.two_groups_w (Consumer.new "Q" (fun _ => Done))).
  - vm_compute. reflexivity.
  - vm_compute. reflexivity.
  - reflexivity.
  - vm_compute. repeat constructor.
  - vm_compute. discriminate.
Defined.

(** A notification for a group [G3] that has no jobs. *)
Lemma stale_notification_costs_one_zcard_witness :
  let r := Queue.on_message Queue.newjob_channel ("Q", "G3")
             (Examples.two_groups_q, Examples.two_groups_w) in
  fst r = Ok tt /\ redis (snd (snd r)) = redis Examples.two_groups_w.
Proof.
  intros r.
  destruct (stale_notification_costs_one_zcard ("Q", "G3") Examples.two_groups_q
              Examples.two_groups_w (Consumer.new "Q" (fun _ => Done)))
    as (Hr & _ & _ & Hs & _).
  - vm_compute. reflexivity.
  - reflexivity.
  - vm_compute. repeat constructor.
  - vm_compute. reflexivity.
  - now split.
Defined.

(** The handler of the example with the silent callback is left pending
    with two connections. *)
Lemma message_handler_never_rejects_witness :
  let r := Queue.on_message Queue.newjob_channel ("Q", "G2")
             (Examples.two_groups_silent_q, Examples.two_groups_w) in
  fst r = Hang /\ borrowed (snd (snd r)) = S (S (borrowed Examples.two_groups_w)).
Proof.
  intros r.
  assert (Hr : fst r = Hang) by (vm_compute; reflexivity).
  split; [exact Hr|].
  assert (Hroom : has_room 2 Examples.two_groups_w) by (vm_compute; lia).
  destruct (message_handler_never_rejects Queue.newjob_channel ("Q", "G2")
              Examples.two_groups_silent_q Examples.two_groups_w Hroom)
    as (_ & _ & _ & _ & Hhang & _).
  exact (Hhang Hr).
Defined.

(** ** What the calls leave alone *)

Section StaysRules.
Context {S X : Type} (f : S -> X).

Lemma stays_ret {A : Type} (a : A) : stays f (ret a).
Proof. intros s. reflexivity. Qed.

Lemma stays_throw {A : Type} (e : string) : stays (A := A) f (throw e).
Proof. intros s. reflexivity. Qed.

Lemma stays_gets {A : Type} (g : S -> A) : stays f (gets g).
Proof. intros s. reflexivity. Qed.

Lemma stays_bind {A B : Type} (m : M S A) (k : A -> M S B) :
  stays f m -> (forall a, stays f (k a)) -> stays f (bind m k).
Proof.
  intros Hm Hk s. unfold bind. specialize (Hm s).
  destruct (m s) as [[a|e|] s1]; cbn [fst snd] in *; try exact Hm.
  now rewrite Hk.
Qed.

Lemma stays_try_catch {A : Type} (m : M S A) (h : string -> M S A) :
  stays f m -> (forall e, stays f (h e)) -> stays f (try_catch m h).
Proof.
  intros Hm Hh s. unfold try_catch. specialize (Hm s).
  destruct (m s) as [[a|e|] s1]; cbn [fst snd] in *; try exact Hm.
  now rewrite Hh.
Qed.

Lemma stays_finally {A : Type} (m : M S A) (cleanup : M S unit) :
  stays f m -> stays f cleanup -> stays f (finally m cleanup).
Proof.
  intros Hm Hc s. unfold finally. specialize (Hm s).
  destruct (m s) as [[a|e|] s1]; cbn [fst snd] in *; try exact Hm;
    specialize (Hc s1); destruct (cleanup s1) as [[[]|e2|] s2]; cbn [fst snd] in *;
    congruence.
Qed.

End StaysRules.

Lemma roundtrip_files {A : Type} (cmd : Redis.Cmd)
    (exec : Redis.Store -> outcome A * Redis.Store) :
  stays files (roundtrip cmd exec).
Proof.
  intros w. unfold roundtrip. destruct (next_fault w) as [[|] later]; [reflexivity|].
  now destruct (exec (redis w)).
Qed.

Section SettingsFacts.
Context {Payload : Type} `{JSON Payload}.
Implicit Types (q : Queue.t Payload) (w : World).

Lemma settings_in_world {A : Type} (m : M World A) :
  stays files m -> stays (settings (Payload := Payload)) (in_world m).
Proof.
  intros Hm [q w]. unfold in_world, settings. cbn [fst snd]. specialize (Hm w).
  destruct (m w) as [r w']. cbn [fst snd] in *. now rewrite Hm.
Qed.

Lemma settings_getClient :
  stays (settings (Payload := Payload)) (Queue.in_manager RedisManager.getClient).
Proof.
  intros [q w].
  apply (wp_getClient (fun _ st' => settings st' = settings (q, w))); reflexivity.
Qed.

Lemma settings_releaseClient :
  stays (settings (Payload := Payload)) (Queue.in_manager RedisManager.releaseClient).
Proof.
  intros [q w].
  apply (wp_releaseClient (fun _ st' => settings st' = settings (q, w))); reflexivity.
Qed.

Lemma settings_deliver name (jobId : N) (text g : string) :
  stays (settings (Payload := Payload)) (Queue.deliver name jobId text g).
Proof.
  unfold Queue.deliver. apply stays_try_catch; [|intros _; apply stays_ret].
  destruct (JSON_parse text) as [jobData|]; [|apply stays_throw].
  intros [q w]. unfold Queue.consumer_process. cbn [fst snd].
  destruct (Queue.consumers q !! name) as [c|]; [|reflexivity].
  now destruct (Consumer.process c _).
Qed.

Lemma settings_sweep_groups sha key name (groups : list string) :
  stays (settings (Payload := Payload)) (Queue.sweep_groups sha key name groups).
Proof.
  induction groups as [|g rest IH]; [apply stays_ret|].
  cbn [Queue.sweep_groups].
  apply stays_bind; [apply settings_in_world, roundtrip_files|]. intros [|n].
  - apply stays_bind; [apply settings_in_world, roundtrip_files | intros _; exact IH].
  - apply stays_bind; [apply settings_in_world, roundtrip_files|]. intros result.
    destruct (Queue.as_triple result) as [[[jobId text] gname]|]; [|exact IH].
    apply stays_bind; [apply settings_deliver | intros _; exact IH].
Qed.

Lemma settings_sweep name :
  stays (settings (Payload := Payload)) (Queue.processQueueTasks name).
Proof.
  unfold Queue.processQueueTasks.
  apply stays_bind; [apply settings_getClient|]. intros _.
  apply stays_finally; [|apply settings_releaseClient].
  apply stays_try_catch; [|intros _; apply stays_ret].
  apply stays_bind; [apply stays_gets|]. intros [sha|]; [|apply stays_ret].
  apply stays_bind; [apply settings_in_world, roundtrip_files|]. intros [|g groups].
  - apply stays_ret.
  - apply settings_sweep_groups.
Qed.

Lemma settings_poll (names : list string) :
  stays (settings (Payload := Payload)) (Queue.poll names).
Proof.
  induction names as [|name rest IH]; [apply stays_ret|].
  cbn [Queue.poll]. apply stays_bind; [apply stays_gets|]. intros consumer.
  destruct (Consumer.status <$> consumer) as [[|]|]; try exact IH.
  apply stays_bind; [apply settings_sweep | intros _; exact IH].
Qed.

Lemma settings_message chan message :
  stays (settings (Payload := Payload)) (Queue.on_message chan message).
Proof.
  unfold Queue.on_message. destruct (String.eqb chan Queue.newjob_channel); [|apply stays_ret].
  apply stays_try_catch; [|intros _; apply stays_ret].
  apply stays_bind; [apply stays_gets|]. intros consumer.
  destruct (Consumer.status <$> consumer) as [[|]|]; try apply stays_ret.
  apply stays_bind; [apply settings_getClient|]. intros _.
  apply stays_finally; [|apply settings_releaseClient].
  apply stays_bind; [apply settings_in_world, roundtrip_files|].
  intros [|n]; [apply stays_ret | apply settings_sweep].
Qed.

Lemma settings_add queueName groupName (data : Payload) options :
  stays (settings (Payload := Payload)) (Queue.add queueName groupName data options).
Proof.
  unfold Queue.add.
  apply stays_bind; [apply settings_getClient|]. intros _.
  apply stays_finally; [|apply settings_releaseClient].
  apply stays_try_catch; [|intros _; apply stays_ret].
  apply stays_bind; [apply stays_gets|]. intros [sha|]; [|apply stays_ret].
  destruct (JSON_stringify data) as [text|]; [|apply stays_throw].
  apply stays_bind; [apply settings_in_world, roundtrip_files|]. intros jobId.
  apply stays_bind; [apply stays_gets|]. intros [|].
  - apply stays_bind; [apply settings_in_world, roundtrip_files | intros _; apply stays_ret].
  - apply stays_bind; [apply stays_ret | intros _; apply stays_ret].
Qed.

Lemma settings_process name (callback : IJobData Payload -> Completion) :
  stays (settings (Payload := Payload)) (Queue.process name callback).
Proof.
  intros [q w]. rewrite process_unfold.
  destruct (Queue.type q); [reflexivity|].
  destruct (Queue.consumers q !! name); [reflexivity|].
  now rewrite settings_sweep.
Qed.

(** X18: the handles under which [add] and the sweeps look their scripts up
    change at [init] only: no other call of the application or of the
    runtime touches the manager. No call at all changes the script files. *)
Theorem handles_change_at_init_only :
  forall (call : Call Payload) q w,
    let st' := snd (perform call (q, w)) in
    files (snd st') = files w /\
    (call <> CallInit -> Queue.redisManager (fst st') = Queue.redisManager q).
Proof.
  intros call q w. cbv zeta.
  assert (Hall : call <> CallInit -> settings (snd (perform call (q, w))) = settings (q, w)).
  { intros Hcall. destruct call; cbn [perform].
    - now destruct Hcall.
    - apply stays_bind; [apply settings_add | intros _; apply stays_ret].
    - apply settings_process.
    - unfold Queue.tick. apply stays_bind; [apply stays_gets|]. intros entries.
      apply settings_poll.
    - apply settings_message. }
  assert (Hcase : call = CallInit \/ call <> CallInit).
  { destruct call; auto; right; discriminate. }
  destruct Hcase as [->|Hcall].
  - split; [|intros Hne; now destruct Hne]. cbn [perform].
    unfold Queue.init, Queue.startActiveProcessing, Queue.in_manager, bind, gets, modify, ret.
    cbn [fst snd].
    pose proof (manager_init_flow (Queue.redisManager q) w) as Hflow. cbv zeta in Hflow.
    destruct Hflow as (_ & _ & _ & Hf & _).
    destruct (RedisManager.init (Queue.redisManager q, w)) as [[[]|e|] [m' w']];
      cbn [fst snd] in *; try exact Hf.
    now destruct (Queue.type (Queue.set_manager q m')).
  - specialize (Hall Hcall). unfold settings in Hall. cbn [fst snd] in Hall.
    injection Hall as Hm Hf. auto.
Qed.

End SettingsFacts.

(** ** A publisher *)

Section PublisherFacts.
Context {Payload : Type} `{JSON Payload}.
Implicit Types (q : Queue.t Payload) (w : World).

Lemma init_frame q w :
  let r := Queue.init (q, w) in
  snd (snd r) = snd (snd (RedisManager.init (Queue.redisManager q, w))) /\
  Queue.consumers (fst (snd r)) = Queue.consumers q /\
  (Queue.type q = publisher ->
   Queue.activeProcessingInterval (fst (snd r)) = Queue.activeProcessingInterval q).
Proof.
  cbv zeta. unfold Queue.init, Queue.startActiveProcessing, Queue.in_manager.
  unfold bind, gets, modify, ret. cbn [fst snd].
  destruct (RedisManager.init (Queue.redisManager q, w)) as [[[]|e|] [m' w']];
    cbn [fst snd]; try (now destruct q).
  destruct q as [role sub pub m limits cs timer]. cbn.
  destruct role; split_and!; try reflexivity. discriminate.
Qed.

(** A publisher at rest: no consumer, no timer. *)
Lemma publisher_perform (call : Call Payload) q w :
  Queue.type q = publisher ->
  Queue.consumers q = ∅ ->
  Queue.activeProcessingInterval q = false ->
  let r := perform call (q, w) in
  Queue.consumers (fst (snd r)) = ∅ /\
  Queue.activeProcessingInterval (fst (snd r)) = false /\
  exists tr,
    trace (snd (snd r)) = trace w ++ tr /\ Forall (fun c => ~ reads_queue c) tr.
Proof.
  intros Hty Hcs Htimer. cbv zeta.
  assert (Hnone : forall q0 w0,
             q0 = q -> w0 = w ->
             Queue.consumers q0 = ∅ /\
             Queue.activeProcessingInterval q0 = false /\
             exists tr, trace w0 = trace w ++ tr /\ Forall (fun c => ~ reads_queue c) tr).
  { intros q0 w0 -> ->. split_and!; trivial. exists []. now rewrite app_nil_r. }
  destruct call as [|queueName groupName data options|name callback| |chan message];
    cbn [perform].
  - destruct (init_frame q w) as (Hw & Hc & Hi). rewrite Hw, Hc, (Hi Hty).
    split_and!; trivial.
    pose proof (manager_init_flow (Queue.redisManager q) w) as Hflow. cbv zeta in Hflow.
    destruct Hflow as (_ & _ & _ & _ & _ & _ & (k & _ & Htr & _) & _).
    eexists. split; [exact Htr|].
    apply Forall_fmap, Forall_forall. intros entry _ Hread. exact Hread.
  - pose proof (wp_add q w queueName groupName data options) as Hpost.
    unfold wp, add_post in Hpost. cbv zeta in Hpost.
    destruct Hpost as (Hq & tr & Htr & Hcase).
    unfold bind, ret.
    destruct (Queue.add queueName groupName data options (q, w)) as [r [q' w']].
    cbn [fst snd] in *. subst q'.
    assert (Hgoal : Queue.consumers q = ∅ /\
                    Queue.activeProcessingInterval q = false /\
                    exists tr0,
                      trace w' = trace w ++ tr0 /\ Forall (fun c => ~ reads_queue c) tr0).
    { split_and!; trivial. exists tr. split; [exact Htr|].
      destruct r as [[reply|]|e|].
      - destruct Hcase as (_ & _ & sha & text & _ & _ & Hs).
        destruct (Queue.publisherClient q); destruct Hs as [_ ->];
          repeat (apply Forall_cons; split; [intros Hread; exact Hread|]); constructor.
      - destruct Hcase as (_ & _ & [(_ & Hsent & _) | (_ & _ & sha & text & _ & _ & ->)]).
        + destruct Hsent as [->|(sha & text & ->)]; [constructor|].
          apply Forall_cons; split; [intros Hread; exact Hread | constructor].
        + repeat (apply Forall_cons; split; [intros Hread; exact Hread|]); constructor.
      - destruct Hcase as (_ & _ & ->). constructor.
      - destruct Hcase. }
    now destruct r as [[reply|]|e|].
  - rewrite process_unfold, Hty. now apply Hnone.
  - unfold Queue.tick, bind, gets. cbn [fst snd]. rewrite Hcs, map_to_list_empty.
    now apply Hnone.
  - rewrite on_message_unavailable; [now apply Hnone|].
    unfold unavailable. now rewrite Hcs, lookup_empty.
Qed.

(** X19: an orchestrator constructed as a publisher never has a consumer or a
    polling timer, whatever calls it has served, and no call makes it read
    or prune a queue: it sends no [SMEMBERS], [ZCARD] or [SREM] and runs no
    script on a single key, as [dequeue] is run. *)
Theorem publisher_never_sweeps :
  forall q,
    constructed publisher q ->
    Queue.consumers q = ∅ /\
    Queue.activeProcessingInterval q = false /\
    forall (call : Call Payload) w,
      exists tr,
        trace (snd (snd (perform call (q, w)))) = trace w ++ tr /\
        Forall (fun c => ~ reads_queue c) tr.
Proof.
  intros q Hq.
  assert (Hty : Queue.type q = publisher).
  { pose proof (constructed_wiring publisher q Hq) as Hw. unfold wiring in Hw.
    now injection Hw. }
  assert (Hrest : Queue.consumers q = ∅ /\ Queue.activeProcessingInterval q = false).
  { clear Hty. induction Hq as [limits | q w call Hq IH]; [now split|].
    assert (Hty : Queue.type q = publisher).
    { pose proof (constructed_wiring publisher q Hq) as Hw. unfold wiring in Hw.
      now injection Hw. }
    destruct IH as [Hcs Htimer].
    destruct (publisher_perform call q w Hty Hcs Htimer) as (Hcs' & Htimer' & _).
    now split. }
  destruct Hrest as [Hcs Htimer]. split_and!; trivial.
  intros call w. now destruct (publisher_perform call q w Hty Hcs Htimer) as (_ & _ & Htr).
Qed.

End PublisherFacts.

(** The publisher of the examples, after [init]: its [add] sends the script
    and the notification, and nothing that reads the queue. *)
Lemma publisher_never_sweeps_witness :
  Queue.consumers Examples.publisher_q = ∅ /\
  exists tr,
    trace (snd (snd (perform (CallAdd "Q" "G" 7 Examples.no_options)
                       (Examples.publisher_q, Examples.publisher_w))))
      = trace Examples.publisher_w ++ tr /\
    Forall (fun c => ~ reads_queue c) tr.
Proof.
  assert (Hq : constructed publisher Examples.publisher_q).
  { assert (Heq : Examples.publisher_q =
                  fst (snd (perform CallInit (Queue.new publisher ∅, Examples.fresh))))
      by (vm_compute; reflexivity).
    rewrite Heq. apply constructed_call, constructed_new. }
  destruct (publisher_never_sweeps Examples.publisher_q Hq) as (Hcs & _ & Htr).
  split; [exact Hcs|]. apply Htr.
Defined.

(** ** The consumer limits *)

Section LimitsFacts.
Context {Payload : Type} `{JSON Payload}.
Implicit Types (q : Queue.t Payload) (w : World).

Lemma ignores_ret {A : Type} (a : A) : ignores_limits (Payload := Payload) (ret a).
Proof. intros limits st. reflexivity. Qed.

Lemma ignores_throw {A : Type} (e : string) :
  ignores_limits (Payload := Payload) (A := A) (throw e).
Proof. intros limits st. reflexivity. Qed.

Lemma ignores_gets {A : Type} (g : Queue.t Payload * World -> A) :
  (forall limits st, g (limited limits st) = g st) -> ignores_limits (gets g).
Proof. intros Hg limits st. unfold gets. cbn [fst snd]. now rewrite Hg. Qed.

Lemma ignores_modify (g : Queue.t Payload * World -> Queue.t Payload * World) :
  (forall limits st, g (limited limits st) = limited limits (g st)) ->
  ignores_limits (modify g).
Proof. intros Hg limits st. unfold modify. cbn [fst snd]. now rewrite Hg. Qed.

Lemma ignores_bind {A B : Type} (m : M (Queue.t Payload * World) A)
    (k : A -> M (Queue.t Payload * World) B) :
  ignores_limits m -> (forall a, ignores_limits (k a)) -> ignores_limits (bind m k).
Proof.
  intros Hm Hk limits st. unfold bind. rewrite Hm.
  destruct (m st) as [[a|e|] st1]; cbn [fst snd]; try reflexivity. apply Hk.
Qed.

Lemma ignores_try_catch {A : Type} (m : M (Queue.t Payload * World) A)
    (h : string -> M (Queue.t Payload * World) A) :
  ignores_limits m -> (forall e, ignores_limits (h e)) -> ignores_limits (try_catch m h).
Proof.
  intros Hm Hh limits st. unfold try_catch. rewrite Hm.
  destruct (m st) as [[a|e|] st1]; cbn [fst snd]; try reflexivity. apply Hh.
Qed.

Lemma ignores_finally {A : Type} (m : M (Queue.t Payload * World) A)
    (cleanup : M (Queue.t Payload * World) unit) :
  ignores_limits m -> ignores_limits cleanup -> ignores_limits (finally m cleanup).
Proof.
  intros Hm Hc limits st. unfold finally. rewrite Hm.
  destruct (m st) as [[a|e|] st1]; cbn [fst snd]; try reflexivity;
    rewrite Hc; now destruct (cleanup st1) as [[[]|e2|] st2].
Qed.

Lemma ignores_in_world {A : Type} (m : M World A) :
  ignores_limits (Payload := Payload) (in_world m).
Proof. intros limits [q w]. unfold in_world, limited. cbn [fst snd]. now destruct (m w). Qed.

Lemma ignores_in_manager {A : Type} (m : M (RedisManager.t * World) A) :
  ignores_limits (Payload := Payload) (Queue.in_manager m).
Proof.
  intros limits [q w]. unfold Queue.in_manager, limited. cbn [fst snd].
  change (Queue.redisManager (with_limits limits q)) with (Queue.redisManager q).
  now destruct (m (Queue.redisManager q, w)) as [r [m' w']].
Qed.

Lemma ignores_deliver name (jobId : N) (text g : string) :
  ignores_limits (Payload := Payload) (Queue.deliver name jobId text g).
Proof.
  unfold Queue.deliver. apply ignores_try_catch; [|intros _; apply ignores_ret].
  destruct (JSON_parse text) as [jobData|]; [|apply ignores_throw].
  intros limits [q w]. unfold Queue.consumer_process, limited. cbn [fst snd].
  change (Queue.consumers (with_limits limits q)) with (Queue.consumers q).
  destruct (Queue.consumers q !! name) as [c|]; [|reflexivity].
  now destruct (Consumer.process c _).
Qed.

Lemma ignores_sweep_groups sha key name (groups : list string) :
  ignores_limits (Payload := Payload) (Queue.sweep_groups sha key name groups).
Proof.
  induction groups as [|g rest IH]; [apply ignores_ret|].
  cbn [Queue.sweep_groups].
  apply ignores_bind; [apply ignores_in_world|]. intros [|n].
  - apply ignores_bind; [apply ignores_in_world | intros _; exact IH].
  - apply ignores_bind; [apply ignores_in_world|]. intros result.
    destruct (Queue.as_triple result) as [[[jobId text] gname]|]; [|exact IH].
    apply ignores_bind; [apply ignores_deliver | intros _; exact IH].
Qed.

Lemma ignores_sweep name :
  ignores_limits (Payload := Payload) (Queue.processQueueTasks name).
Proof.
  unfold Queue.processQueueTasks.
  apply ignores_bind; [apply ignores_in_manager|]. intros _.
  apply ignores_finally; [|apply ignores_in_manager].
  apply ignores_try_catch; [|intros _; apply ignores_ret].
  apply ignores_bind; [now apply ignores_gets|]. intros [sha|]; [|apply ignores_ret].
  apply ignores_bind; [apply ignores_in_world|]. intros [|g groups].
  - apply ignores_ret.
  - apply ignores_sweep_groups.
Qed.

Lemma ignores_poll (names : list string) :
  ignores_limits (Payload := Payload) (Queue.poll names).
Proof.
  induction names as [|name rest IH]; [apply ignores_ret|].
  cbn [Queue.poll]. apply ignores_bind; [now apply ignores_gets|]. intros consumer.
  destruct (Consumer.status <$> consumer) as [[|]|]; try exact IH.
  apply ignores_bind; [apply ignores_sweep | intros _; exact IH].
Qed.

Lemma ignores_perform (call : Call Payload) : ignores_limits (perform call).
Proof.
  destruct call as [|queueName groupName data options|name callback| |chan message];
    cbn [perform].
  - unfold Queue.init. apply ignores_bind; [apply ignores_in_manager|]. intros _.
    apply ignores_bind; [now apply ignores_gets|]. intros [|]; [apply ignores_ret|].
    unfold Queue.startActiveProcessing. now apply ignores_modify.
  - apply ignores_bind; [|intros _; apply ignores_ret]. unfold Queue.add.
    apply ignores_bind; [apply ignores_in_manager|]. intros _.
    apply ignores_finally; [|apply ignores_in_manager].
    apply ignores_try_catch; [|intros _; apply ignores_ret].
    apply ignores_bind; [now apply ignores_gets|]. intros [sha|]; [|apply ignores_ret].
    destruct (JSON_stringify data) as [text|]; [|apply ignores_throw].
    apply ignores_bind; [apply ignores_in_world|]. intros jobId.
    apply ignores_bind; [now apply ignores_gets|]. intros [|].
    + apply ignores_bind; [apply ignores_in_world | intros _; apply ignores_ret].
    + apply ignores_bind; [apply ignores_ret | intros _; apply ignores_ret].
  - unfold Queue.process.
    apply ignores_bind; [now apply ignores_gets|]. intros [|]; [apply ignores_throw|].
    apply ignores_bind; [now apply ignores_gets|]. intros [c|]; [apply ignores_throw|].
    apply ignores_bind; [now apply ignores_modify|]. intros _.
    apply ignores_bind; [now apply ignores_gets|].
    intros [|]; [apply ignores_ret | apply ignores_sweep].
  - unfold Queue.tick. apply ignores_bind; [now apply ignores_gets|]. intros entries.
    apply ignores_poll.
  - unfold Queue.on_message.
    destruct (String.eqb chan Queue.newjob_channel); [|apply ignores_ret].
    apply ignores_try_catch; [|intros _; apply ignores_ret].
    apply ignores_bind; [now apply ignores_gets|]. intros consumer.
    destruct (Consumer.status <$> consumer) as [[|]|]; try apply ignores_ret.
    apply ignores_bind; [apply ignores_in_manager|]. intros _.
    apply ignores_finally; [|apply ignores_in_manager].
    apply ignores_bind; [apply ignores_in_world|].
    intros [|n]; [apply ignores_ret | apply ignores_sweep].
Qed.

(** X20: the [consumerLimits] option is stored by the constructor and read by
    nothing: constructed with other limits, the orchestrator ends every call
    the same way and leaves the same world and, up to the limits it stores,
    the same orchestrator. In particular no limit bounds the consumers of a
    queue. *)
Theorem consumer_limits_are_never_read :
  forall (limits : gmap string nat) (role : Role) (call : Call Payload) q w,
    (Queue.new role limits : Queue.t Payload) = with_limits limits (Queue.new role ∅) /\
    perform call (with_limits limits q, w) =
      (fst (perform call (q, w)),
       (with_limits limits (fst (snd (perform call (q, w)))),
        snd (snd (perform call (q, w))))).
Proof.
  intros limits role call q w. split; [reflexivity|].
  exact (ignores_perform call limits (q, w)).
Qed.

End LimitsFacts.

(** ** The polling timer *)

Section TickFacts.
Context {Payload : Type} `{JSON Payload}.
Implicit Types (q : Queue.t Payload) (w : World).

Lemma poll_balanced (names : list string) :
  forall q w,
    let r := Queue.poll names (q, w) in
    (fst r <> Hang -> borrowed (snd (snd r)) = borrowed w) /\
    (fst r = Hang -> borrowed (snd (snd r)) = S (borrowed w)) /\
    (reliable w -> forall e, fst r <> Throw e).
Proof.
  induction names as [|name rest IH]; intros q w; cbv zeta.
  { cbn. split_and!; auto; discriminate. }
  assert (Heq : Queue.poll (name :: rest) (q, w) =
                match Consumer.status <$> Queue.consumers q !! name with
                | Some Consumer.SLEEPING =>
                    bind (Queue.processQueueTasks name) (fun _ => Queue.poll rest) (q, w)
                | _ => Queue.poll rest (q, w)
                end).
  { cbn [Queue.poll]. unfold bind at 1. unfold gets. cbn [fst snd].
    now destruct (Consumer.status <$> Queue.consumers q !! name) as [[|]|]. }
  rewrite Heq. clear Heq.
  destruct (Consumer.status <$> Queue.consumers q !! name) as [[|]|];
    [|exact (IH q w)|exact (IH q w)].
  unfold bind.
  pose proof (wp_flow name q w) as Hflow. unfold wp, flow_post in Hflow. cbv zeta in Hflow.
  destruct Hflow as (Hend & _).
  pose proof (wp_processQueueTasks name q w) as Hpost.
  unfold wp, process_post in Hpost. cbv zeta in Hpost.
  destruct Hpost as (done & dl & _ & _ & _ & _ & _ & _ & _ & _ & _ & Hrel & Hno & _).
  destruct (Queue.processQueueTasks name (q, w)) as [[[]|e|] [q1 w1]]; cbn [fst snd] in *.
  - destruct Hend as [_ Hb]. cbn [fst snd] in Hb. specialize (IH q1 w1). cbv zeta in IH.
    destruct IH as (Hok & Hhang & Hthrow). rewrite Hb in Hok, Hhang. split_and!; auto.
  - destruct Hend as (_ & _ & Hst). injection Hst as -> ->.
    split_and!; [reflexivity | discriminate |]. intros Hw. destruct (Hno Hw e eq_refl).
  - destruct Hend as [_ Hb]. cbn [fst snd] in Hb.
    split_and!; [intros Hnh; now destruct Hnh | auto | discriminate].
Qed.

(** X21: on a pool that has a connection to lend, one tick of the polling
    timer gives back every connection it borrowed, unless it is left
    pending on a callback that never signals, and then it holds exactly
    one, the one the pool had to lend. On a healthy network it does not
    reject. This holds in whatever order the tick walks the consumers. *)
Theorem tick_gives_connections_back :
  forall q w (names : list string),
    has_room 1 w ->
    forall r,
      r = Queue.tick (q, w) \/ r = Queue.poll names (q, w) ->
      (fst r <> Hang -> borrowed (snd (snd r)) = borrowed w) /\
      (fst r = Hang -> borrowed (snd (snd r)) = S (borrowed w)) /\
      (reliable w -> forall e, fst r <> Throw e) /\
      borrowed (snd (snd r)) <= pool_max.
Proof.
  intros q w names Hroom r Hr. unfold has_room in Hroom.
  assert (Hpoll : exists walk, r = Queue.poll walk (q, w)).
  { destruct Hr as [-> | ->]; [|eauto].
    unfold Queue.tick, bind, gets. cbn [fst snd]. eauto. }
  destruct Hpoll as [walk ->].
  pose proof (poll_balanced walk q w) as Hflow. cbv zeta in Hflow.
  destruct Hflow as (Hok & Hhang & Hno).
  split_and!; trivial.
  destruct (fst (Queue.poll walk (q, w))) as [[]|e|] eqn:Hout.
  - rewrite Hok by discriminate. lia.
  - rewrite Hok by discriminate. lia.
  - rewrite Hhang by reflexivity. lia.
Qed.


End TickFacts.

(** The tick of the examples walks the one consumer, whose callback never
    signals: it is left pending with one connection. Walking the queue
    twice changes nothing. *)
Lemma tick_gives_connections_back_witness :
  let q := Examples.two_groups_silent_q in
  let w := Examples.two_groups_w in
  has_room 1 w /\
  fst (Queue.tick (q, w)) = Hang /\
  borrowed (snd (snd (Queue.tick (q, w)))) = S (borrowed w) /\
  borrowed (snd (snd (Queue.poll ["Q"; "Q"] (q, w)))) = S (borrowed w).
Proof.
  intros q w.
  assert (Hroom : has_room 1 w) by (vm_compute; lia).
  split; [exact Hroom|].
  assert (Hr : fst (Queue.tick (q, w)) = Hang) by (vm_compute; reflexivity).
  assert (Hr' : fst (Queue.poll ["Q"; "Q"] (q, w)) = Hang) by (vm_compute; reflexivity).
  split; [exact Hr|].
  destruct (tick_gives_connections_back q w ["Q"; "Q"] Hroom _ (or_introl eq_refl))
    as (_ & Hhang & _).
  destruct (tick_gives_connections_back q w ["Q"; "Q"] Hroom _ (or_intror eq_refl))
    as (_ & Hhang' & _).
  split; [exact (Hhang Hr) | exact (Hhang' Hr')].
Defined.


(** ** The keys *)

Lemma list_ascii_of_append (a b : string) :
  String.list_ascii_of_string (a ++ b)
  = (String.list_ascii_of_string a ++ String.list_ascii_of_string b)%list.
Proof.
  induction a as [|c a IH]; [reflexivity|].
  change (String.list_ascii_of_string (String c a ++ b))
    with (c :: String.list_ascii_of_string (a ++ b)).
  now rewrite IH.
Qed.

Lemma append_inv_tail (a b s : string) : (a ++ s = b ++ s)%string -> a = b.
Proof.
  intros Heq. apply (f_equal String.list_ascii_of_string) in Heq.
  rewrite !list_ascii_of_append in Heq. apply app_inv_tail in Heq.
  rewrite <- (String.string_of_list_ascii_of_string a),
    <- (String.string_of_list_ascii_of_string b).
  now rewrite Heq.
Qed.

(** X23: two queues never share their group index, two groups of one queue
    never share their collection, and the index of a queue is the
    collection of none of its groups. *)
Theorem keys_of_a_queue_are_distinct :
  forall (queueName other groupName otherGroup : string),
    (Queue.groups_key queueName = Queue.groups_key other -> queueName = other) /\
    (Queue.group_key queueName groupName = Queue.group_key queueName otherGroup ->
     groupName = otherGroup) /\
    Queue.groups_key queueName <> Queue.group_key queueName groupName.
Proof.
  intros queueName other groupName otherGroup. unfold Queue.groups_key, Queue.group_key.
  split_and!.
  - intros Heq. apply String.app_inj in Heq. now apply append_inv_tail in Heq.
  - intros Heq. apply String.app_inj, String.app_inj in Heq.
    now apply String.app_inj in Heq.
  - intros Heq. apply String.app_inj, String.app_inj in Heq. discriminate.
Qed.

(** ** [init], then [add] *)

Section ComposeFacts.
Context {Payload : Type} `{JSON Payload}.
Implicit Types (q : Queue.t Payload) (w : World).



End ComposeFacts.

